(** * golog: the asynchronous log writer ([logger/logger_writer.go])

    A shallow embedding of the message pool, the pending queue, the writer
    loop and the shutdown protocol of the logger package, followed by the
    properties of the pipeline that were checked against it.

    Conventions of the embedding
    - a [*logMessage] is its index in the array [msgArr] allocated by
      [init]; the array is the store, the two channels carry indices;
    - a [[]byte] and a Go [string] are both a [string] (a sequence of 8-bit
      characters);
    - the [uint64] counters are [Z] with the wrap-around of
      [atomic.AddUint64] written out;
    - a buffered channel is its capacity and its content in FIFO order;
    - what the operating system decides (the result of a sink write, of
      [openlog], of [net.Dial]) is an argument of the function that asks;
      in the interleaved process it also decides whether a call of the
      sink returns at all. *)

From Stdlib Require Import ZArith String Ascii List Lia DecimalString.
From stdpp Require Import prelude strings.

Local Open Scope Z_scope.

(** ** Constants of the package and of [<syslog.h>] *)

Definition NumMessages : nat := 10 * 1024.
Definition MaxFreeMsgSize : Z := 8 * 1024.

(** The priorities and the facility of [<syslog.h>], which the source reaches
    through cgo as [C.LOG_INFO] and the like. *)
Definition LOG_ERR : Z := 3.
Definition LOG_WARNING : Z := 4.
Definition LOG_INFO : Z := 6.
Definition LOG_DEBUG : Z := 7.
Definition LOG_USER : Z := Z.shiftl 1 3.

(** ** Levels

    The type [Level] and the value [Levels] are declared in another file of
    the package; the writer uses the seven names below as map keys. *)
Module Levels.
Inductive Level : Type :=
| Access | Off | Panic | Error | Warn | Info | Debug.
End Levels.
Abbreviation Level := Levels.Level.

(** mapping of our levels to syslog values *)
Definition levelSysLog (l : Level) : Z :=
  match l with
  | Levels.Access => LOG_INFO
  | Levels.Off => LOG_DEBUG
  | Levels.Panic => LOG_ERR
  | Levels.Error => LOG_ERR
  | Levels.Warn => LOG_WARNING
  | Levels.Info => LOG_INFO
  | Levels.Debug => LOG_DEBUG
  end.

(** mirror of levelMap: the bracketed name, each entry with its blank *)
Definition levelMapFmt (l : Level) : string :=
  match l with
  | Levels.Access => "[Access] "
  | Levels.Off => "[Off] "
  | Levels.Panic => "[Panic] "
  | Levels.Error => "[Error] "
  | Levels.Warn => "[Warn] "
  | Levels.Info => "[Info] "
  | Levels.Debug => "[Debug] "
  end.

(** ** Errors *)

Inductive error : Type :=
| ErrLogFullBuf
| ErrFreeMessageOverflow
| ErrFreeMessageUnderflow
| ErrUnavailable.

(** What a call does: it returns its [err] result, or it panics. *)
Inductive outcome : Type :=
| Ret (err : option error)
| GoPanic (why : string).

(** ** Strings *)

Definition NUL : string := String Ascii.zero EmptyString.

Definition len (p : string) : Z := Z.of_nat (String.length p).

(** [fmt.Sprintf("%s %s %s", a, b, c)] *)
Definition Sprintf_s_s_s (a b c : string) : string :=
  a +:+ " " +:+ b +:+ " " +:+ c.

(** [fmt.Sprintf("<%d>", n)] *)
Definition Sprintf_prio (n : Z) : string :=
  "<" +:+ NilZero.string_of_int (Z.to_int n) +:+ ">".

(** The C string that starts at the first byte of [p]: it stops before the
    first NUL. *)
Fixpoint cstring (p : string) : string :=
  match p with
  | EmptyString => EmptyString
  | String c r => if Ascii.eqb c Ascii.zero then EmptyString else String c (cstring r)
  end.

(** ** The counters

    [logCount], [dropCount] and [errCount] are [uint64] variables of the
    package, bumped with [atomic.AddUint64(&c, 1)]. *)
Definition atomic_AddUint64_1 (c : Z) : Z := (c + 1) mod 2 ^ 64.
Arguments atomic_AddUint64_1 : simpl never.

(** The capacity that [bytes.Buffer.grow] gives up to Go 1.19 to a buffer
    that nothing has been read from: 64 bytes ([smallBufferSize]) for a nil
    buffer and a write of at most 64, [makeSlice(2*c + n)] otherwise.  Later
    versions grow with [append] and get what the allocator rounds to.  No
    statement depends on it: it is the policy the model is run with on
    concrete inputs. *)
Definition growCap_go119 (c l n : Z) : Z :=
  if (c =? 0) && (n <=? 64) then 64 else 2 * c + n.

Section Pipeline.

(** ** [bytes.Buffer]

    Only the capacity that a growing buffer gets is left to the Go runtime:
    [growCap c l n] is the capacity after [n] bytes did not fit in a buffer of
    capacity [c] holding [l] bytes. *)
Variable growCap : Z -> Z -> Z -> Z.

Record Buffer : Type := mkBuffer {
  buf : string;   (* the bytes written and not yet reset *)
  bcap : Z        (* cap(b.buf) *)
}.

Definition Buffer_zero : Buffer := {| buf := ""; bcap := 0 |}.

Definition Buffer_Cap (b : Buffer) : Z := bcap b.

Definition Buffer_Bytes (b : Buffer) : string := buf b.

(** [b.Write(p)]: append in place when the bytes fit, grow otherwise. *)
Definition Buffer_Write (p : string) (b : Buffer) : Buffer :=
  {| buf := buf b +:+ p;
     bcap := if len (buf b) + len p <=? bcap b then bcap b
             else growCap (bcap b) (len (buf b)) (len p) |}.

(** [b.WriteByte(0)] *)
Definition Buffer_WriteByte0 (b : Buffer) : Buffer := Buffer_Write NUL b.

(** [b.Reset()]: the length goes to zero, the storage stays. *)
Definition Buffer_Reset (b : Buffer) : Buffer :=
  {| buf := ""; bcap := bcap b |}.

(** container for a pending log message *)
Record logMessage : Type := mkMsg {
  buffer : Buffer;
  level : Z
}.

(** [logMessage{}] *)
Definition logMessage_zero : logMessage :=
  {| buffer := Buffer_zero; level := 0 |}.

(** ** Buffered channels of message pointers *)

Record chan : Type := mkChan {
  ch_cap : nat;
  ch_items : list nat
}.

Definition make_chan (n : nat) : chan := {| ch_cap := n; ch_items := [] |}.

(** [select { case c <- x: ... default: ... }] on an open channel *)
Definition chan_send (x : nat) (c : chan) : option chan :=
  if (length (ch_items c) <? ch_cap c)%nat
  then Some {| ch_cap := ch_cap c; ch_items := ch_items c ++ [x] |}
  else None.

(** a receive that finds something: the oldest element leaves the channel *)
Definition chan_recv (c : chan) : option (nat * chan) :=
  match ch_items c with
  | [] => None
  | x :: r => Some (x, {| ch_cap := ch_cap c; ch_items := r |})
  end.

(** ** The connection of the custom socket *)

Record Conn : Type := mkConn {
  sent : list string;    (* the writes that reached the peer, oldest first *)
  conn_closed : bool
}.

(** ** The variables of the package *)

Record State : Type := mkState {
  msgArr : list logMessage;   (* the messages allocated by init *)
  messages : chan;   (* pending messages *)
  messages_closed : bool;   (* close(messages) was executed *)
  freeMessages : chan;   (* free messages; never closed *)
  customSock : option Conn;   (* nil, or the dialled connection *)
  mux_readers : nat;   (* holders of shuttingDownMux.RLock *)
  mux_locked : bool;   (* shuttingDownMux.Lock is held *)
  shuttingDown : bool;
  wg : Z;   (* the counter of the WaitGroup *)
  logCount : Z;
  dropCount : Z;
  errCount : Z;
  syslog : list (Z * string);   (* the calls of csyslog, oldest first *)
  logNameSet : option string   (* the identifier given to openlog *)
}.

Definition set_msgArr (x : list logMessage) (s : State) : State :=
  mkState x (messages s) (messages_closed s) (freeMessages s) (customSock s)
    (mux_readers s) (mux_locked s) (shuttingDown s) (wg s) (logCount s)
    (dropCount s) (errCount s) (syslog s) (logNameSet s).
Definition set_messages (x : chan) (s : State) : State :=
  mkState (msgArr s) x (messages_closed s) (freeMessages s) (customSock s)
    (mux_readers s) (mux_locked s) (shuttingDown s) (wg s) (logCount s)
    (dropCount s) (errCount s) (syslog s) (logNameSet s).
Definition set_messages_closed (x : bool) (s : State) : State :=
  mkState (msgArr s) (messages s) x (freeMessages s) (customSock s)
    (mux_readers s) (mux_locked s) (shuttingDown s) (wg s) (logCount s)
    (dropCount s) (errCount s) (syslog s) (logNameSet s).
Definition set_freeMessages (x : chan) (s : State) : State :=
  mkState (msgArr s) (messages s) (messages_closed s) x (customSock s)
    (mux_readers s) (mux_locked s) (shuttingDown s) (wg s) (logCount s)
    (dropCount s) (errCount s) (syslog s) (logNameSet s).
Definition set_customSock (x : option Conn) (s : State) : State :=
  mkState (msgArr s) (messages s) (messages_closed s) (freeMessages s) x
    (mux_readers s) (mux_locked s) (shuttingDown s) (wg s) (logCount s)
    (dropCount s) (errCount s) (syslog s) (logNameSet s).
Definition set_mux_readers (x : nat) (s : State) : State :=
  mkState (msgArr s) (messages s) (messages_closed s) (freeMessages s)
    (customSock s) x (mux_locked s) (shuttingDown s) (wg s) (logCount s)
    (dropCount s) (errCount s) (syslog s) (logNameSet s).
Definition set_mux_locked (x : bool) (s : State) : State :=
  mkState (msgArr s) (messages s) (messages_closed s) (freeMessages s)
    (customSock s) (mux_readers s) x (shuttingDown s) (wg s) (logCount s)
    (dropCount s) (errCount s) (syslog s) (logNameSet s).
Definition set_shuttingDown (x : bool) (s : State) : State :=
  mkState (msgArr s) (messages s) (messages_closed s) (freeMessages s)
    (customSock s) (mux_readers s) (mux_locked s) x (wg s) (logCount s)
    (dropCount s) (errCount s) (syslog s) (logNameSet s).
Definition set_wg (x : Z) (s : State) : State :=
  mkState (msgArr s) (messages s) (messages_closed s) (freeMessages s)
    (customSock s) (mux_readers s) (mux_locked s) (shuttingDown s) x
    (logCount s) (dropCount s) (errCount s) (syslog s) (logNameSet s).
Definition set_logCount (x : Z) (s : State) : State :=
  mkState (msgArr s) (messages s) (messages_closed s) (freeMessages s)
    (customSock s) (mux_readers s) (mux_locked s) (shuttingDown s) (wg s) x
    (dropCount s) (errCount s) (syslog s) (logNameSet s).
Definition set_dropCount (x : Z) (s : State) : State :=
  mkState (msgArr s) (messages s) (messages_closed s) (freeMessages s)
    (customSock s) (mux_readers s) (mux_locked s) (shuttingDown s) (wg s)
    (logCount s) x (errCount s) (syslog s) (logNameSet s).
Definition set_errCount (x : Z) (s : State) : State :=
  mkState (msgArr s) (messages s) (messages_closed s) (freeMessages s)
    (customSock s) (mux_readers s) (mux_locked s) (shuttingDown s) (wg s)
    (logCount s) (dropCount s) x (syslog s) (logNameSet s).
Definition set_syslog (x : list (Z * string)) (s : State) : State :=
  mkState (msgArr s) (messages s) (messages_closed s) (freeMessages s)
    (customSock s) (mux_readers s) (mux_locked s) (shuttingDown s) (wg s)
    (logCount s) (dropCount s) (errCount s) x (logNameSet s).
Definition set_logNameSet (x : option string) (s : State) : State :=
  mkState (msgArr s) (messages s) (messages_closed s) (freeMessages s)
    (customSock s) (mux_readers s) (mux_locked s) (shuttingDown s) (wg s)
    (logCount s) (dropCount s) (errCount s) (syslog s) x.

Definition bump_logCount (s : State) : State :=
  set_logCount (atomic_AddUint64_1 (logCount s)) s.
Definition bump_dropCount (s : State) : State :=
  set_dropCount (atomic_AddUint64_1 (dropCount s)) s.
Definition bump_errCount (s : State) : State :=
  set_errCount (atomic_AddUint64_1 (errCount s)) s.

(** [*msg], and an assignment through the pointer *)
Definition deref (msg : nat) (s : State) : logMessage :=
  default logMessage_zero (msgArr s !! msg).

Definition update_msg (msg : nat) (f : logMessage -> logMessage) (s : State) : State :=
  set_msgArr (alter f msg (msgArr s)) s.


(** ** The functions of the file, one call at a time

    Each function below is the source function run from its first statement
    to its return with no other goroutine in between.  The read lock that
    [queueMsgDirect] takes and releases is left to the interleaved model
    further down, where it matters. *)

(** SetCustomSocket: [dial] is what [net.Dial] returns, the connection or
    (for an error) nil.  The result tells whether [err] is nil. *)
Definition SetCustomSocket (dial : option Conn) (s : State) : State * bool :=
  (set_customSock dial s, match dial with Some _ => true | None => false end).

(** SetLogName: [openlog_ok] tells whether the cgo call left errno clear.
    The result tells whether [err] is nil. *)
Definition SetLogName (p : string) (openlog_ok : bool) (s : State) : State * bool :=
  let s := set_logNameSet (Some p) s in
  if openlog_ok then (s, true) else (bump_errCount s, false).

(** freeMsg releases the message back to be reused *)
Definition freeMsg (msg : nat) (s : State) : State * option error :=
  match chan_send msg (freeMessages s) with
  | Some c => (set_freeMessages c s, None)
  | None => (bump_errCount s, Some ErrFreeMessageOverflow)
  end.

(** The three statements that render into the message: the level, the
    entry, the C null terminator. *)
Definition render_level (msg : nat) (s : State) : State :=
  update_msg msg (fun m => {| buffer := buffer m; level := levelSysLog Levels.Debug |}) s.

Definition render_entry (msg : nat) (logEntry : string) (s : State) : State :=
  update_msg msg (fun m => {| buffer := Buffer_Write logEntry (buffer m); level := level m |}) s.

Definition render_nul (msg : nat) (s : State) : State :=
  update_msg msg (fun m => {| buffer := Buffer_WriteByte0 (buffer m); level := level m |}) s.

Definition render (msg : nat) (logEntry : string) (s : State) : State :=
  render_nul msg (render_entry msg logEntry (render_level msg s)).

(** The function deferred by queueMsgDirect once it holds a message. *)
Definition deferred_release (msg : nat) (err : option error) (s : State) : State :=
  match err with
  | Some _ => fst (freeMsg msg s)
  | None => s
  end.

(** The last select of queueMsgDirect, up to the return.  A send on a closed
    channel panics; the deferred function then sees a nil [err]. *)
Definition enqueue (msg : nat) (s : State) : State * outcome :=
  if messages_closed s then (s, GoPanic "send on closed channel")
  else
    match chan_send msg (messages s) with
    | Some q =>
        let err := None in
        (deferred_release msg err (set_messages q s), Ret err)
    | None =>
        (* this should never happen since there is an exact number of messages *)
        let s := bump_errCount s in
        let err := Some ErrLogFullBuf in
        (deferred_release msg err s, Ret err)
    end.

(** queueMsgDirect adds a message to the pending messages channel.  The
    source drops the results of [Write] and [WriteByte] and tests the
    result variable [err], which nothing has assigned yet. *)
Definition queueMsgDirect (logEntry : string) (s : State) : State * outcome :=
  if negb (shuttingDown s) then
    let s := bump_logCount s in
    let err : option error := None in
    match chan_recv (freeMessages s) with
    | None =>
        (* no messages left, drop *)
        (bump_dropCount s, Ret err)
    | Some (msg, fr) =>
        let s := set_freeMessages fr s in
        let s := render_level msg s in
        let s := render_entry msg logEntry s in
        match err with
        | Some _ => (deferred_release msg err (bump_errCount s), Ret err)
        | None =>
            let s := render_nul msg s in
            match err with
            | Some _ => (deferred_release msg err (bump_errCount s), Ret err)
            | None => enqueue msg s
            end
        end
    end
  else (s, Ret (Some ErrUnavailable)).

(** queueMsg: [body] is the result of [fmt.Sprintf(format, v...)]. *)
Definition queueMsg (lvl : Level) (prefix body : string) (s : State) : State * outcome :=
  let logMsg := Sprintf_s_s_s (levelMapFmt lvl) prefix body in
  queueMsgDirect logMsg s.

(** write a message to syslog; [ok] tells whether errno stayed clear.  The
    source takes the address of the first byte of the buffer, which panics
    on an empty buffer; the definition is what the source does on a buffer
    that is not empty, and a message that reaches the writer holds at least
    its terminator (see [message_to_write_is_terminated]). *)
Definition write (ok : bool) (msg : nat) (s : State) : State * bool :=
  let m := deref msg s in
  let start := cstring (Buffer_Bytes (buffer m)) in
  let s := set_syslog (syslog s ++ [(Z.lor LOG_USER (level m), start)]) s in
  if ok then (s, true) else (bump_errCount s, false).

(** The bytes that writeCustomSocket hands to [customSock.Write]. *)
Definition socket_frame (m : logMessage) : string :=
  Sprintf_prio (Z.lor LOG_USER (level m)) +:+ Buffer_Bytes (buffer m).

(** write a message to the custom socket; [ok] tells whether [Write]
    returned no error.  The caller has checked that the socket is set: on a
    nil [customSock] the source panics, and the branch of [None] below is
    never taken from [sink_write]. *)
Definition writeCustomSocket (ok : bool) (msg : nat) (s : State) : State * bool :=
  let m := deref msg s in
  match customSock s with
  | None => (s, false)
  | Some k =>
      if ok then
        (set_customSock (Some {| sent := sent k ++ [socket_frame m];
                                 conn_closed := conn_closed k |}) s, true)
      else (bump_errCount s, false)
  end.

(** The branch of logWriter on the capacity of the written message. *)
Definition recycle (msg : nat) (s : State) : State :=
  if Buffer_Cap (buffer (deref msg s)) >? MaxFreeMsgSize
  then update_msg msg (fun _ => logMessage_zero) s
  else update_msg msg (fun m => {| buffer := Buffer_Reset (buffer m); level := level m |}) s.

(** The sink call of one turn of the loop of logWriter. *)
Definition sink_write (ok : bool) (msg : nat) (s : State) : State :=
  match customSock s with
  | None => fst (write ok msg s)
  | Some _ => fst (writeCustomSocket ok msg s)
  end.

(** One turn of the loop of logWriter on the received [msg]. *)
Definition logWriter_turn (ok : bool) (msg : nat) (s : State) : State :=
  let s := sink_write ok msg s in
  let s := recycle msg s in
  fst (freeMsg msg s).

(** What logWriter does after its loop. *)
Definition logWriter_exit (s : State) : State :=
  match customSock s with
  | None => s
  | Some k => set_customSock (Some {| sent := sent k; conn_closed := true |}) s
  end.

(** The loop of init: release every message of the array, stop at the
    first error. *)
Fixpoint init_release (ids : list nat) (s : State) : State :=
  match ids with
  | [] => s
  | i :: r =>
      match freeMsg i s with
      | (s', None) => init_release r s'
      | (s', Some _) => s'
      end
  end.

(** The package as [n] messages set it up: the variable initialisers, then
    init up to the start of the writer goroutine. *)
Definition init_with (n : nat) : State :=
  let s := {| msgArr := replicate n logMessage_zero;
              messages := make_chan n;
              messages_closed := false;
              freeMessages := make_chan n;
              customSock := None;
              mux_readers := 0%nat;
              mux_locked := false;
              shuttingDown := false;
              wg := 0;
              logCount := 0; dropCount := 0; errCount := 0;
              syslog := [];
              logNameSet := None |} in
  let s := init_release (seq 0 n) s in
  set_wg (wg s + 1) s.

Definition init : State := init_with NumMessages.

(** ** The goroutines, one shared-memory operation at a time

    The producers (calls of queueMsgDirect), the writer goroutine started by
    init and the callers of drainTheQueue run interleaved.  A step is one
    operation on a channel, on the mutex, on the WaitGroup or on a sink,
    together with the statements around it that touch only what the
    goroutine owns or what the lock it holds protects.  A goroutine waits
    where the source blocks: a call at [RLock] while the write lock is
    held, a drain at [Lock] and at [wg.Wait()], the writer at the range
    over the open empty queue and inside the call of the sink, which
    returns when the sink decides and possibly never. *)

Inductive next (PC : Type) : Type :=
| Goto (pc : PC)
| Finish (o : outcome).
Arguments Goto {PC} pc.
Arguments Finish {PC} o.

(** What a step shows to an observer. *)
Inductive event : Type :=
| EvTau
| EvCall (logEntry : string)
| EvReturn (logEntry : string) (err : option error)
| EvEnqueue (msg : nat) (logEntry : string) (m : logMessage)
| EvSink (msg : nat) (m : logMessage) (ok : bool)
| EvDrainCall
| EvDrainReturn
| EvPanic (why : string).

(** Where a call of queueMsgDirect stands once it holds the read lock and
    has seen the flag down. *)
Inductive producer : Type :=
| PAcquire (logEntry : string)               (* at the select on freeMessages *)
| PRender (msg : nat) (logEntry : string)    (* holds msg, about to render *)
| PEnqueue (msg : nat) (logEntry : string)   (* at the select on messages *)
| PRelease (msg : nat) (logEntry : string).  (* queue full, deferred call to run *)

(** The first step of a call: RLock, the test of the flag, the count.  The
    call waits while the write lock is held.  With the flag up it returns at
    once, releasing the read lock. *)
Definition producer_call (logEntry : string) (s : State)
  : option (State * next producer * event) :=
  if mux_locked s then None
  else if negb (shuttingDown s) then
    Some (bump_logCount (set_mux_readers (S (mux_readers s)) s),
          Goto (PAcquire logEntry), EvCall logEntry)
  else Some (s, Finish (Ret (Some ErrUnavailable)),
             EvReturn logEntry (Some ErrUnavailable)).

(** RUnlock, deferred first and so run last. *)
Definition RUnlock (s : State) : State :=
  set_mux_readers (pred (mux_readers s)) s.

Definition producer_step (p : producer) (s : State)
  : State * next producer * event :=
  match p with
  | PAcquire logEntry =>
      match chan_recv (freeMessages s) with
      | None =>
          (RUnlock (bump_dropCount s), Finish (Ret None), EvReturn logEntry None)
      | Some (msg, fr) =>
          (set_freeMessages fr s, Goto (PRender msg logEntry), EvTau)
      end
  | PRender msg logEntry =>
      (render msg logEntry s, Goto (PEnqueue msg logEntry), EvTau)
  | PEnqueue msg logEntry =>
      if messages_closed s then
        (RUnlock s, Finish (GoPanic "send on closed channel"),
         EvPanic "send on closed channel")
      else
        match chan_send msg (messages s) with
        | Some q =>
            (RUnlock (set_messages q s), Finish (Ret None),
             EvEnqueue msg logEntry (deref msg s))
        | None =>
            (bump_errCount s, Goto (PRelease msg logEntry), EvTau)
        end
  | PRelease msg logEntry =>
      (RUnlock (deferred_release msg (Some ErrLogFullBuf) s),
       Finish (Ret (Some ErrLogFullBuf)),
       EvReturn logEntry (Some ErrLogFullBuf))
  end.

(** Where logWriter stands. *)
Inductive writer : Type :=
| WRange                   (* at [for msg := range messages] *)
| WWrite (msg : nat)       (* about to call the sink *)
| WRecycle (msg : nat)     (* about to reset or replace the buffer *)
| WFree (msg : nat)        (* about to call freeMsg *)
| WClose                   (* after the loop *)
| WDone.                   (* logWriter returned, wg.Done() is next *)

(** What the sink does with the call that the writer makes: the call
    returns, with or without an error, or it does not return.  [write] and
    [writeCustomSocket] are blocking calls, and nothing in the file bounds
    the time they take. *)
Inductive answer : Type :=
| Returns (ok : bool)
| Blocks.

(** A step of the writer goroutine; [None] when it has to wait: at the
    range over the open empty queue, and in the call of the sink as long as
    the sink does not return.  [ans] is what the sink does, looked at by
    the write step only. *)
Definition writer_step (ans : answer) (w : writer) (s : State)
  : option (State * next writer * event) :=
  match w with
  | WRange =>
      match chan_recv (messages s) with
      | Some (msg, q) => Some (set_messages q s, Goto (WWrite msg), EvTau)
      | None =>
          if messages_closed s then Some (s, Goto WClose, EvTau) else None
      end
  | WWrite msg =>
      match ans with
      | Returns ok =>
          Some (sink_write ok msg s, Goto (WRecycle msg),
                EvSink msg (deref msg s) ok)
      | Blocks => None
      end
  | WRecycle msg => Some (recycle msg s, Goto (WFree msg), EvTau)
  | WFree msg => Some (fst (freeMsg msg s), Goto WRange, EvTau)
  | WClose => Some (logWriter_exit s, Goto WDone, EvTau)
  | WDone =>
      if wg s - 1 <? 0 then
        Some (s, Finish (GoPanic "sync: negative WaitGroup counter"),
              EvPanic "sync: negative WaitGroup counter")
      else Some (set_wg (wg s - 1) s, Finish (Ret None), EvTau)
  end.

(** Where a call of drainTheQueue stands. *)
Inductive drainer : Type :=
| DLock        (* at shuttingDownMux.Lock() *)
| DSetFlag     (* at shuttingDown = true *)
| DClose       (* at close(messages) *)
| DUnlock      (* at shuttingDownMux.Unlock() *)
| DWait.       (* at wg.Wait() *)

(** A step of drainTheQueue; [None] when it has to wait.  Closing a closed
    channel panics, and the lock is not released then. *)
Definition drainer_step (d : drainer) (s : State)
  : option (State * next drainer * event) :=
  match d with
  | DLock =>
      if mux_locked s || negb (mux_readers s =? 0)%nat then None
      else Some (set_mux_locked true s, Goto DSetFlag, EvTau)
  | DSetFlag => Some (set_shuttingDown true s, Goto DClose, EvTau)
  | DClose =>
      if messages_closed s then
        Some (s, Finish (GoPanic "close of closed channel"),
              EvPanic "close of closed channel")
      else Some (set_messages_closed true s, Goto DUnlock, EvTau)
  | DUnlock => Some (set_mux_locked false s, Goto DWait, EvTau)
  | DWait =>
      if wg s =? 0 then Some (s, Finish (Ret None), EvDrainReturn) else None
  end.

(** drainTheQueue run with nothing in between: [None] when the call cannot
    get to its end alone (it waits for the lock or for the writer). *)
Fixpoint drainer_run (fuel : nat) (d : drainer) (s : State) : option (State * outcome) :=
  match fuel with
  | O => None
  | S fuel =>
      match drainer_step d s with
      | None => None
      | Some (s', Goto d', _) => drainer_run fuel d' s'
      | Some (s', Finish o, _) => Some (s', o)
      end
  end.

Definition drainTheQueue (s : State) : option (State * outcome) :=
  drainer_run 5 DLock s.

(** A call of queueMsgDirect run with nothing in between, from the step
    that follows the test of the flag. *)
Fixpoint producer_run (fuel : nat) (p : producer) (s : State) : option (State * outcome) :=
  match fuel with
  | O => None
  | S fuel =>
      match producer_step p s with
      | (s', Goto p', _) => producer_run fuel p' s'
      | (s', Finish o, _) => Some (s', o)
      end
  end.

Definition queueMsgDirect_stepwise (logEntry : string) (s : State)
  : option (State * outcome) :=
  match producer_call logEntry s with
  | None => None
  | Some (s', Goto p, _) => producer_run 4 p s'
  | Some (s', Finish o, _) => Some (s', o)
  end.

(** [k] calls of queueMsgDirect in a row, nothing in between: the state
    after the last and what each returned. *)
Fixpoint queueMsgDirect_times (k : nat) (logEntry : string) (s : State)
  : State * list outcome :=
  match k with
  | O => (s, [])
  | S k =>
      let '(s1, o) := queueMsgDirect logEntry s in
      let '(s2, os) := queueMsgDirect_times k logEntry s1 in
      (s2, o :: os)
  end.

(** The process: the variables and the goroutines.  The writer is [None]
    once its goroutine has returned. *)
Record System : Type := mkSystem {
  vars : State;
  producers : list producer;
  logWriter : option writer;
  drainers : list drainer;
  panicked : bool
}.

(** Who moves next. *)
Inductive actor : Type :=
| NewCall (logEntry : string)          (* some goroutine calls queueMsgDirect *)
| Producer (i : nat)                   (* the i-th running call moves *)
| Writer (ans : answer)                (* the writer moves, the sink does [ans] *)
| NewDrain                             (* some goroutine calls drainTheQueue *)
| Drainer (i : nat)                    (* the i-th running drain moves *)
| LogName (p : string) (ok : bool).    (* some goroutine calls SetLogName *)

Definition crash (sys : System) : System :=
  mkSystem (vars sys) (producers sys) (logWriter sys) (drainers sys) true.

Definition sys_step (a : actor) (sys : System) : option (System * event) :=
  if panicked sys then None
  else
    match a with
    | NewCall logEntry =>
        match producer_call logEntry (vars sys) with
        | None => None
        | Some (s', Goto p, ev) =>
            Some (mkSystem s' (producers sys ++ [p]) (logWriter sys)
                    (drainers sys) false, ev)
        | Some (s', Finish _, ev) =>
            Some (mkSystem s' (producers sys) (logWriter sys) (drainers sys)
                    false, ev)
        end
    | Producer i =>
        match producers sys !! i with
        | None => None
        | Some p =>
            match producer_step p (vars sys) with
            | (s', Goto p', ev) =>
                Some (mkSystem s' (<[i:=p']> (producers sys)) (logWriter sys)
                        (drainers sys) false, ev)
            | (s', Finish (Ret _), ev) =>
                Some (mkSystem s' (delete i (producers sys)) (logWriter sys)
                        (drainers sys) false, ev)
            | (s', Finish (GoPanic _), ev) => Some (crash sys, ev)
            end
        end
    | Writer ans =>
        match logWriter sys with
        | None => None
        | Some w =>
            match writer_step ans w (vars sys) with
            | None => None
            | Some (s', Goto w', ev) =>
                Some (mkSystem s' (producers sys) (Some w') (drainers sys)
                        false, ev)
            | Some (s', Finish (Ret _), ev) =>
                Some (mkSystem s' (producers sys) None (drainers sys) false, ev)
            | Some (s', Finish (GoPanic _), ev) => Some (crash sys, ev)
            end
        end
    | NewDrain =>
        Some (mkSystem (vars sys) (producers sys) (logWriter sys)
                (drainers sys ++ [DLock]) false, EvDrainCall)
    | Drainer i =>
        match drainers sys !! i with
        | None => None
        | Some d =>
            match drainer_step d (vars sys) with
            | None => None
            | Some (s', Goto d', ev) =>
                Some (mkSystem s' (producers sys) (logWriter sys)
                        (<[i:=d']> (drainers sys)) false, ev)
            | Some (s', Finish (Ret _), ev) =>
                Some (mkSystem s' (producers sys) (logWriter sys)
                        (delete i (drainers sys)) false, ev)
            | Some (s', Finish (GoPanic _), ev) => Some (crash sys, ev)
            end
        end
    | LogName p ok =>
        Some (mkSystem (fst (SetLogName p ok (vars sys))) (producers sys)
                (logWriter sys) (drainers sys) false, EvTau)
    end.

(** A schedule run from a system: the system reached and what was seen,
    or [None] when some actor of the schedule could not move. *)
Fixpoint run (sched : list actor) (sys : System) : option (System * list event) :=
  match sched with
  | [] => Some (sys, [])
  | a :: rest =>
      match sys_step a sys with
      | None => None
      | Some (sys', ev) =>
          match run rest sys' with
          | None => None
          | Some (sys'', evs) => Some (sys'', ev :: evs)
          end
      end
  end.

(** The process after init and the set-up of the sink, over [n] messages. *)
Definition boot_with (n : nat) (sock : option Conn) : System :=
  {| vars := fst (SetCustomSocket sock (init_with n));
     producers := [];
     logWriter := Some WRange;
     drainers := [];
     panicked := false |}.

Definition boot (sock : option Conn) : System := boot_with NumMessages sock.

(** The states that the process goes through from [sys0], each with what
    was seen on the way. *)
Inductive reach_from (sys0 : System) : list event -> System -> Prop :=
| reach_boot : reach_from sys0 [] sys0
| reach_step tr sys a sys' ev :
    reach_from sys0 tr sys ->
    sys_step a sys = Some (sys', ev) ->
    reach_from sys0 (tr ++ [ev]) sys'.

(** The pending entries as the writer is going to see them: the message it
    holds and has not written, then the queue from its head. *)
Definition entry (s : State) (msg : nat) : nat * logMessage := (msg, deref msg s).

Definition writer_unwritten (w : option writer) : list nat :=
  match w with
  | Some (WWrite msg) => [msg]
  | _ => []
  end.

Definition pending (sys : System) : list (nat * logMessage) :=
  map (entry (vars sys))
      (writer_unwritten (logWriter sys) ++ ch_items (messages (vars sys))).

(** What a trace says was enqueued, and what it says was handed to the sink. *)
Definition enqueued_of (ev : event) : list (nat * logMessage) :=
  match ev with
  | EvEnqueue msg _ m => [(msg, m)]
  | _ => []
  end.

Definition written_of (ev : event) : list (nat * logMessage) :=
  match ev with
  | EvSink msg m _ => [(msg, m)]
  | _ => []
  end.

Definition enqueued (tr : list event) : list (nat * logMessage) :=
  flat_map enqueued_of tr.

Definition written (tr : list event) : list (nat * logMessage) :=
  flat_map written_of tr.

(** The messages that a goroutine holds outside of both channels. *)
Definition producer_holds (p : producer) : list nat :=
  match p with
  | PAcquire _ => []
  | PRender msg _ | PEnqueue msg _ | PRelease msg _ => [msg]
  end.

Definition writer_holds (w : option writer) : list nat :=
  match w with
  | Some (WWrite msg) | Some (WRecycle msg) | Some (WFree msg) => [msg]
  | _ => []
  end.

Definition in_flight (sys : System) : list nat :=
  flat_map producer_holds (producers sys) ++ writer_holds (logWriter sys).

(** Every message of the pipeline, place by place. *)
Definition all_messages (sys : System) : list nat :=
  ch_items (freeMessages (vars sys)) ++ ch_items (messages (vars sys))
  ++ in_flight sys.

(** A producer step that finds the pool empty: the only place of the file
    that names [dropCount]. *)
Definition acquires_from_empty_pool (a : actor) (sys : System) : bool :=
  match a with
  | Producer i =>
      match producers sys !! i with
      | Some (PAcquire _) =>
          match ch_items (freeMessages (vars sys)) with
          | [] => true
          | _ :: _ => false
          end
      | _ => false
      end
  | _ => false
  end.

(** A connection just dialled. *)
Definition fresh_conn : Conn := {| sent := []; conn_closed := false |}.

(** ** The steps, one by one

    The same steps as [sys_step], each with the guard under which it is
    taken and with the running calls written [l1 ++ p :: l2] around the one
    that moves. *)

Definition chan_push (x : nat) (c : chan) : chan :=
  {| ch_cap := ch_cap c; ch_items := ch_items c ++ [x] |}.

Definition chan_rest (r : list nat) (c : chan) : chan :=
  {| ch_cap := ch_cap c; ch_items := r |}.

Inductive step : System -> event -> System -> Prop :=
| step_call e s ps w ds :
    mux_locked s = false -> shuttingDown s = false ->
    step (mkSystem s ps w ds false) (EvCall e)
         (mkSystem (bump_logCount (set_mux_readers (S (mux_readers s)) s))
                   (ps ++ [PAcquire e]) w ds false)
| step_call_unavailable e s ps w ds :
    mux_locked s = false -> shuttingDown s = true ->
    step (mkSystem s ps w ds false) (EvReturn e (Some ErrUnavailable))
         (mkSystem s ps w ds false)
| step_drop e s l1 l2 w ds :
    ch_items (freeMessages s) = [] ->
    step (mkSystem s (l1 ++ PAcquire e :: l2) w ds false) (EvReturn e None)
         (mkSystem (RUnlock (bump_dropCount s)) (l1 ++ l2) w ds false)
| step_acquire e msg rest s l1 l2 w ds :
    ch_items (freeMessages s) = msg :: rest ->
    step (mkSystem s (l1 ++ PAcquire e :: l2) w ds false) EvTau
         (mkSystem (set_freeMessages (chan_rest rest (freeMessages s)) s)
                   (l1 ++ PRender msg e :: l2) w ds false)
| step_render e msg s l1 l2 w ds :
    step (mkSystem s (l1 ++ PRender msg e :: l2) w ds false) EvTau
         (mkSystem (render msg e s) (l1 ++ PEnqueue msg e :: l2) w ds false)
| step_enqueue e msg s l1 l2 w ds :
    messages_closed s = false ->
    (length (ch_items (messages s)) < ch_cap (messages s))%nat ->
    step (mkSystem s (l1 ++ PEnqueue msg e :: l2) w ds false)
         (EvEnqueue msg e (deref msg s))
         (mkSystem (RUnlock (set_messages (chan_push msg (messages s)) s))
                   (l1 ++ l2) w ds false)
| step_enqueue_full e msg s l1 l2 w ds :
    messages_closed s = false ->
    (ch_cap (messages s) <= length (ch_items (messages s)))%nat ->
    step (mkSystem s (l1 ++ PEnqueue msg e :: l2) w ds false) EvTau
         (mkSystem (bump_errCount s) (l1 ++ PRelease msg e :: l2) w ds false)
| step_enqueue_panic e msg s l1 l2 w ds :
    messages_closed s = true ->
    step (mkSystem s (l1 ++ PEnqueue msg e :: l2) w ds false)
         (EvPanic "send on closed channel")
         (mkSystem s (l1 ++ PEnqueue msg e :: l2) w ds true)
| step_release e msg s l1 l2 w ds :
    step (mkSystem s (l1 ++ PRelease msg e :: l2) w ds false)
         (EvReturn e (Some ErrLogFullBuf))
         (mkSystem (RUnlock (fst (freeMsg msg s))) (l1 ++ l2) w ds false)
| step_receive msg rest s ps ds :
    ch_items (messages s) = msg :: rest ->
    step (mkSystem s ps (Some WRange) ds false) EvTau
         (mkSystem (set_messages (chan_rest rest (messages s)) s) ps
                   (Some (WWrite msg)) ds false)
| step_range_end s ps ds :
    ch_items (messages s) = [] -> messages_closed s = true ->
    step (mkSystem s ps (Some WRange) ds false) EvTau
         (mkSystem s ps (Some WClose) ds false)
| step_write ok msg s ps ds :
    step (mkSystem s ps (Some (WWrite msg)) ds false)
         (EvSink msg (deref msg s) ok)
         (mkSystem (sink_write ok msg s) ps (Some (WRecycle msg)) ds false)
| step_recycle msg s ps ds :
    step (mkSystem s ps (Some (WRecycle msg)) ds false) EvTau
         (mkSystem (recycle msg s) ps (Some (WFree msg)) ds false)
| step_free msg s ps ds :
    step (mkSystem s ps (Some (WFree msg)) ds false) EvTau
         (mkSystem (fst (freeMsg msg s)) ps (Some WRange) ds false)
| step_close_socket s ps ds :
    step (mkSystem s ps (Some WClose) ds false) EvTau
         (mkSystem (logWriter_exit s) ps (Some WDone) ds false)
| step_done s ps ds :
    0 <= wg s - 1 ->
    step (mkSystem s ps (Some WDone) ds false) EvTau
         (mkSystem (set_wg (wg s - 1) s) ps None ds false)
| step_done_panic s ps ds :
    wg s - 1 < 0 ->
    step (mkSystem s ps (Some WDone) ds false)
         (EvPanic "sync: negative WaitGroup counter")
         (mkSystem s ps (Some WDone) ds true)
| step_drain_call s ps w ds :
    step (mkSystem s ps w ds false) EvDrainCall
         (mkSystem s ps w (ds ++ [DLock]) false)
| step_lock s ps w d1 d2 :
    mux_locked s = false -> mux_readers s = 0%nat ->
    step (mkSystem s ps w (d1 ++ DLock :: d2) false) EvTau
         (mkSystem (set_mux_locked true s) ps w (d1 ++ DSetFlag :: d2) false)
| step_set_flag s ps w d1 d2 :
    step (mkSystem s ps w (d1 ++ DSetFlag :: d2) false) EvTau
         (mkSystem (set_shuttingDown true s) ps w (d1 ++ DClose :: d2) false)
| step_close s ps w d1 d2 :
    messages_closed s = false ->
    step (mkSystem s ps w (d1 ++ DClose :: d2) false) EvTau
         (mkSystem (set_messages_closed true s) ps w (d1 ++ DUnlock :: d2) false)
| step_close_panic s ps w d1 d2 :
    messages_closed s = true ->
    step (mkSystem s ps w (d1 ++ DClose :: d2) false)
         (EvPanic "close of closed channel")
         (mkSystem s ps w (d1 ++ DClose :: d2) true)
| step_unlock s ps w d1 d2 :
    step (mkSystem s ps w (d1 ++ DUnlock :: d2) false) EvTau
         (mkSystem (set_mux_locked false s) ps w (d1 ++ DWait :: d2) false)
| step_wait_return s ps w d1 d2 :
    wg s = 0 ->
    step (mkSystem s ps w (d1 ++ DWait :: d2) false) EvDrainReturn
         (mkSystem s ps w (d1 ++ d2) false)
| step_log_name p ok s ps w ds :
    step (mkSystem s ps w ds false) EvTau
         (mkSystem (fst (SetLogName p ok s)) ps w ds false).

(** ** What holds in every state of the process *)

Definition holds_write_lock (d : drainer) : bool :=
  match d with
  | DSetFlag | DClose | DUnlock => true
  | DLock | DWait => false
  end.

Definition past_set_flag (d : drainer) : bool :=
  match d with
  | DClose | DUnlock | DWait => true
  | DLock | DSetFlag => false
  end.

Definition past_close (d : drainer) : bool :=
  match d with
  | DUnlock | DWait => true
  | DLock | DSetFlag | DClose => false
  end.

Definition writer_past_loop (w : option writer) : bool :=
  match w with
  | Some WClose | Some WDone | None => true
  | _ => false
  end.

Definition writer_past_close (w : option writer) : bool :=
  match w with
  | Some WDone | None => true
  | _ => false
  end.

(** The mutex, the flag, the closing of the queue and the WaitGroup. *)
Record Inv_control (sys : System) : Prop := {
  ic_readers : mux_readers (vars sys) = length (producers sys);
  ic_lock :
    length (List.filter holds_write_lock (drainers sys)) =
    if mux_locked (vars sys) then 1%nat else 0%nat;
  ic_locked : mux_locked (vars sys) = true -> producers sys = [];
  ic_flag : shuttingDown (vars sys) = true -> producers sys = [];
  ic_drainer_flag :
    forall d, In d (drainers sys) -> past_set_flag d = true ->
              shuttingDown (vars sys) = true;
  ic_drainer_closed :
    forall d, In d (drainers sys) -> past_close d = true ->
              messages_closed (vars sys) = true;
  ic_closed : messages_closed (vars sys) = true -> shuttingDown (vars sys) = true;
  ic_wg : wg (vars sys) = match logWriter sys with None => 0 | Some _ => 1 end;
  ic_past_loop :
    writer_past_loop (logWriter sys) = true ->
    messages_closed (vars sys) = true /\ ch_items (messages (vars sys)) = [];
  ic_past_close :
    writer_past_close (logWriter sys) = true ->
    forall k, customSock (vars sys) = Some k -> conn_closed k = true
}.

(** The [n] messages: each is in one place, and no call is on the branch
    of the full queue. *)
Record Inv_pool (n : nat) (sys : System) : Prop := {
  ip_perm : all_messages sys ≡ₚ seq 0 n;
  ip_cap_free : ch_cap (freeMessages (vars sys)) = n;
  ip_cap_messages : ch_cap (messages (vars sys)) = n;
  ip_length : length (msgArr (vars sys)) = n;
  ip_no_release : forall msg e, ~ In (PRelease msg e) (producers sys)
}.

(** What the buffer of a held message contains. *)
Definition producer_buffer (s : State) (p : producer) : Prop :=
  match p with
  | PRender msg _ => buf (buffer (deref msg s)) = ""
  | PEnqueue msg e =>
      buf (buffer (deref msg s)) = e +:+ NUL /\ level (deref msg s) = LOG_DEBUG
  | _ => True
  end.

Record Inv_buffer (sys : System) : Prop := {
  ib_free :
    forall msg, In msg (ch_items (freeMessages (vars sys))) ->
                buf (buffer (deref msg (vars sys))) = "";
  ib_producer : forall p, In p (producers sys) -> producer_buffer (vars sys) p;
  ib_writer :
    forall msg, logWriter sys = Some (WFree msg) ->
                buf (buffer (deref msg (vars sys))) = ""
}.

(** What was seen against where the process stands. *)
Record Inv_trace (tr : list event) (sys : System) : Prop := {
  it_fifo : enqueued tr = written tr ++ pending sys;
  it_content :
    forall msg e m, In (EvEnqueue msg e m) tr ->
                    buf (buffer m) = e +:+ NUL /\ level m = LOG_DEBUG;
  it_returned : In EvDrainReturn tr -> logWriter sys = None;
  it_no_full : forall e, ~ In (EvReturn e (Some ErrLogFullBuf)) tr
}.

(** All of it together, for a pipeline of [n] messages. *)
Record Inv (n : nat) (tr : list event) (sys : System) : Prop := {
  inv_control : Inv_control sys;
  inv_pool : Inv_pool n sys;
  inv_buffer : Inv_buffer sys;
  inv_trace : Inv_trace tr sys
}.

(** The number of steps that the writer has before it returns, once the
    queue is closed. *)
Definition writer_steps_left (sys : System) : nat :=
  let q := length (ch_items (messages (vars sys))) in
  match logWriter sys with
  | None => 0
  | Some WDone => 1
  | Some WClose => 2
  | Some WRange => 4 * q + 3
  | Some (WFree _) => 4 * q + 4
  | Some (WRecycle _) => 4 * q + 5
  | Some (WWrite _) => 4 * q + 6
  end.

(** ** Schedules and states to run the model on *)

(** Two calls that queue their message, then a drain: the lock, the flag,
    the close, the unlock; the writer writes both messages (the second write
    fails), leaves its loop, closes the socket and returns; the drain
    returns. *)
Definition two_calls_then_drain : list actor :=
  [NewCall "a"; Producer 0; Producer 0; Producer 0;
   NewCall "b"; Producer 0; Producer 0; Producer 0;
   NewDrain; Drainer 0; Drainer 0; Drainer 0; Drainer 0;
   Writer (Returns true); Writer (Returns true); Writer (Returns true);
   Writer (Returns true); Writer (Returns true); Writer (Returns false);
   Writer (Returns true); Writer (Returns true); Writer (Returns true);
   Writer (Returns true); Writer (Returns true);
   Drainer 0].

(** A call that queues its message, then a drain up to its unlock. *)
Definition call_then_shutdown : list actor :=
  [NewCall "a"; Producer 0; Producer 0; Producer 0;
   NewDrain; Drainer 0; Drainer 0; Drainer 0; Drainer 0].

(** A call up to its select on [messages], a second one up to its
    rendering, a third one that finds the pool of two empty. *)
Definition three_calls : list actor :=
  [NewCall "a"; Producer 0; Producer 0;
   NewCall "b"; Producer 1;
   NewCall "c"; Producer 2].

(** A drain on an idle pipeline, from the call to the return. *)
Definition drain_alone : list actor :=
  [NewDrain; Drainer 0; Drainer 0; Drainer 0; Drainer 0;
   Writer (Returns true); Writer (Returns true); Writer (Returns true);
   Drainer 0].

(** One more drain, up to its [close(messages)]. *)
Definition drain_again : list actor :=
  [NewDrain; Drainer 0; Drainer 0; Drainer 0].

(** A store of one message, written and not yet recycled, with a buffer of
    capacity [c]. *)
Definition state_with_capacity (c : Z) : State :=
  mkState [ {| buffer := {| buf := "abc" +:+ NUL; bcap := c |}; level := LOG_DEBUG |} ]
    (make_chan 1) false (make_chan 1) None 0%nat false false 1 1 0 0 [] None.

(** Two messages, one free and one pending in a queue of capacity one. *)
Definition state_queue_full : State :=
  mkState [logMessage_zero; logMessage_zero]
    {| ch_cap := 1; ch_items := [1%nat] |} false
    {| ch_cap := 2; ch_items := [0%nat] |} None 0%nat false false 1 1 0 0 [] None.

(** ** What a trace counts, and what it says went to the sinks *)

Definition is_call (ev : event) : bool :=
  match ev with EvCall _ => true | _ => false end.

(** A call that returns nil without having queued: it found the pool
    empty. *)
Definition is_drop (ev : event) : bool :=
  match ev with EvReturn _ None => true | _ => false end.

Definition is_drain_call (ev : event) : bool :=
  match ev with EvDrainCall => true | _ => false end.

Definition is_drain_return (ev : event) : bool :=
  match ev with EvDrainReturn => true | _ => false end.

Definition count (f : event -> bool) (tr : list event) : nat :=
  length (List.filter f tr).

(** The messages handed to the sink, with the content they had then; and
    those among them whose write returned no error. *)
Definition sunk_of (ev : event) : list logMessage :=
  match ev with EvSink _ m _ => [m] | _ => [] end.

Definition sent_of (ev : event) : list logMessage :=
  match ev with EvSink _ m true => [m] | _ => [] end.

Definition sunk (tr : list event) : list logMessage := flat_map sunk_of tr.

Definition sent_ok (tr : list event) : list logMessage := flat_map sent_of tr.

(** The arguments that [write] gives to csyslog for a message. *)
Definition syslog_call (m : logMessage) : Z * string :=
  (Z.lor LOG_USER (level m), cstring (Buffer_Bytes (buffer m))).

(** No byte of [p] is NUL. *)
Fixpoint NUL_free (p : string) : bool :=
  match p with
  | EmptyString => true
  | String c r => negb (Ascii.eqb c Ascii.zero) && NUL_free r
  end.

(** The steps that add to [errCount] in a running pipeline: a sink write
    that fails and a SetLogName that fails. *)
Definition counts_an_error (a : actor) (sys : System) : bool :=
  match a with
  | Writer (Returns false) =>
      match logWriter sys with
      | Some (WWrite _) => true
      | _ => false
      end
  | LogName _ false => true
  | _ => false
  end.

(** The counters against the trace. *)
Record Inv_counters (tr : list event) (sys : System) : Prop := {
  cn_log : logCount (vars sys) = Z.of_nat (count is_call tr) mod 2 ^ 64;
  cn_drop : dropCount (vars sys) = Z.of_nat (count is_drop tr) mod 2 ^ 64;
  cn_calls :
    count is_call tr =
    (length (enqueued tr) + count is_drop tr + length (producers sys))%nat;
  cn_errors :
    forall e err, In (EvReturn e (Some err)) tr ->
                  err = ErrUnavailable /\ shuttingDown (vars sys) = true
}.

(** The sinks against the trace, for a process booted with [sock]. *)
Definition Inv_sinks (sock : option Conn) (tr : list event) (sys : System) : Prop :=
  match sock with
  | Some k0 =>
      (exists k, customSock (vars sys) = Some k /\
                 sent k = sent k0 ++ map socket_frame (sent_ok tr)) /\
      syslog (vars sys) = []
  | None =>
      customSock (vars sys) = None /\
      syslog (vars sys) = map syslog_call (sunk tr)
  end.

(** The drains against the trace. *)
Record Inv_drains (tr : list event) (sys : System) : Prop := {
  dr_calls :
    count is_drain_call tr =
    (length (drainers sys) + count is_drain_return tr)%nat;
  dr_closed :
    messages_closed (vars sys) = true ->
    (exists d, In d (drainers sys) /\ past_close d = true) \/
    (0 < count is_drain_return tr)%nat;
  dr_panicked : panicked sys = true -> (2 <= count is_drain_call tr)%nat;
  dr_panics :
    forall why, In (EvPanic why) tr ->
                why = "close of closed channel" /\ panicked sys = true
}.

(** The capacity of the buffers that are in the pool or on their way to
    it. *)
Record Inv_capacity (sys : System) : Prop := {
  cp_free :
    forall msg, In msg (ch_items (freeMessages (vars sys))) ->
                Buffer_Cap (buffer (deref msg (vars sys))) <= MaxFreeMsgSize;
  cp_writer :
    forall msg, logWriter sys = Some (WFree msg) ->
                Buffer_Cap (buffer (deref msg (vars sys))) <= MaxFreeMsgSize
}.

(** The entries that calls have queued, oldest first, and the answers that
    the sink gave, oldest first. *)
Definition entry_of (ev : event) : list string :=
  match ev with EvEnqueue _ e _ => [e] | _ => [] end.

Definition result_of (ev : event) : list bool :=
  match ev with EvSink _ _ ok => [ok] | _ => [] end.

Definition enqueued_entries (tr : list event) : list string := flat_map entry_of tr.

Definition sink_results (tr : list event) : list bool := flat_map result_of tr.

(** The entries handed to the sink so far, in the order of their queueing,
    each with the answer of the sink. *)
Definition written_entries (tr : list event) : list (string * bool) :=
  zip (enqueued_entries tr) (sink_results tr).

(** The goroutines of a state, each as the actor that moves it: the calls
    of queueMsgDirect in progress, the writer until it has returned, the
    calls of drainTheQueue in progress.  The writer is taken with a sink
    that does not return: what it can do then, it can do whatever the sink
    does. *)
Definition goroutines (sys : System) : list actor :=
  map Producer (seq 0 (length (producers sys)))
  ++ match logWriter sys with Some _ => [Writer Blocks] | None => [] end
  ++ map Drainer (seq 0 (length (drainers sys))).

Definition at_Lock (d : drainer) : bool :=
  match d with DLock => true | _ => false end.


(** A message and the entry it was rendered from. *)
Definition holds_entry (x : nat * logMessage) (e : string) : Prop :=
  buf (buffer (snd x)) = e +:+ NUL /\ level (snd x) = LOG_DEBUG.

(** The turns of the writer with a sink that returns from each call, with
    the errors that [oks] tells. *)
Definition answers (oks : list bool) : list actor :=
  map (fun ok => Writer (Returns ok)) oks.

(** An actor that does not make the sink return. *)
Definition sink_silent (a : actor) : bool :=
  match a with
  | Writer (Returns _) => false
  | _ => true
  end.


(** * Properties *)

(** ** Strings *)

Lemma string_app_assoc (a b c : string) : (a +:+ b) +:+ c = a +:+ b +:+ c.
Proof.
  induction a as [|x a IH]; [done|].
  change (String x ((a +:+ b) +:+ c) = String x (a +:+ b +:+ c)).
  by rewrite IH.
Qed.

Lemma string_app_nil_l (a : string) : "" +:+ a = a.
Proof. done. Qed.

(** ** The store *)

Lemma deref_update_same msg f s :
  (msg < length (msgArr s))%nat ->
  deref msg (update_msg msg f s) = f (deref msg s).
Proof.
  intros Hlt. unfold deref, update_msg. destruct s as [arr ? ? ? ? ? ? ? ? ? ? ? ? ?]; simpl in *.
  rewrite list_lookup_alter_eq.
  destruct (lookup_lt_is_Some_2 arr msg Hlt) as [m Hm]. rewrite Hm. reflexivity.
Qed.

Lemma deref_update_other msg msg' f s :
  msg <> msg' -> deref msg' (update_msg msg f s) = deref msg' s.
Proof.
  intros Hne. unfold deref, update_msg. destruct s; simpl.
  by rewrite list_lookup_alter_ne.
Qed.

Lemma length_update_msg msg f s :
  length (msgArr (update_msg msg f s)) = length (msgArr s).
Proof. unfold update_msg. destruct s; simpl. apply length_alter. Qed.

Lemma render_length msg e s :
  length (msgArr (render msg e s)) = length (msgArr s).
Proof.
  unfold render, render_nul, render_entry, render_level.
  by rewrite !length_update_msg.
Qed.

Lemma deref_render_other msg msg' e s :
  msg <> msg' -> deref msg' (render msg e s) = deref msg' s.
Proof.
  intros Hne. unfold render, render_nul, render_entry, render_level.
  by rewrite !deref_update_other.
Qed.

Lemma deref_render_same msg e s :
  (msg < length (msgArr s))%nat ->
  deref msg (render msg e s) =
  {| buffer := Buffer_WriteByte0 (Buffer_Write e (buffer (deref msg s)));
     level := LOG_DEBUG |}.
Proof.
  intros Hlt. unfold render, render_nul, render_entry, render_level.
  rewrite !deref_update_same; rewrite ?length_update_msg; done.
Qed.

Lemma buf_after_render msg e s :
  (msg < length (msgArr s))%nat ->
  buf (buffer (deref msg (render msg e s))) =
  buf (buffer (deref msg s)) +:+ e +:+ NUL.
Proof.
  intros Hlt. rewrite deref_render_same by done. simpl.
  apply string_app_assoc.
Qed.

Lemma deref_ext msg s s' : msgArr s = msgArr s' -> deref msg s = deref msg s'.
Proof. unfold deref. by intros ->. Qed.

(** ** The functions leave alone what they do not name *)

Lemma freeMsg_msgArr msg s : msgArr (fst (freeMsg msg s)) = msgArr s.
Proof. unfold freeMsg. by destruct (chan_send msg (freeMessages s)). Qed.

Lemma freeMsg_room msg s :
  (length (ch_items (freeMessages s)) < ch_cap (freeMessages s))%nat ->
  freeMsg msg s =
  (set_freeMessages {| ch_cap := ch_cap (freeMessages s);
                       ch_items := ch_items (freeMessages s) ++ [msg] |} s, None).
Proof.
  intros Hlt. unfold freeMsg, chan_send.
  apply Nat.ltb_lt in Hlt. by rewrite Hlt.
Qed.

Lemma freeMsg_full msg s :
  (ch_cap (freeMessages s) <= length (ch_items (freeMessages s)))%nat ->
  freeMsg msg s = (bump_errCount s, Some ErrFreeMessageOverflow).
Proof.
  intros Hle. unfold freeMsg, chan_send.
  apply Nat.ltb_ge in Hle. by rewrite Hle.
Qed.

Lemma sink_write_msgArr ok msg s : msgArr (sink_write ok msg s) = msgArr s.
Proof.
  unfold sink_write, write, writeCustomSocket.
  destruct (customSock s), ok; reflexivity.
Qed.

Lemma sink_write_freeMessages ok msg s :
  freeMessages (sink_write ok msg s) = freeMessages s.
Proof.
  unfold sink_write, write, writeCustomSocket.
  destruct (customSock s), ok; reflexivity.
Qed.

Lemma recycle_freeMessages msg s : freeMessages (recycle msg s) = freeMessages s.
Proof. unfold recycle. by destruct (_ >? _). Qed.

Lemma recycle_length msg s : length (msgArr (recycle msg s)) = length (msgArr s).
Proof. unfold recycle. destruct (_ >? _); apply length_update_msg. Qed.

Lemma deref_recycle_other msg msg' s :
  msg <> msg' -> deref msg' (recycle msg s) = deref msg' s.
Proof.
  intros Hne. unfold recycle. destruct (_ >? _); by apply deref_update_other.
Qed.

Lemma deref_recycle_small msg s :
  (msg < length (msgArr s))%nat ->
  Buffer_Cap (buffer (deref msg s)) <= MaxFreeMsgSize ->
  deref msg (recycle msg s) =
  {| buffer := Buffer_Reset (buffer (deref msg s)); level := level (deref msg s) |}.
Proof.
  intros Hlt Hcap. unfold recycle.
  destruct (Z.gtb_spec (Buffer_Cap (buffer (deref msg s))) MaxFreeMsgSize); [lia|].
  by apply deref_update_same.
Qed.

Lemma deref_recycle_large msg s :
  (msg < length (msgArr s))%nat ->
  Buffer_Cap (buffer (deref msg s)) > MaxFreeMsgSize ->
  deref msg (recycle msg s) = logMessage_zero.
Proof.
  intros Hlt Hcap. unfold recycle.
  destruct (Z.gtb_spec (Buffer_Cap (buffer (deref msg s))) MaxFreeMsgSize); [|lia].
  by rewrite deref_update_same.
Qed.

Lemma buf_recycle msg s :
  (msg < length (msgArr s))%nat -> buf (buffer (deref msg (recycle msg s))) = "".
Proof.
  intros Hlt.
  destruct (Z.le_gt_cases (Buffer_Cap (buffer (deref msg s))) MaxFreeMsgSize).
  - by rewrite deref_recycle_small.
  - rewrite deref_recycle_large; [done|done|lia].
Qed.

(** ** The writer recycles by capacity *)

(** C9.  One turn of the writer on a message of the store: with a buffer of
    capacity at most [MaxFreeMsgSize] (8192) the message comes back to the
    pool with the same capacity, no content and its level, and a later
    [Write] that fits this capacity leaves it as it is; with a larger
    capacity the message is overwritten with [logMessage{}], whose buffer has
    capacity zero.  In both cases the message is released after that, at the
    tail of the free channel. *)
Theorem logWriter_recycles_by_capacity (ok : bool) (msg : nat) (s : State) :
  (msg < length (msgArr s))%nat ->
  let old := deref msg s in
  let s' := logWriter_turn ok msg s in
  MaxFreeMsgSize = 8192 /\
  (Buffer_Cap (buffer old) <= MaxFreeMsgSize ->
     deref msg s' =
       {| buffer := {| buf := ""; bcap := Buffer_Cap (buffer old) |};
          level := level old |} /\
     forall p, len p <= Buffer_Cap (buffer old) ->
       Buffer_Cap (Buffer_Write p (buffer (deref msg s'))) = Buffer_Cap (buffer old)) /\
  (Buffer_Cap (buffer old) > MaxFreeMsgSize ->
     deref msg s' = logMessage_zero /\
     Buffer_Cap (buffer (deref msg s')) = 0) /\
  ((length (ch_items (freeMessages s)) < ch_cap (freeMessages s))%nat ->
     ch_items (freeMessages s') = ch_items (freeMessages s) ++ [msg]).
Proof.
  intros Hlt old s'.
  assert (Hd : deref msg s' = deref msg (recycle msg (sink_write ok msg s))).
  { apply deref_ext. unfold s', logWriter_turn. apply freeMsg_msgArr. }
  assert (Hold : deref msg (sink_write ok msg s) = old).
  { apply deref_ext, sink_write_msgArr. }
  assert (Hlt' : (msg < length (msgArr (sink_write ok msg s)))%nat).
  { by rewrite sink_write_msgArr. }
  split; [reflexivity|]. split; [|split].
  - intros Hcap. rewrite Hd.
    rewrite deref_recycle_small by (rewrite ?Hold; done).
    rewrite Hold. split; [done|].
    intros p Hp. unfold Buffer_Write, Buffer_Cap, Buffer_Reset; simpl.
    unfold Buffer_Cap in Hp.
    destruct (Z.leb_spec (len "" + len p) (bcap (buffer old))) as [|Hgt]; [done|].
    unfold len in Hgt at 1. simpl in Hgt. lia.
  - intros Hcap. rewrite Hd.
    rewrite deref_recycle_large by (rewrite ?Hold; done). done.
  - intros Hroom. unfold s', logWriter_turn.
    rewrite freeMsg_room.
    + simpl. by rewrite recycle_freeMessages, sink_write_freeMessages.
    + by rewrite recycle_freeMessages, sink_write_freeMessages.
Qed.

(** ** queueMsgDirect, case by case *)

Lemma queueMsgDirect_unavailable e s :
  shuttingDown s = true -> queueMsgDirect e s = (s, Ret (Some ErrUnavailable)).
Proof. intros H. unfold queueMsgDirect. by rewrite H. Qed.

Lemma queueMsgDirect_drop e s :
  shuttingDown s = false ->
  ch_items (freeMessages s) = [] ->
  queueMsgDirect e s = (bump_dropCount (bump_logCount s), Ret None).
Proof.
  intros H Hf. unfold queueMsgDirect, chan_recv. rewrite H. simpl.
  by rewrite Hf.
Qed.

Lemma queueMsgDirect_acquired e s msg rest :
  shuttingDown s = false ->
  ch_items (freeMessages s) = msg :: rest ->
  queueMsgDirect e s =
  enqueue msg
    (render msg e
       (set_freeMessages {| ch_cap := ch_cap (freeMessages s); ch_items := rest |}
          (bump_logCount s))).
Proof.
  intros H Hf. unfold queueMsgDirect, chan_recv. rewrite H. simpl.
  by rewrite Hf.
Qed.

Lemma render_fields msg e s :
  messages (render msg e s) = messages s /\
  messages_closed (render msg e s) = messages_closed s /\
  freeMessages (render msg e s) = freeMessages s /\
  customSock (render msg e s) = customSock s /\
  mux_readers (render msg e s) = mux_readers s /\
  mux_locked (render msg e s) = mux_locked s /\
  shuttingDown (render msg e s) = shuttingDown s /\
  wg (render msg e s) = wg s /\
  logCount (render msg e s) = logCount s /\
  dropCount (render msg e s) = dropCount s /\
  errCount (render msg e s) = errCount s.
Proof. by destruct s. Qed.

Lemma enqueue_closed msg s :
  messages_closed s = true ->
  enqueue msg s = (s, GoPanic "send on closed channel").
Proof. intros H. unfold enqueue. by rewrite H. Qed.

Lemma enqueue_room msg s :
  messages_closed s = false ->
  (length (ch_items (messages s)) < ch_cap (messages s))%nat ->
  enqueue msg s =
  (set_messages {| ch_cap := ch_cap (messages s);
                   ch_items := ch_items (messages s) ++ [msg] |} s, Ret None).
Proof.
  intros H Hlt. unfold enqueue, chan_send. rewrite H.
  apply Nat.ltb_lt in Hlt. by rewrite Hlt.
Qed.

Lemma enqueue_full msg s :
  messages_closed s = false ->
  (ch_cap (messages s) <= length (ch_items (messages s)))%nat ->
  enqueue msg s = (fst (freeMsg msg (bump_errCount s)), Ret (Some ErrLogFullBuf)).
Proof.
  intros H Hle. unfold enqueue, chan_send. rewrite H.
  apply Nat.ltb_ge in Hle. by rewrite Hle.
Qed.

(** The level and the bytes of the acquired message after the call,
    whatever the call returns. *)
Lemma queueMsgDirect_renders e s msg rest :
  shuttingDown s = false ->
  ch_items (freeMessages s) = msg :: rest ->
  (msg < length (msgArr s))%nat ->
  let s' := fst (queueMsgDirect e s) in
  level (deref msg s') = LOG_DEBUG /\
  buf (buffer (deref msg s')) = buf (buffer (deref msg s)) +:+ e +:+ NUL.
Proof.
  intros H Hf Hlt s'.
  set (s1 := render msg e
       (set_freeMessages {| ch_cap := ch_cap (freeMessages s); ch_items := rest |}
          (bump_logCount s))).
  assert (Hs' : deref msg s' = deref msg s1).
  { unfold s'. rewrite (queueMsgDirect_acquired e s msg rest H Hf). fold s1.
    apply deref_ext. unfold enqueue.
    destruct (messages_closed s1); [done|].
    destruct (chan_send msg (messages s1)); [done|].
    simpl. by rewrite freeMsg_msgArr. }
  rewrite Hs'. unfold s1. split.
  - by rewrite deref_render_same.
  - by rewrite buf_after_render.
Qed.

(** ** An error after the acquisition gives the message back *)

(** C10.  When queueMsgDirect, having passed the test of the flag, returns
    an error, it had taken the oldest free message, the error is
    [ErrLogFullBuf], the message is back in the free channel (at its tail)
    when the call returns, and the pending queue is as it was: the free
    channel holds the same messages as before the call. *)
Theorem queueMsgDirect_error_releases (e : string) (s s' : State) (err : error) :
  (length (ch_items (freeMessages s)) <= ch_cap (freeMessages s))%nat ->
  shuttingDown s = false ->
  queueMsgDirect e s = (s', Ret (Some err)) ->
  exists msg rest,
    ch_items (freeMessages s) = msg :: rest /\
    err = ErrLogFullBuf /\
    ch_items (freeMessages s') = rest ++ [msg] /\
    ch_items (freeMessages s') ≡ₚ ch_items (freeMessages s) /\
    ch_items (messages s') = ch_items (messages s).
Proof.
  intros Hwf Hsd Hcall.
  destruct (ch_items (freeMessages s)) as [|msg rest] eqn:Hf.
  { rewrite queueMsgDirect_drop in Hcall by done. congruence. }
  exists msg, rest. split; [done|].
  rewrite (queueMsgDirect_acquired e s msg rest Hsd Hf) in Hcall.
  set (s1 := render msg e _) in Hcall.
  destruct (render_fields msg e
    (set_freeMessages {| ch_cap := ch_cap (freeMessages s); ch_items := rest |}
       (bump_logCount s))) as (Hm & Hc & Hfr & _).
  fold s1 in Hm, Hc, Hfr. clearbody s1. simpl in Hfr, Hm.
  destruct (messages_closed s1) eqn:Hcl.
  { rewrite enqueue_closed in Hcall by done. congruence. }
  destruct (Nat.lt_ge_cases (length (ch_items (messages s1))) (ch_cap (messages s1)))
    as [Hroom|Hfull].
  { rewrite enqueue_room in Hcall by done. congruence. }
  rewrite enqueue_full in Hcall by done.
  injection Hcall as <- <-.
  assert (Hroom : (length (ch_items (freeMessages (bump_errCount s1))) <
                   ch_cap (freeMessages (bump_errCount s1)))%nat).
  { change (freeMessages (bump_errCount s1)) with (freeMessages s1).
    rewrite Hfr. simpl in *. lia. }
  rewrite (freeMsg_room msg _ Hroom). cbn [fst].
  change (freeMessages (set_freeMessages ?c ?x)) with c.
  change (messages (set_freeMessages ?c ?x)) with (messages x).
  change (freeMessages (bump_errCount s1)) with (freeMessages s1).
  change (messages (bump_errCount s1)) with (messages s1).
  rewrite Hfr, Hm. cbn [ch_items].
  repeat split; try done.
  symmetry. apply Permutation_cons_append.
Qed.

(** ** init *)

Lemma init_release_room ids s :
  (length (ch_items (freeMessages s)) + length ids <= ch_cap (freeMessages s))%nat ->
  init_release ids s =
  set_freeMessages {| ch_cap := ch_cap (freeMessages s);
                      ch_items := ch_items (freeMessages s) ++ ids |} s.
Proof.
  revert s. induction ids as [|i ids IH]; intros s Hle.
  - simpl. rewrite app_nil_r. by destruct s as [? ? ? [] ? ? ? ? ? ? ? ? ? ?].
  - simpl in *. rewrite freeMsg_room by lia.
    rewrite IH by (simpl; rewrite length_app; simpl; lia).
    simpl. by rewrite <- app_assoc.
Qed.

Lemma init_with_eq n :
  init_with n =
  mkState (replicate n logMessage_zero) (make_chan n) false
    {| ch_cap := n; ch_items := seq 0 n |} None 0%nat false false 1 0 0 0 [] None.
Proof.
  unfold init_with. rewrite init_release_room.
  - reflexivity.
  - simpl. rewrite length_seq. lia.
Qed.

(** ** The level of a queued message *)

Lemma queueMsgDirect_ok e s msg rest :
  shuttingDown s = false ->
  messages_closed s = false ->
  ch_items (freeMessages s) = msg :: rest ->
  (length (ch_items (messages s)) < ch_cap (messages s))%nat ->
  queueMsgDirect e s =
  (set_messages {| ch_cap := ch_cap (messages s);
                   ch_items := ch_items (messages s) ++ [msg] |}
     (render msg e
        (set_freeMessages {| ch_cap := ch_cap (freeMessages s); ch_items := rest |}
           (bump_logCount s))), Ret None).
Proof.
  intros Hsd Hcl Hf Hroom.
  rewrite (queueMsgDirect_acquired e s msg rest Hsd Hf).
  rewrite enqueue_room; [done| |]; by destruct s.
Qed.

Lemma queueMsg_level_debug (lvl : Level) (prefix body : string) (s : State) msg rest :
  shuttingDown s = false ->
  ch_items (freeMessages s) = msg :: rest ->
  (msg < length (msgArr s))%nat ->
  let m := deref msg (fst (queueMsg lvl prefix body s)) in
  level m = levelSysLog Levels.Debug /\
  Sprintf_prio (Z.lor LOG_USER (level m)) = "<15>" /\
  (lvl <> Levels.Debug -> lvl <> Levels.Off -> level m <> levelSysLog lvl).
Proof.
  intros Hsd Hf Hlt m.
  destruct (queueMsgDirect_renders (Sprintf_s_s_s (levelMapFmt lvl) prefix body)
              s msg rest Hsd Hf Hlt) as [Hl _].
  unfold m, queueMsg. rewrite Hl. split; [done|]. split; [done|].
  intros H1 H2. by destruct lvl.
Qed.

(** ** The bytes of a queued message *)

Lemma levelMapFmt_shape (lvl : Level) :
  exists name, levelMapFmt lvl = "[" +:+ name +:+ "] ".
Proof.
  destruct lvl;
    [ by exists "Access" | by exists "Off" | by exists "Panic" | by exists "Error"
    | by exists "Warn" | by exists "Info" | by exists "Debug" ].
Qed.

(** C2, as the code has it.  When queueMsg takes a free message whose
    buffer is empty and the queue has room, the call returns nil, the message
    joins the pending queue at its tail, and its bytes are the entry of the
    tag table for the level (the bracketed name and a blank), a blank, the
    prefix, a blank, the body and one NUL: two blanks stand between the
    closing bracket and the prefix.  For Error, "svc1" and "disk full" these
    are the bytes of "[Error]  svc1 disk full" and the terminator. *)
Theorem queueMsg_renders_tag_blank_prefix_blank_body
    (lvl : Level) (prefix body : string) (s : State) (msg : nat) (rest : list nat) :
  shuttingDown s = false ->
  messages_closed s = false ->
  ch_items (freeMessages s) = msg :: rest ->
  (msg < length (msgArr s))%nat ->
  buf (buffer (deref msg s)) = "" ->
  (length (ch_items (messages s)) < ch_cap (messages s))%nat ->
  let s' := fst (queueMsg lvl prefix body s) in
  snd (queueMsg lvl prefix body s) = Ret None /\
  ch_items (messages s') = ch_items (messages s) ++ [msg] /\
  buf (buffer (deref msg s')) =
    levelMapFmt lvl +:+ " " +:+ prefix +:+ " " +:+ body +:+ NUL /\
  (exists name, levelMapFmt lvl = "[" +:+ name +:+ "] ") /\
  (lvl = Levels.Error -> prefix = "svc1" -> body = "disk full" ->
   buf (buffer (deref msg s')) = "[Error]  svc1 disk full" +:+ NUL).
Proof.
  intros Hsd Hcl Hf Hlt Hempty Hroom s'.
  assert (Hbuf : buf (buffer (deref msg s')) =
                 levelMapFmt lvl +:+ " " +:+ prefix +:+ " " +:+ body +:+ NUL).
  { destruct (queueMsgDirect_renders (Sprintf_s_s_s (levelMapFmt lvl) prefix body)
                s msg rest Hsd Hf Hlt) as [_ Hb].
    unfold s', queueMsg. rewrite Hb, Hempty. unfold Sprintf_s_s_s.
    rewrite string_app_nil_l. by rewrite !string_app_assoc. }
  unfold s', queueMsg in *.
  rewrite (queueMsgDirect_ok _ s msg rest Hsd Hcl Hf Hroom) in *.
  split; [done|]. split; [by destruct s|]. split; [done|].
  split; [apply levelMapFmt_shape|].
  intros -> -> ->. by rewrite Hbuf.
Qed.

(** ** A pool with nothing left *)

Lemma queueMsgDirect_times_acquire k :
  forall e s fr1 fr2,
    shuttingDown s = false ->
    messages_closed s = false ->
    ch_items (freeMessages s) = fr1 ++ fr2 ->
    length fr1 = k ->
    (length (ch_items (messages s)) + k <= ch_cap (messages s))%nat ->
    exists s',
      queueMsgDirect_times k e s = (s', replicate k (Ret None)) /\
      ch_items (freeMessages s') = fr2 /\
      ch_items (messages s') = ch_items (messages s) ++ fr1 /\
      dropCount s' = dropCount s /\
      errCount s' = errCount s /\
      shuttingDown s' = false.
Proof.
  induction k as [|k IH]; intros e s fr1 fr2 Hsd Hcl Hf Hlen Hroom.
  - destruct fr1; [|done]. exists s. simpl in *. by rewrite app_nil_r.
  - destruct fr1 as [|msg fr1]; [done|]. simpl in Hf, Hlen.
    cbn [queueMsgDirect_times].
    rewrite (queueMsgDirect_ok e s msg (fr1 ++ fr2) Hsd Hcl Hf) by lia.
    set (s1 := set_messages _ _).
    destruct (IH e s1 fr1 fr2) as (s' & Hrun & Hfr & Hms & Hd & He & Hs).
    + by destruct s.
    + by destruct s.
    + by destruct s.
    + lia.
    + destruct s; simpl in *. rewrite length_app. simpl. lia.
    + exists s'. rewrite Hrun. split; [done|]. split; [done|].
      split. { rewrite Hms. destruct s; simpl. by rewrite <- app_assoc. }
      split. { rewrite Hd. by destruct s. }
      split. { rewrite He. by destruct s. }
      done.
Qed.

(** C5.  From the state that init leaves over [n] messages ([n] is
    [NumMessages] for the package), [n] calls of queueMsgDirect with no
    release in between all take a free message and queue it: each returns
    nil, the pending queue holds the [n] messages and the pool none.  The
    call after these finds no free message, counts one drop and returns
    nil as well: its [err] result is not set, no error reaches the caller. *)
Theorem pool_exhaustion_returns_nil (n : nat) (e : string) :
  exists s,
    queueMsgDirect_times n e (init_with n) = (s, replicate n (Ret None)) /\
    ch_items (messages s) = seq 0 n /\
    ch_items (freeMessages s) = [] /\
    dropCount s = 0 /\
    queueMsgDirect e s = (bump_dropCount (bump_logCount s), Ret None) /\
    dropCount (fst (queueMsgDirect e s)) = 1 /\
    errCount (fst (queueMsgDirect e s)) = 0.
Proof.
  rewrite init_with_eq.
  destruct (queueMsgDirect_times_acquire n e
              (mkState (replicate n logMessage_zero) (make_chan n) false
                 {| ch_cap := n; ch_items := seq 0 n |} None 0%nat false false
                 1 0 0 0 [] None) (seq 0 n) [])
    as (s & Hrun & Hfr & Hms & Hd & He & Hs).
  - done.
  - done.
  - simpl. by rewrite app_nil_r.
  - apply length_seq.
  - simpl. lia.
  - exists s. rewrite Hrun. simpl in *.
    rewrite (queueMsgDirect_drop e s Hs Hfr).
    simpl. rewrite Hd, He. done.
Qed.

(** ** The counters *)

Lemma atomic_AddUint64_1_in_range c :
  0 <= c < 2 ^ 64 - 1 -> atomic_AddUint64_1 c = c + 1.
Proof. intros H. unfold atomic_AddUint64_1. apply Z.mod_small. lia. Qed.

Lemma producer_step_dropCount p s :
  dropCount (fst (fst (producer_step p s))) =
  match p, ch_items (freeMessages s) with
  | PAcquire _, [] => atomic_AddUint64_1 (dropCount s)
  | _, _ => dropCount s
  end.
Proof.
  destruct p as [e|msg e|msg e|msg e]; simpl.
  - unfold chan_recv. by destruct (ch_items (freeMessages s)).
  - by destruct (ch_items (freeMessages s)).
  - destruct (messages_closed s); [by destruct (ch_items (freeMessages s))|].
    destruct (chan_send msg (messages s)); by destruct (ch_items (freeMessages s)).
  - unfold freeMsg. destruct (chan_send msg (freeMessages s));
      by destruct (ch_items (freeMessages s)).
Qed.

Lemma writer_step_dropCount ans w s s' nx ev :
  writer_step ans w s = Some (s', nx, ev) -> dropCount s' = dropCount s.
Proof.
  destruct w as [|msg|msg|msg| |]; simpl; intros H.
  - destruct (chan_recv (messages s)) as [[m q]|]; [by simplify_eq|].
    destruct (messages_closed s); by simplify_eq.
  - destruct ans as [ok|]; [|done].
    simplify_eq. unfold sink_write, write, writeCustomSocket.
    destruct (customSock s), ok; reflexivity.
  - simplify_eq. unfold recycle. by destruct (_ >? _).
  - simplify_eq. unfold freeMsg. by destruct (chan_send msg (freeMessages s)).
  - simplify_eq. unfold logWriter_exit. by destruct (customSock s).
  - destruct (wg s - 1 <? 0); by simplify_eq.
Qed.

Lemma drainer_step_dropCount d s s' nx ev :
  drainer_step d s = Some (s', nx, ev) -> dropCount s' = dropCount s.
Proof.
  destruct d; simpl; intros H.
  - destruct (mux_locked s || negb (mux_readers s =? 0)%nat); by simplify_eq.
  - by simplify_eq.
  - destruct (messages_closed s); by simplify_eq.
  - by simplify_eq.
  - destruct (wg s =? 0); by simplify_eq.
Qed.

Lemma sys_step_dropCount a sys sys' ev :
  sys_step a sys = Some (sys', ev) ->
  dropCount (vars sys') =
  if acquires_from_empty_pool a sys
  then atomic_AddUint64_1 (dropCount (vars sys))
  else dropCount (vars sys).
Proof.
  unfold sys_step. destruct (panicked sys); [done|].
  destruct a as [e|i|ok| |i|p ok]; simpl.
  - unfold producer_call. destruct (mux_locked (vars sys)); [done|].
    destruct (shuttingDown (vars sys)); simpl; intros; by simplify_eq.
  - destruct (producers sys !! i) as [p|] eqn:Hp; [|done].
    pose proof (producer_step_dropCount p (vars sys)) as Hd.
    destruct (producer_step p (vars sys)) as [[s' nx] ev'] eqn:Hstep.
    simpl in Hd.
    destruct nx as [p'|[err|why]]; intros; simplify_eq; simpl.
    + rewrite Hd. by destruct p, (ch_items (freeMessages (vars sys))).
    + rewrite Hd. by destruct p, (ch_items (freeMessages (vars sys))).
    + destruct p as [e|msg e|msg e|msg e]; try done.
      simpl in Hstep. unfold chan_recv in Hstep.
      destruct (ch_items (freeMessages (vars sys))); simplify_eq.
  - destruct (logWriter sys) as [w|]; [|done].
    destruct (writer_step ok w (vars sys)) as [[[s' nx] ev']|] eqn:Hw; [|done].
    apply writer_step_dropCount in Hw.
    destruct nx as [w'|[err|why]]; intros; by simplify_eq.
  - intros; by simplify_eq.
  - destruct (drainers sys !! i) as [d|]; [|done].
    destruct (drainer_step d (vars sys)) as [[[s' nx] ev']|] eqn:Hw; [|done].
    apply drainer_step_dropCount in Hw.
    destruct nx as [w'|[err|why]]; intros; by simplify_eq.
  - intros; simplify_eq. simpl. by destruct ok.
Qed.

(** C8.  [dropCount] moves in one place only.  A step of the process leaves
    it as it is unless the step is the select of a call on an empty pool, and
    then it goes up by one (modulo 2^64, so by exactly one below the top).
    For a whole call: it goes up by one when the flag is down and the pool
    empty, and not otherwise.  A full pending queue, a failed write to
    syslog or to the socket, a full free channel and a failed SetLogName
    each put one more on [errCount] and leave [dropCount] and [logCount]
    alone.  A failed SetCustomSocket is counted nowhere: the call returns
    the error of [net.Dial] and leaves the three counters as they are,
    where SetLogName, the other set-up call, counts its error on
    [errCount]. *)
Theorem dropCount_counts_pool_exhaustion :
  (forall a sys sys' ev,
      sys_step a sys = Some (sys', ev) ->
      dropCount (vars sys') =
      if acquires_from_empty_pool a sys
      then atomic_AddUint64_1 (dropCount (vars sys))
      else dropCount (vars sys)) /\
  (forall c, 0 <= c < 2 ^ 64 - 1 -> atomic_AddUint64_1 c = c + 1) /\
  (forall e s,
      dropCount (fst (queueMsgDirect e s)) =
      match shuttingDown s, ch_items (freeMessages s) with
      | false, [] => atomic_AddUint64_1 (dropCount s)
      | _, _ => dropCount s
      end) /\
  (forall e s,
      shuttingDown s = false -> ch_items (freeMessages s) = [] ->
      errCount (fst (queueMsgDirect e s)) = errCount s) /\
  (forall msg s,
      messages_closed s = false ->
      (ch_cap (messages s) <= length (ch_items (messages s)))%nat ->
      (length (ch_items (freeMessages s)) < ch_cap (freeMessages s))%nat ->
      snd (enqueue msg s) = Ret (Some ErrLogFullBuf) /\
      dropCount (fst (enqueue msg s)) = dropCount s /\
      logCount (fst (enqueue msg s)) = logCount s /\
      errCount (fst (enqueue msg s)) = atomic_AddUint64_1 (errCount s)) /\
  (forall msg s,
      dropCount (fst (write false msg s)) = dropCount s /\
      logCount (fst (write false msg s)) = logCount s /\
      errCount (fst (write false msg s)) = atomic_AddUint64_1 (errCount s)) /\
  (forall msg s k,
      customSock s = Some k ->
      dropCount (fst (writeCustomSocket false msg s)) = dropCount s /\
      logCount (fst (writeCustomSocket false msg s)) = logCount s /\
      errCount (fst (writeCustomSocket false msg s)) = atomic_AddUint64_1 (errCount s)) /\
  (forall msg s,
      (ch_cap (freeMessages s) <= length (ch_items (freeMessages s)))%nat ->
      snd (freeMsg msg s) = Some ErrFreeMessageOverflow /\
      dropCount (fst (freeMsg msg s)) = dropCount s /\
      logCount (fst (freeMsg msg s)) = logCount s /\
      errCount (fst (freeMsg msg s)) = atomic_AddUint64_1 (errCount s)) /\
  (forall p s,
      snd (SetLogName p false s) = false /\
      dropCount (fst (SetLogName p false s)) = dropCount s /\
      logCount (fst (SetLogName p false s)) = logCount s /\
      errCount (fst (SetLogName p false s)) = atomic_AddUint64_1 (errCount s)) /\
  (forall s,
      snd (SetCustomSocket None s) = false /\
      dropCount (fst (SetCustomSocket None s)) = dropCount s /\
      logCount (fst (SetCustomSocket None s)) = logCount s /\
      errCount (fst (SetCustomSocket None s)) = errCount s).
Proof.
  split; [apply sys_step_dropCount|].
  split; [apply atomic_AddUint64_1_in_range|].
  split.
  { intros e s. destruct (shuttingDown s) eqn:Hsd.
    - by rewrite queueMsgDirect_unavailable.
    - destruct (ch_items (freeMessages s)) as [|msg rest] eqn:Hf.
      + by rewrite queueMsgDirect_drop.
      + rewrite (queueMsgDirect_acquired e s msg rest Hsd Hf).
        set (s1 := render msg e _).
        assert (Hd : dropCount s1 = dropCount s).
        { unfold s1.
          by destruct (render_fields msg e
            (set_freeMessages {| ch_cap := ch_cap (freeMessages s); ch_items := rest |}
               (bump_logCount s))) as (_&_&_&_&_&_&_&_&_&->&_). }
        clearbody s1. unfold enqueue.
        destruct (messages_closed s1); [done|].
        destruct (chan_send msg (messages s1)); [done|].
        simpl. unfold freeMsg.
        by destruct (chan_send msg (freeMessages (bump_errCount s1))). }
  split.
  { intros e s Hsd Hf. by rewrite queueMsgDirect_drop. }
  split.
  { intros msg s Hcl Hfull Hroom. rewrite enqueue_full by done.
    rewrite freeMsg_room by done. done. }
  split; [done|].
  split.
  { intros msg s k Hk. unfold writeCustomSocket. by rewrite Hk. }
  split.
  { intros msg s Hfull. by rewrite freeMsg_full. }
  split; done.
Qed.


(** ** The call in one piece and the call step by step *)

(** A call that nothing interrupts goes through its steps to the state and
    the result of queueMsgDirect. *)
Lemma queueMsgDirect_stepwise_eq e s :
  mux_locked s = false ->
  queueMsgDirect_stepwise e s = Some (queueMsgDirect e s).
Proof.
  intros Hl. unfold queueMsgDirect_stepwise, producer_call.
  rewrite Hl. destruct (shuttingDown s) eqn:Hsd; cbn [negb].
  { by rewrite queueMsgDirect_unavailable. }
  destruct (ch_items (freeMessages s)) as [|msg rest] eqn:Hf.
  { rewrite queueMsgDirect_drop by done.
    cbn [producer_run producer_step]. unfold chan_recv.
    change (freeMessages (bump_logCount (set_mux_readers (S (mux_readers s)) s)))
      with (freeMessages s).
    rewrite Hf.
    assert (E : RUnlock (bump_dropCount (bump_logCount
                  (set_mux_readers (S (mux_readers s)) s))) =
                bump_dropCount (bump_logCount s)) by (by destruct s).
    by rewrite E. }
  rewrite (queueMsgDirect_acquired e s msg rest Hsd Hf).
  cbn [producer_run producer_step]. unfold chan_recv.
  change (freeMessages (bump_logCount (set_mux_readers (S (mux_readers s)) s)))
    with (freeMessages s).
  rewrite Hf. cbn [producer_run producer_step].
  unfold enqueue.
  set (s1 := render msg e
               (set_freeMessages
                  {| ch_cap := ch_cap (freeMessages s); ch_items := rest |}
                  (bump_logCount (set_mux_readers (S (mux_readers s)) s)))).
  set (s2 := render msg e
               (set_freeMessages
                  {| ch_cap := ch_cap (freeMessages s); ch_items := rest |}
                  (bump_logCount s))).
  assert (H12 : s2 = set_mux_readers (mux_readers s) s1) by (by destruct s).
  assert (Hr : mux_readers s1 = S (mux_readers s)) by (by destruct s).
  assert (Hc : messages_closed s1 = messages_closed s2) by (by destruct s).
  assert (Hm : messages s1 = messages s2) by (by destruct s).
  clearbody s1 s2. rewrite Hc. destruct (messages_closed s2).
  { unfold RUnlock. rewrite Hr. simpl. by rewrite H12. }
  rewrite Hm. destruct (chan_send msg (messages s2)) as [q|].
  { unfold RUnlock, deferred_release. subst s2. destruct s1. simpl in *. by subst. }
  cbn [producer_run producer_step]. unfold deferred_release.
  unfold freeMsg. subst s2. destruct s1. simpl in *. subst.
  unfold RUnlock.
  by destruct (chan_send msg freeMessages0).
Qed.

(** ** The two presentations of a step agree *)

Lemma lookup_split {A} (l : list A) (i : nat) (x : A) :
  l !! i = Some x ->
  exists l1 l2, l = l1 ++ x :: l2 /\
    (forall y, <[i:=y]> l = l1 ++ y :: l2) /\ delete i l = l1 ++ l2.
Proof.
  intros Hi. exists (take i l), (drop (S i) l).
  split; [by rewrite take_drop_middle|].
  split; [intros y; apply insert_take_drop; by eapply lookup_lt_Some|].
  apply delete_take_drop.
Qed.

Lemma sys_step_sound a sys sys' ev :
  sys_step a sys = Some (sys', ev) -> step sys ev sys'.
Proof.
  unfold sys_step. destruct sys as [s ps w ds pk]. simpl.
  destruct pk; [done|].
  destruct a as [e|i|ok| |i|p ok].
  - unfold producer_call. destruct (mux_locked s) eqn:Hl; [done|].
    destruct (shuttingDown s) eqn:Hsd; simpl; intros; simplify_eq;
      by constructor.
  - destruct (ps !! i) as [p|] eqn:Hp; [|done].
    destruct (lookup_split ps i p Hp) as (l1 & l2 & -> & Hins & Hdel).
    rewrite Hdel. destruct p as [e|msg e|msg e|msg e]; simpl.
    + unfold chan_recv. destruct (ch_items (freeMessages s)) as [|msg rest] eqn:Hf;
        intros; simplify_eq.
      * by constructor.
      * rewrite Hins. by apply step_acquire.
    + intros; simplify_eq. rewrite Hins. constructor.
    + destruct (messages_closed s) eqn:Hcl.
      { intros; simplify_eq. by constructor. }
      unfold chan_send.
      destruct (Nat.ltb_spec (length (ch_items (messages s))) (ch_cap (messages s)));
        intros; simplify_eq.
      * by constructor.
      * rewrite Hins. by constructor.
    + intros; simplify_eq. constructor.
  - destruct w as [w|]; [|done].
    destruct w as [|msg|msg|msg| |]; simpl.
    + unfold chan_recv. destruct (ch_items (messages s)) as [|msg rest] eqn:Hf.
      * destruct (messages_closed s) eqn:Hcl; intros; simplify_eq.
        by constructor.
      * intros; simplify_eq. by apply step_receive.
    + destruct ok as [ok|]; [|done]. intros; simplify_eq. constructor.
    + intros; simplify_eq. constructor.
    + intros; simplify_eq. constructor.
    + intros; simplify_eq. constructor.
    + destruct (Z.ltb_spec (wg s - 1) 0); intros; simplify_eq; by constructor.
  - intros; simplify_eq. constructor.
  - destruct (ds !! i) as [d|] eqn:Hd; [|done].
    destruct (lookup_split ds i d Hd) as (d1 & d2 & -> & Hins & Hdel).
    rewrite Hdel. destruct d; simpl.
    + destruct (mux_locked s) eqn:Hl; [done|]. simpl.
      destruct (Nat.eqb_spec (mux_readers s) 0); simpl; intros; simplify_eq.
      rewrite Hins. by constructor.
    + intros; simplify_eq. rewrite Hins. constructor.
    + destruct (messages_closed s) eqn:Hcl; intros; simplify_eq.
      * by constructor.
      * rewrite Hins. by constructor.
    + intros; simplify_eq. rewrite Hins. constructor.
    + destruct (Z.eqb_spec (wg s) 0); intros; simplify_eq. by constructor.
  - intros; simplify_eq. constructor.
Qed.

Lemma insert_middle {A} (l1 l2 : list A) (x y : A) :
  <[length l1:=y]> (l1 ++ x :: l2) = l1 ++ y :: l2.
Proof. induction l1 as [|z l1 IH]; simpl; [done | by rewrite IH]. Qed.

Lemma delete_middle {A} (l1 l2 : list A) (x : A) :
  delete (length l1) (l1 ++ x :: l2) = l1 ++ l2.
Proof. induction l1 as [|z l1 IH]; simpl; [done | by rewrite IH]. Qed.

Lemma sys_step_complete sys ev sys' :
  step sys ev sys' -> exists a, sys_step a sys = Some (sys', ev).
Proof.
  intros Hstep. unfold sys_step.
  destruct Hstep; cbn [panicked vars producers logWriter drainers].
  - exists (NewCall e). unfold producer_call. by rewrite H, H0.
  - exists (NewCall e). unfold producer_call. by rewrite H, H0.
  - exists (Producer (length l1)). rewrite list_lookup_middle by done.
    cbn [producer_step]. unfold chan_recv. by rewrite H, delete_middle.
  - exists (Producer (length l1)). rewrite list_lookup_middle by done.
    cbn [producer_step]. unfold chan_recv. by rewrite H, insert_middle.
  - exists (Producer (length l1)). rewrite list_lookup_middle by done.
    cbn [producer_step]. by rewrite insert_middle.
  - exists (Producer (length l1)). rewrite list_lookup_middle by done.
    cbn [producer_step]. unfold chan_send. rewrite H.
    apply Nat.ltb_lt in H0. by rewrite H0, delete_middle.
  - exists (Producer (length l1)). rewrite list_lookup_middle by done.
    cbn [producer_step]. unfold chan_send. rewrite H.
    apply Nat.ltb_ge in H0. by rewrite H0, insert_middle.
  - exists (Producer (length l1)). rewrite list_lookup_middle by done.
    cbn [producer_step]. by rewrite H.
  - exists (Producer (length l1)). rewrite list_lookup_middle by done.
    cbn [producer_step]. by rewrite delete_middle.
  - exists (Writer (Returns true)). cbn [writer_step]. unfold chan_recv.
    by rewrite H.
  - exists (Writer (Returns true)). cbn [writer_step]. unfold chan_recv.
    by rewrite H, H0.
  - by exists (Writer (Returns ok)).
  - by exists (Writer (Returns true)).
  - by exists (Writer (Returns true)).
  - by exists (Writer (Returns true)).
  - exists (Writer (Returns true)). cbn [writer_step].
    destruct (Z.ltb_spec (wg s - 1) 0); [lia|done].
  - exists (Writer (Returns true)). cbn [writer_step].
    destruct (Z.ltb_spec (wg s - 1) 0); [done|lia].
  - by exists NewDrain.
  - exists (Drainer (length d1)). rewrite list_lookup_middle by done.
    cbn [drainer_step]. rewrite H, H0. cbn. by rewrite insert_middle.
  - exists (Drainer (length d1)). rewrite list_lookup_middle by done.
    cbn [drainer_step]. by rewrite insert_middle.
  - exists (Drainer (length d1)). rewrite list_lookup_middle by done.
    cbn [drainer_step]. by rewrite H, insert_middle.
  - exists (Drainer (length d1)). rewrite list_lookup_middle by done.
    cbn [drainer_step]. by rewrite H.
  - exists (Drainer (length d1)). rewrite list_lookup_middle by done.
    cbn [drainer_step]. by rewrite insert_middle.
  - exists (Drainer (length d1)). rewrite list_lookup_middle by done.
    cbn [drainer_step]. rewrite H. cbn. by rewrite delete_middle.
  - by exists (LogName p ok).
Qed.

(** ** What each function leaves as it is, field by field *)

Lemma render_keeps_messages msg e s : messages (render msg e s) = messages s.
Proof. unfold render, render_nul, render_entry, render_level, update_msg; by destruct s. Qed.
Lemma render_keeps_messages_closed msg e s : messages_closed (render msg e s) = messages_closed s.
Proof. unfold render, render_nul, render_entry, render_level, update_msg; by destruct s. Qed.
Lemma render_keeps_freeMessages msg e s : freeMessages (render msg e s) = freeMessages s.
Proof. unfold render, render_nul, render_entry, render_level, update_msg; by destruct s. Qed.
Lemma render_keeps_customSock msg e s : customSock (render msg e s) = customSock s.
Proof. unfold render, render_nul, render_entry, render_level, update_msg; by destruct s. Qed.
Lemma render_keeps_mux_readers msg e s : mux_readers (render msg e s) = mux_readers s.
Proof. unfold render, render_nul, render_entry, render_level, update_msg; by destruct s. Qed.
Lemma render_keeps_mux_locked msg e s : mux_locked (render msg e s) = mux_locked s.
Proof. unfold render, render_nul, render_entry, render_level, update_msg; by destruct s. Qed.
Lemma render_keeps_shuttingDown msg e s : shuttingDown (render msg e s) = shuttingDown s.
Proof. unfold render, render_nul, render_entry, render_level, update_msg; by destruct s. Qed.
Lemma render_keeps_wg msg e s : wg (render msg e s) = wg s.
Proof. unfold render, render_nul, render_entry, render_level, update_msg; by destruct s. Qed.

Lemma recycle_keeps_messages msg s : messages (recycle msg s) = messages s.
Proof. unfold recycle, update_msg; by destruct (_ >? _), s. Qed.
Lemma recycle_keeps_messages_closed msg s : messages_closed (recycle msg s) = messages_closed s.
Proof. unfold recycle, update_msg; by destruct (_ >? _), s. Qed.
Lemma recycle_keeps_freeMessages msg s : freeMessages (recycle msg s) = freeMessages s.
Proof. unfold recycle, update_msg; by destruct (_ >? _), s. Qed.
Lemma recycle_keeps_customSock msg s : customSock (recycle msg s) = customSock s.
Proof. unfold recycle, update_msg; by destruct (_ >? _), s. Qed.
Lemma recycle_keeps_mux_readers msg s : mux_readers (recycle msg s) = mux_readers s.
Proof. unfold recycle, update_msg; by destruct (_ >? _), s. Qed.
Lemma recycle_keeps_mux_locked msg s : mux_locked (recycle msg s) = mux_locked s.
Proof. unfold recycle, update_msg; by destruct (_ >? _), s. Qed.
Lemma recycle_keeps_shuttingDown msg s : shuttingDown (recycle msg s) = shuttingDown s.
Proof. unfold recycle, update_msg; by destruct (_ >? _), s. Qed.
Lemma recycle_keeps_wg msg s : wg (recycle msg s) = wg s.
Proof. unfold recycle, update_msg; by destruct (_ >? _), s. Qed.

Lemma sink_write_keeps_msgArr ok msg s : msgArr (sink_write ok msg s) = msgArr s.
Proof. unfold sink_write, write, writeCustomSocket; by destruct (customSock s), ok. Qed.
Lemma sink_write_keeps_messages ok msg s : messages (sink_write ok msg s) = messages s.
Proof. unfold sink_write, write, writeCustomSocket; by destruct (customSock s), ok. Qed.
Lemma sink_write_keeps_messages_closed ok msg s : messages_closed (sink_write ok msg s) = messages_closed s.
Proof. unfold sink_write, write, writeCustomSocket; by destruct (customSock s), ok. Qed.
Lemma sink_write_keeps_freeMessages ok msg s : freeMessages (sink_write ok msg s) = freeMessages s.
Proof. unfold sink_write, write, writeCustomSocket; by destruct (customSock s), ok. Qed.
Lemma sink_write_keeps_mux_readers ok msg s : mux_readers (sink_write ok msg s) = mux_readers s.
Proof. unfold sink_write, write, writeCustomSocket; by destruct (customSock s), ok. Qed.
Lemma sink_write_keeps_mux_locked ok msg s : mux_locked (sink_write ok msg s) = mux_locked s.
Proof. unfold sink_write, write, writeCustomSocket; by destruct (customSock s), ok. Qed.
Lemma sink_write_keeps_shuttingDown ok msg s : shuttingDown (sink_write ok msg s) = shuttingDown s.
Proof. unfold sink_write, write, writeCustomSocket; by destruct (customSock s), ok. Qed.
Lemma sink_write_keeps_wg ok msg s : wg (sink_write ok msg s) = wg s.
Proof. unfold sink_write, write, writeCustomSocket; by destruct (customSock s), ok. Qed.

Lemma freeMsg_keeps_msgArr msg s : msgArr (fst (freeMsg msg s)) = msgArr s.
Proof. unfold freeMsg; by destruct (chan_send msg (freeMessages s)). Qed.
Lemma freeMsg_keeps_messages msg s : messages (fst (freeMsg msg s)) = messages s.
Proof. unfold freeMsg; by destruct (chan_send msg (freeMessages s)). Qed.
Lemma freeMsg_keeps_messages_closed msg s : messages_closed (fst (freeMsg msg s)) = messages_closed s.
Proof. unfold freeMsg; by destruct (chan_send msg (freeMessages s)). Qed.
Lemma freeMsg_keeps_customSock msg s : customSock (fst (freeMsg msg s)) = customSock s.
Proof. unfold freeMsg; by destruct (chan_send msg (freeMessages s)). Qed.
Lemma freeMsg_keeps_mux_readers msg s : mux_readers (fst (freeMsg msg s)) = mux_readers s.
Proof. unfold freeMsg; by destruct (chan_send msg (freeMessages s)). Qed.
Lemma freeMsg_keeps_mux_locked msg s : mux_locked (fst (freeMsg msg s)) = mux_locked s.
Proof. unfold freeMsg; by destruct (chan_send msg (freeMessages s)). Qed.
Lemma freeMsg_keeps_shuttingDown msg s : shuttingDown (fst (freeMsg msg s)) = shuttingDown s.
Proof. unfold freeMsg; by destruct (chan_send msg (freeMessages s)). Qed.
Lemma freeMsg_keeps_wg msg s : wg (fst (freeMsg msg s)) = wg s.
Proof. unfold freeMsg; by destruct (chan_send msg (freeMessages s)). Qed.

Lemma logWriter_exit_keeps_msgArr  s : msgArr (logWriter_exit s) = msgArr s.
Proof. unfold logWriter_exit; by destruct (customSock s). Qed.
Lemma logWriter_exit_keeps_messages  s : messages (logWriter_exit s) = messages s.
Proof. unfold logWriter_exit; by destruct (customSock s). Qed.
Lemma logWriter_exit_keeps_messages_closed  s : messages_closed (logWriter_exit s) = messages_closed s.
Proof. unfold logWriter_exit; by destruct (customSock s). Qed.
Lemma logWriter_exit_keeps_freeMessages  s : freeMessages (logWriter_exit s) = freeMessages s.
Proof. unfold logWriter_exit; by destruct (customSock s). Qed.
Lemma logWriter_exit_keeps_mux_readers  s : mux_readers (logWriter_exit s) = mux_readers s.
Proof. unfold logWriter_exit; by destruct (customSock s). Qed.
Lemma logWriter_exit_keeps_mux_locked  s : mux_locked (logWriter_exit s) = mux_locked s.
Proof. unfold logWriter_exit; by destruct (customSock s). Qed.
Lemma logWriter_exit_keeps_shuttingDown  s : shuttingDown (logWriter_exit s) = shuttingDown s.
Proof. unfold logWriter_exit; by destruct (customSock s). Qed.
Lemma logWriter_exit_keeps_wg  s : wg (logWriter_exit s) = wg s.
Proof. unfold logWriter_exit; by destruct (customSock s). Qed.

Lemma SetLogName_keeps_msgArr p ok s : msgArr (fst (SetLogName p ok s)) = msgArr s.
Proof. unfold SetLogName; by destruct ok. Qed.
Lemma SetLogName_keeps_messages p ok s : messages (fst (SetLogName p ok s)) = messages s.
Proof. unfold SetLogName; by destruct ok. Qed.
Lemma SetLogName_keeps_messages_closed p ok s : messages_closed (fst (SetLogName p ok s)) = messages_closed s.
Proof. unfold SetLogName; by destruct ok. Qed.
Lemma SetLogName_keeps_freeMessages p ok s : freeMessages (fst (SetLogName p ok s)) = freeMessages s.
Proof. unfold SetLogName; by destruct ok. Qed.
Lemma SetLogName_keeps_customSock p ok s : customSock (fst (SetLogName p ok s)) = customSock s.
Proof. unfold SetLogName; by destruct ok. Qed.
Lemma SetLogName_keeps_mux_readers p ok s : mux_readers (fst (SetLogName p ok s)) = mux_readers s.
Proof. unfold SetLogName; by destruct ok. Qed.
Lemma SetLogName_keeps_mux_locked p ok s : mux_locked (fst (SetLogName p ok s)) = mux_locked s.
Proof. unfold SetLogName; by destruct ok. Qed.
Lemma SetLogName_keeps_shuttingDown p ok s : shuttingDown (fst (SetLogName p ok s)) = shuttingDown s.
Proof. unfold SetLogName; by destruct ok. Qed.
Lemma SetLogName_keeps_wg p ok s : wg (fst (SetLogName p ok s)) = wg s.
Proof. unfold SetLogName; by destruct ok. Qed.

Create Rewrite HintDb fields.
#[local] Hint Rewrite
  render_keeps_messages render_keeps_messages_closed
  render_keeps_freeMessages render_keeps_customSock render_keeps_mux_readers
  render_keeps_mux_locked render_keeps_shuttingDown render_keeps_wg
  recycle_keeps_messages recycle_keeps_messages_closed
  recycle_keeps_freeMessages recycle_keeps_customSock
  recycle_keeps_mux_readers recycle_keeps_mux_locked
  recycle_keeps_shuttingDown recycle_keeps_wg sink_write_keeps_msgArr
  sink_write_keeps_messages sink_write_keeps_messages_closed
  sink_write_keeps_freeMessages sink_write_keeps_mux_readers
  sink_write_keeps_mux_locked sink_write_keeps_shuttingDown
  sink_write_keeps_wg freeMsg_keeps_msgArr freeMsg_keeps_messages
  freeMsg_keeps_messages_closed freeMsg_keeps_customSock
  freeMsg_keeps_mux_readers freeMsg_keeps_mux_locked
  freeMsg_keeps_shuttingDown freeMsg_keeps_wg logWriter_exit_keeps_msgArr
  logWriter_exit_keeps_messages logWriter_exit_keeps_messages_closed
  logWriter_exit_keeps_freeMessages logWriter_exit_keeps_mux_readers
  logWriter_exit_keeps_mux_locked logWriter_exit_keeps_shuttingDown
  logWriter_exit_keeps_wg SetLogName_keeps_msgArr SetLogName_keeps_messages
  SetLogName_keeps_messages_closed SetLogName_keeps_freeMessages
  SetLogName_keeps_customSock SetLogName_keeps_mux_readers
  SetLogName_keeps_mux_locked SetLogName_keeps_shuttingDown
  SetLogName_keeps_wg : fields.

(** ** The control invariant *)

Arguments render : simpl never.
Arguments recycle : simpl never.
Arguments sink_write : simpl never.
Arguments freeMsg : simpl never.
Arguments logWriter_exit : simpl never.
Arguments SetLogName : simpl never.
Arguments deref : simpl never.

Lemma in_middle_change {A} (l1 l2 : list A) (x y d : A) :
  In d (l1 ++ y :: l2) -> d = y \/ In d (l1 ++ x :: l2).
Proof.
  rewrite !in_app_iff. simpl. intuition.
Qed.

Lemma in_middle_remove {A} (l1 l2 : list A) (x d : A) :
  In d (l1 ++ l2) -> In d (l1 ++ x :: l2).
Proof. rewrite !in_app_iff. simpl. intuition. Qed.

Lemma in_middle {A} (l1 l2 : list A) (x : A) : In x (l1 ++ x :: l2).
Proof. rewrite in_app_iff. simpl. auto. Qed.

Lemma middle_not_nil {A} (l1 l2 : list A) (x : A) : l1 ++ x :: l2 <> [].
Proof. by destruct l1. Qed.

Lemma filter_length_middle {A} (f : A -> bool) (l1 l2 : list A) (x : A) :
  length (List.filter f (l1 ++ x :: l2)) =
  (length (List.filter f l1) + (if f x then 1 else 0)
   + length (List.filter f l2))%nat.
Proof.
  rewrite List.filter_app, length_app. simpl. destruct (f x); simpl; lia.
Qed.

Lemma filter_length_snoc {A} (f : A -> bool) (l : list A) (x : A) :
  length (List.filter f (l ++ [x])) =
  (length (List.filter f l) + (if f x then 1 else 0))%nat.
Proof.
  rewrite List.filter_app, length_app. simpl. destruct (f x); simpl; lia.
Qed.

Lemma filter_length_app {A} (f : A -> bool) (l1 l2 : list A) :
  length (List.filter f (l1 ++ l2)) =
  (length (List.filter f l1) + length (List.filter f l2))%nat.
Proof. by rewrite List.filter_app, length_app. Qed.

Ltac count_lock_holders :=
  rewrite ?filter_length_middle, ?filter_length_snoc, ?filter_length_app in *;
  simpl in *;
  repeat match goal with
  | H : mux_locked _ = _ |- _ => rewrite H in *
  end;
  try match goal with
  | H : context [if mux_locked ?s then _ else _] |- _ => destruct (mux_locked s)
  end;
  simpl in *; first [lia | congruence].

Ltac changed_drainer old Hdf Hdc :=
  let d := fresh "d" in
  let Hd := fresh "Hd" in
  let Hp := fresh "Hp" in
  intros d Hd Hp;
  apply in_middle_change with (x := old) in Hd; destruct Hd as [->|Hd];
  [ first [ discriminate
          | eapply Hdf; [apply in_middle | reflexivity]
          | eapply Hdc; [apply in_middle | reflexivity] ]
  | first [ eapply Hdf; eassumption | eapply Hdc; eassumption ] ].

Ltac each_drainer Hdf Hdc :=
  first
    [ solve [changed_drainer DLock Hdf Hdc]
    | solve [changed_drainer DSetFlag Hdf Hdc]
    | solve [changed_drainer DClose Hdf Hdc]
    | solve [changed_drainer DUnlock Hdf Hdc]
    | let d := fresh "d" in
      let Hd := fresh "Hd" in
      let Hp := fresh "Hp" in
      intros d Hd Hp;
      first
        [ apply in_app_or in Hd; destruct Hd as [Hd|[<-|[]]];
          [ first [ eapply Hdf; eassumption | eapply Hdc; eassumption ]
          | discriminate ]
        | first [ eapply Hdf; [ eapply in_middle_remove; exact Hd | exact Hp ]
                | eapply Hdc; [ eapply in_middle_remove; exact Hd | exact Hp ] ] ] ].

Lemma Inv_control_step sys ev sys' :
  step sys ev sys' -> Inv_control sys -> Inv_control sys'.
Proof.
  intros Hstep [Hr Hl Hlk Hfl Hdf Hdc Hcl Hwg Hpl Hpc].
  destruct Hstep; simpl in *; autorewrite with fields in *;
    try (specialize (Hlk ltac:(assumption)));
    try (specialize (Hfl ltac:(assumption)));
    try (by exfalso; eapply middle_not_nil; eassumption);
    constructor; simpl; autorewrite with fields;
    rewrite ?length_app in *; simpl in *;
    try done; try lia; try congruence.
  all: try (intros; exfalso; by eapply middle_not_nil; eauto).
  all: try (by each_drainer Hdf Hdc).
  all: try (by count_lock_holders).
  - intros Hw. destruct (Hpl Hw). congruence.
  - intros _ k. unfold logWriter_exit.
    destruct (customSock s) eqn:Hk; simpl; [|congruence].
    intros; by simplify_eq.
  - intros _. destruct ps; [done|]. simpl in *. lia.
  - intros _. apply Hlk. clear -Hl. count_lock_holders.
  - intros _. eapply Hdf; [apply in_middle | reflexivity].
  - intros Hw. by destruct (Hpl Hw).
Qed.

(** ** The pool invariant *)

Lemma perm_length_seq (l : list nat) (n : nat) : l ≡ₚ seq 0 n -> length l = n.
Proof. intros H. rewrite (Permutation_length H). apply length_seq. Qed.

Ltac no_release Hnr :=
  let msg := fresh "msg" in
  let e := fresh "e" in
  let Hin := fresh "Hin" in
  intros msg e Hin;
  first
    [ apply in_app_or in Hin; destruct Hin as [Hin|[Hin|[]]];
      [ by eapply Hnr | discriminate ]
    | eapply Hnr; eapply in_middle_remove; exact Hin
    | eapply in_middle_change in Hin; destruct Hin as [Hin|Hin];
      [ discriminate | eapply Hnr; exact Hin ] ].

Lemma Inv_pool_step n sys ev sys' :
  step sys ev sys' -> Inv_pool n sys -> Inv_pool n sys'.
Proof.
  intros Hstep [Hperm Hcf Hcm Hlen Hnr].
  pose proof (perm_length_seq _ _ Hperm) as Hcount.
  destruct Hstep; unfold all_messages, in_flight in *; simpl in *;
    autorewrite with fields in *;
    rewrite ?flat_map_app in *; simpl in *;
    try match goal with
    | H : ch_items _ = _ |- _ => try rewrite H in Hperm; try rewrite H in Hcount
    end;
    try (exfalso; eapply Hnr; by apply in_middle);
    try (exfalso; rewrite ?length_app in Hcount; simpl in Hcount; lia);
    try (constructor; unfold all_messages, in_flight;
         cbn [vars producers logWriter];
         rewrite ?render_length, ?recycle_length;
         simpl; autorewrite with fields; try done;
         rewrite ?flat_map_app; simpl; rewrite ?app_nil_r;
         try match goal with
         | H : ch_items _ = _ |- _ => rewrite H
         end;
         try (by no_release Hnr);
         try (by etrans; [|exact Hperm]; solve_Permutation)).
  all: rewrite ?length_app in Hcount; simpl in Hcount.
  - rewrite freeMsg_room by lia. simpl.
    etrans; [|exact Hperm]. solve_Permutation.
  - rewrite freeMsg_room by lia. done.
Qed.

(** ** The buffer invariant *)

Lemma producer_buffer_ext s s' p :
  msgArr s = msgArr s' -> producer_buffer s p -> producer_buffer s' p.
Proof.
  intros Harr. destruct p as [e|msg e|msg e|msg e]; simpl; try done;
    by rewrite (deref_ext msg s s' Harr).
Qed.

Lemma producer_buffer_render_other s p msg e :
  (forall x, In x (producer_holds p) -> x <> msg) ->
  producer_buffer s p -> producer_buffer (render msg e s) p.
Proof.
  intros Hne. destruct p as [e'|msg' e'|msg' e'|msg' e']; simpl in *; try done;
    rewrite deref_render_other; try done; intros ->; by eapply Hne; eauto.
Qed.

Lemma producer_buffer_recycle_other s p msg :
  (forall x, In x (producer_holds p) -> x <> msg) ->
  producer_buffer s p -> producer_buffer (recycle msg s) p.
Proof.
  intros Hne. destruct p as [e'|msg' e'|msg' e'|msg' e']; simpl in *; try done;
    rewrite deref_recycle_other; try done; intros ->; by eapply Hne; eauto.
Qed.

Lemma held_by_producer_once n (fr ms : list nat) l1 l2 (w : list nat) p msg :
  producer_holds p = [msg] ->
  fr ++ ms ++ flat_map producer_holds (l1 ++ p :: l2) ++ w ≡ₚ seq 0 n ->
  (msg < n)%nat /\
  forall x, In x (fr ++ ms ++ flat_map producer_holds (l1 ++ l2) ++ w) -> x <> msg.
Proof.
  intros Hp Hperm.
  assert (Hall : msg :: (fr ++ ms ++ flat_map producer_holds (l1 ++ l2) ++ w)
                 ≡ₚ seq 0 n).
  { etrans; [|exact Hperm]. rewrite !flat_map_app. simpl. rewrite Hp. simpl.
    solve_Permutation. }
  split.
  - assert (Hin : In msg (seq 0 n)).
    { eapply Permutation_in; [exact Hall|]. by left. }
    apply in_seq in Hin. lia.
  - assert (Hnd : NoDup (msg :: (fr ++ ms ++ flat_map producer_holds (l1 ++ l2) ++ w))).
    { rewrite Hall. apply NoDup_seq. }
    apply NoDup_cons in Hnd as [Hnot _].
    intros x Hx ->. apply Hnot. by apply list_elem_of_In.
Qed.

Lemma held_by_writer_once n (fr ms : list nat) ps msg :
  fr ++ ms ++ flat_map producer_holds ps ++ [msg] ≡ₚ seq 0 n ->
  (msg < n)%nat /\
  forall x, In x (fr ++ ms ++ flat_map producer_holds ps) -> x <> msg.
Proof.
  intros Hperm.
  assert (Hall : msg :: (fr ++ ms ++ flat_map producer_holds ps) ≡ₚ seq 0 n).
  { etrans; [|exact Hperm]. solve_Permutation. }
  split.
  - assert (Hin : In msg (seq 0 n)).
    { eapply Permutation_in; [exact Hall|]. by left. }
    apply in_seq in Hin. lia.
  - assert (Hnd : NoDup (msg :: (fr ++ ms ++ flat_map producer_holds ps))).
    { rewrite Hall. apply NoDup_seq. }
    apply NoDup_cons in Hnd as [Hnot _].
    intros x Hx ->. apply Hnot. by apply list_elem_of_In.
Qed.

Lemma in_holds_flat_map p ps x :
  In p ps -> In x (producer_holds p) -> In x (flat_map producer_holds ps).
Proof. intros Hp Hx. apply in_flat_map. eauto. Qed.

Ltac same_store s :=
  repeat match goal with
  | |- context [deref ?m ?s'] =>
      lazymatch s' with
      | s => fail
      | _ => rewrite (deref_ext m s' s)
               by (simpl; autorewrite with fields; reflexivity)
      end
  end.

Ltac same_store_producer Hprod :=
  let p := fresh "p" in
  let Hin := fresh "Hin" in
  intros p Hin;
  first
    [ eapply producer_buffer_ext;
      [ | eapply Hprod;
          first [ exact Hin
                | eapply in_middle_remove; exact Hin ] ];
      simpl; autorewrite with fields; reflexivity
    | apply in_app_or in Hin; destruct Hin as [Hin|[<-|[]]];
      [ eapply producer_buffer_ext; [|eapply Hprod; exact Hin];
        simpl; autorewrite with fields; reflexivity
      | exact I ] ].

Lemma Inv_buffer_step n sys ev sys' :
  step sys ev sys' -> Inv_pool n sys -> Inv_buffer sys -> Inv_buffer sys'.
Proof.
  intros Hstep [Hperm Hcf Hcm Hlen Hnr] [Hfree Hprod Hwr].
  pose proof (perm_length_seq _ _ Hperm) as Hcount.
  unfold all_messages, in_flight in *.
  destruct Hstep; simpl in *;
    try (exfalso; eapply Hnr; by apply in_middle);
    try (exfalso; rewrite ?flat_map_app, ?length_app in Hcount;
         simpl in Hcount; lia).
  all: try (constructor; simpl; autorewrite with fields;
            [ intros ? ?; same_store s; by apply Hfree
            | by same_store_producer Hprod
            | intros ? ?; same_store s; by apply Hwr ]).
  - (* a call takes the oldest free message *)
    rename H into Hf. constructor; simpl.
    + intros msg' Hin. same_store s. apply Hfree. rewrite Hf. by right.
    + intros p Hin. apply in_app_or in Hin. destruct Hin as [Hin|[<-|Hin]].
      * eapply producer_buffer_ext; [|apply Hprod, in_or_app; left; exact Hin]. done.
      * simpl. same_store s. apply Hfree. rewrite Hf. by left.
      * eapply producer_buffer_ext;
          [|apply Hprod, in_or_app; right; right; exact Hin]. done.
    + intros msg' Hw. same_store s. by apply Hwr.
  - (* a call renders into the message it holds *)
    destruct (held_by_producer_once n _ _ l1 l2 _ (PRender msg e) msg eq_refl Hperm)
      as [Hlt Hne].
    constructor; simpl; autorewrite with fields.
    + intros msg' Hin. rewrite deref_render_other; [by apply Hfree|].
      intros ->. eapply Hne; [|reflexivity]. apply in_or_app. by left.
    + intros p Hin.
      assert (Hold : forall q, In q (l1 ++ l2) ->
                producer_buffer (render msg e s) q).
      { intros q Hq. apply producer_buffer_render_other.
        - intros x Hx. apply Hne. apply in_or_app. right.
          apply in_or_app. right. apply in_or_app. left.
          by eapply in_holds_flat_map.
        - apply Hprod. by eapply in_middle_remove. }
      apply in_app_or in Hin. destruct Hin as [Hin|[<-|Hin]].
      * apply Hold, in_or_app. by left.
      * simpl. rewrite buf_after_render by lia.
        rewrite deref_render_same by lia.
        pose proof (Hprod (PRender msg e) (in_middle _ _ _)) as Hb.
        simpl in Hb. rewrite Hb. done.
      * apply Hold, in_or_app. by right.
    + intros msg' Hw. subst w. rewrite deref_render_other; [by apply Hwr|].
      intros ->. eapply Hne; [|reflexivity].
      apply in_or_app. right. apply in_or_app. right. apply in_or_app. right.
      by left.
  - (* the writer resets or replaces the buffer *)
    destruct (held_by_writer_once n _ _ ps msg Hperm) as [Hlt Hne].
    constructor; simpl; autorewrite with fields.
    + intros msg' Hin. rewrite deref_recycle_other; [by apply Hfree|].
      intros ->. eapply Hne; [|reflexivity]. apply in_or_app. by left.
    + intros p Hin. apply producer_buffer_recycle_other; [|by apply Hprod].
      intros x Hx. apply Hne. apply in_or_app. right. apply in_or_app. right.
      by eapply in_holds_flat_map.
    + intros msg' Hw. simplify_eq. apply buf_recycle. lia.
  - (* the writer releases the message *)
    rewrite ?length_app in Hcount. simpl in Hcount.
    rewrite freeMsg_room by lia.
    constructor; simpl.
    + intros msg' Hin. same_store s. apply in_app_or in Hin.
      destruct Hin as [Hin|[<-|[]]]; [by apply Hfree | by apply Hwr].
    + intros p Hin. eapply producer_buffer_ext; [|by apply Hprod]. done.
    + done.
Qed.

(** ** The trace invariant *)

Lemma enqueued_snoc tr ev : enqueued (tr ++ [ev]) = enqueued tr ++ enqueued_of ev.
Proof. unfold enqueued. rewrite flat_map_app. simpl. by rewrite app_nil_r. Qed.

Lemma written_snoc tr ev : written (tr ++ [ev]) = written tr ++ written_of ev.
Proof. unfold written. rewrite flat_map_app. simpl. by rewrite app_nil_r. Qed.

Lemma in_snoc {A} (l : list A) (x y : A) : In x (l ++ [y]) -> In x l \/ x = y.
Proof. rewrite in_app_iff. simpl. intuition. Qed.

Lemma pending_ext s ps w ds pk s' ps' w' ds' pk' :
  msgArr s = msgArr s' ->
  messages s = messages s' ->
  writer_unwritten w = writer_unwritten w' ->
  pending (mkSystem s ps w ds pk) = pending (mkSystem s' ps' w' ds' pk').
Proof.
  intros Ha Hm Hw. unfold pending. simpl. rewrite Hm, Hw.
  apply map_ext. intros msg. unfold entry. by rewrite (deref_ext msg s s' Ha).
Qed.

Lemma pending_other_store s s' ps w ds pk ps' w' ds' pk' :
  messages s = messages s' ->
  writer_unwritten w = writer_unwritten w' ->
  (forall x, In x (writer_unwritten w ++ ch_items (messages s)) ->
             deref x s' = deref x s) ->
  pending (mkSystem s ps w ds pk) = pending (mkSystem s' ps' w' ds' pk').
Proof.
  intros Hm Hw Hd. unfold pending. simpl. rewrite <- Hm, <- Hw.
  apply map_ext_in. intros x Hx. unfold entry. by rewrite Hd.
Qed.

Lemma writer_unwritten_holds w x :
  In x (writer_unwritten w) -> In x (writer_holds w).
Proof. destruct w as [[]|]; simpl; tauto. Qed.

Ltac trace_in Hcont Hret Hnf :=
  let Hin := fresh "Hin" in
  unfold not; intros;
  match goal with
  | H : In _ (_ ++ [_]) |- _ =>
      pose proof (in_snoc _ _ _ H) as Hin; clear H; destruct Hin as [Hin|Hin]
  end;
  first [ discriminate | by eauto | by eapply Hcont; eauto
        | by eapply Hnf; eauto
        | by (pose proof (Hret Hin); discriminate) ].

Lemma Inv_trace_step n tr sys ev sys' :
  step sys ev sys' ->
  Inv_control sys -> Inv_pool n sys -> Inv_buffer sys ->
  Inv_trace tr sys -> Inv_trace (tr ++ [ev]) sys'.
Proof.
  intros Hstep [Hr Hl Hlk Hfl Hdf Hdc Hcl Hwg Hpl Hpc]
    [Hperm Hcf Hcm Hlen Hnr] [Hfree Hprod Hwr] [Hfifo Hcont Hret Hnf].
  pose proof (perm_length_seq _ _ Hperm) as Hcount.
  unfold all_messages, in_flight in *.
  destruct Hstep; simpl in *;
    try (exfalso; eapply Hnr; by apply in_middle);
    try (exfalso; rewrite ?flat_map_app, ?length_app in Hcount;
         simpl in Hcount; lia).
  all: try (constructor;
            [ rewrite enqueued_snoc, written_snoc; simpl; rewrite ?app_nil_r;
              rewrite Hfifo; f_equal; apply pending_ext;
              simpl; autorewrite with fields; reflexivity
            | by trace_in Hcont Hret Hnf
            | by trace_in Hcont Hret Hnf
            | by trace_in Hcont Hret Hnf ]).
  - (* render: the message is held by the call, not by the queue *)
    destruct (held_by_producer_once n _ _ l1 l2 _ (PRender msg e) msg eq_refl Hperm)
      as [Hlt Hne].
    constructor; try (by trace_in Hcont Hret Hnf).
    rewrite enqueued_snoc, written_snoc; simpl; rewrite ?app_nil_r.
    rewrite Hfifo. f_equal. apply pending_other_store.
    + by autorewrite with fields.
    + done.
    + intros x Hx. apply deref_render_other. intros ->.
      eapply Hne; [|reflexivity].
      apply in_app_or in Hx. destruct Hx as [Hx|Hx].
      * apply in_or_app. right. apply in_or_app. right. apply in_or_app. right.
        by apply writer_unwritten_holds.
      * apply in_or_app. right. apply in_or_app. by left.
  - (* enqueue *)
    constructor; try (by trace_in Hcont Hret Hnf).
    + rewrite enqueued_snoc, written_snoc; simpl; rewrite ?app_nil_r.
      rewrite Hfifo. rewrite <- app_assoc. f_equal.
      unfold pending, entry. simpl. rewrite !map_app. simpl.
      rewrite <- app_assoc. done.
    + intros msg' e' m Hin. apply in_snoc in Hin. destruct Hin as [Hin|Hin].
      * by eapply Hcont.
      * simplify_eq. apply (Hprod (PEnqueue msg e)). apply in_middle.
  - (* receive *)
    rename H into Hq.
    constructor; try (by trace_in Hcont Hret Hnf).
    rewrite enqueued_snoc, written_snoc; simpl; rewrite ?app_nil_r.
    rewrite Hfifo. f_equal. unfold pending. simpl. by rewrite Hq.
  - (* write *)
    constructor; try (by trace_in Hcont Hret Hnf).
    rewrite enqueued_snoc, written_snoc; simpl; rewrite ?app_nil_r.
    rewrite Hfifo. rewrite <- app_assoc. f_equal.
    unfold pending, entry. simpl. autorewrite with fields. f_equal.
    apply map_ext. intros x. f_equal. apply deref_ext.
    by autorewrite with fields.
  - (* recycle *)
    destruct (held_by_writer_once n _ _ ps msg Hperm) as [Hlt Hne].
    constructor; try (by trace_in Hcont Hret Hnf).
    rewrite enqueued_snoc, written_snoc; simpl; rewrite ?app_nil_r.
    rewrite Hfifo. f_equal. apply pending_other_store.
    + by autorewrite with fields.
    + done.
    + intros x Hx. simpl in Hx. apply deref_recycle_other. intros ->.
      eapply Hne; [|reflexivity].
      apply in_or_app. right. apply in_or_app. by left.
  - (* wg.Wait returns *)
    rename H into Hz.
    constructor; try (by trace_in Hcont Hret Hnf).
    + rewrite enqueued_snoc, written_snoc; simpl; rewrite ?app_nil_r.
      rewrite Hfifo. f_equal.
    + intros _. simpl. destruct w; [lia|done].
Qed.

(** ** Every state of the process satisfies the invariant *)

Lemma deref_replicate_zero msg n s :
  msgArr s = replicate n logMessage_zero -> deref msg s = logMessage_zero.
Proof.
  intros Ha. unfold deref. rewrite Ha.
  destruct (replicate n logMessage_zero !! msg) as [m|] eqn:E; [|done].
  apply lookup_replicate in E as [-> _]. done.
Qed.

Lemma boot_with_vars n sock :
  vars (boot_with n sock) =
  mkState (replicate n logMessage_zero) (make_chan n) false
    {| ch_cap := n; ch_items := seq 0 n |} sock 0%nat false false 1 0 0 0 [] None.
Proof. unfold boot_with. simpl. by rewrite init_with_eq. Qed.

Lemma Inv_boot n sock : Inv n [] (boot_with n sock).
Proof.
  pose proof (boot_with_vars n sock) as Hv.
  constructor.
  - constructor; rewrite ?Hv; simpl; try done.
  - constructor; unfold all_messages, in_flight; rewrite ?Hv; simpl.
    + by rewrite app_nil_r.
    + done.
    + done.
    + apply length_replicate.
    + tauto.
  - constructor.
    + intros msg _. rewrite (deref_replicate_zero msg n); [done | by rewrite Hv].
    + simpl. tauto.
    + done.
  - constructor; simpl; try tauto.
    unfold pending. rewrite Hv. done.
Qed.

Lemma Inv_step n tr sys ev sys' :
  step sys ev sys' -> Inv n tr sys -> Inv n (tr ++ [ev]) sys'.
Proof.
  intros Hstep [Hc Hp Hb Ht]. constructor.
  - by eapply Inv_control_step.
  - by eapply Inv_pool_step.
  - by eapply Inv_buffer_step.
  - by eapply Inv_trace_step.
Qed.

Lemma reach_from_Inv n tr0 sys0 tr sys :
  Inv n tr0 sys0 -> reach_from sys0 tr sys -> Inv n (tr0 ++ tr) sys.
Proof.
  intros H0 Hreach. induction Hreach as [|tr sys a sys' ev Hreach IH Hstep].
  - by rewrite app_nil_r.
  - rewrite app_assoc. eapply Inv_step; [|exact IH].
    by eapply sys_step_sound.
Qed.

Lemma reach_Inv n sock tr sys :
  reach_from (boot_with n sock) tr sys -> Inv n tr sys.
Proof. intros H. apply (reach_from_Inv n [] _ tr sys (Inv_boot n sock) H). Qed.

(** A schedule that runs is a way to reach the state it ends in. *)
Lemma reach_from_first a sys0 sys1 ev tr sys :
  sys_step a sys0 = Some (sys1, ev) ->
  reach_from sys1 tr sys -> reach_from sys0 (ev :: tr) sys.
Proof.
  intros Hstep Hreach. induction Hreach as [|tr sys b sys' ev' Hreach IH Hb].
  - apply (reach_step sys0 [] sys0 a sys1 ev); [constructor | done].
  - change (ev :: tr ++ [ev']) with ((ev :: tr) ++ [ev']).
    by eapply reach_step.
Qed.

Lemma run_reach sched sys0 sys tr :
  run sched sys0 = Some (sys, tr) -> reach_from sys0 tr sys.
Proof.
  revert sys0 sys tr. induction sched as [|a sched IH]; intros sys0 sys tr; simpl.
  - intros; simplify_eq. constructor.
  - destruct (sys_step a sys0) as [[sys1 ev]|] eqn:Hstep; [|done].
    destruct (run sched sys1) as [[sys2 evs]|] eqn:Hrun; [|done].
    intros; simplify_eq. eapply reach_from_first; [exact Hstep|]. by apply IH.
Qed.

Lemma reach_from_app sys0 tr sys tr' sys' :
  reach_from sys0 tr sys -> reach_from sys tr' sys' ->
  reach_from sys0 (tr ++ tr') sys'.
Proof.
  intros Hreach Hreach'.
  induction Hreach' as [|tr1 sys1 a sys2 ev Hr IH Hstep].
  - by rewrite app_nil_r.
  - rewrite app_assoc. by eapply reach_step.
Qed.

(** ** Nothing is queued once the flag is set *)

Lemma flag_up_step sys ev sys' :
  step sys ev sys' -> Inv_control sys -> shuttingDown (vars sys) = true ->
  shuttingDown (vars sys') = true /\
  (length (ch_items (messages (vars sys'))) <=
   length (ch_items (messages (vars sys))))%nat /\
  enqueued_of ev = [].
Proof.
  intros Hstep [_ _ _ Hfl _ _ _ _ _ _] Hsd. specialize (Hfl Hsd).
  destruct Hstep; simpl in *; autorewrite with fields;
    try (by exfalso; eapply middle_not_nil; eassumption);
    try done; try congruence.
  match goal with H : ch_items _ = _ |- _ => rewrite H end. simpl.
  split; [done|]. split; [lia|done].
Qed.

Lemma flag_up_reach n tr0 sys tr' sys' :
  Inv n tr0 sys -> shuttingDown (vars sys) = true ->
  reach_from sys tr' sys' ->
  shuttingDown (vars sys') = true /\
  (length (ch_items (messages (vars sys'))) <=
   length (ch_items (messages (vars sys))))%nat /\
  enqueued tr' = [].
Proof.
  intros Hinv Hsd Hreach.
  induction Hreach as [|tr1 sys1 a sys2 ev Hreach IH Hstep]; [done|].
  destruct IH as (Hsd1 & Hlen1 & Henq1).
  pose proof (reach_from_Inv n tr0 sys tr1 sys1 Hinv Hreach) as [Hc _ _ _].
  destruct (flag_up_step sys1 ev sys2 (sys_step_sound _ _ _ _ Hstep) Hc Hsd1)
    as (Hsd2 & Hlen2 & Henq2).
  split; [done|]. split; [lia|].
  by rewrite enqueued_snoc, Henq1, Henq2.
Qed.

(** ** Where the writer waits, and how it gets to its return *)

(** The writer waits in two places only: at the range over the open empty
    queue, and in the call of the sink while the sink does not return. *)
Lemma writer_waits_only_on_the_queue_and_on_the_sink ans sys w :
  logWriter sys = Some w -> panicked sys = false ->
  sys_step (Writer ans) sys = None ->
  (w = WRange /\ ch_items (messages (vars sys)) = [] /\
   messages_closed (vars sys) = false) \/
  (exists msg, w = WWrite msg /\ ans = Blocks).
Proof.
  intros Hw Hp. unfold sys_step. rewrite Hp, Hw.
  destruct w as [|msg|msg|msg| |]; simpl; try done.
  - unfold chan_recv. destruct (ch_items (messages (vars sys))); [|done].
    destruct (messages_closed (vars sys)); [done|]. intros _. by left.
  - destruct ans as [ok|]; [done|]. intros _. right. by exists msg.
  - by destruct (wg (vars sys) - 1 <? 0).
Qed.

Lemma run_app sched1 sched2 sys sys1 tr1 :
  run sched1 sys = Some (sys1, tr1) ->
  run (sched1 ++ sched2) sys =
  match run sched2 sys1 with
  | Some (sys2, tr2) => Some (sys2, tr1 ++ tr2)
  | None => None
  end.
Proof.
  revert sys sys1 tr1.
  induction sched1 as [|a sched1 IH]; intros sys sys1 tr1; simpl.
  - intros; simplify_eq. simpl. by destruct (run sched2 sys1) as [[? ?]|].
  - destruct (sys_step a sys) as [[sys' ev]|]; [|done].
    destruct (run sched1 sys') as [[sys'' evs]|] eqn:Hrun; [|done].
    intros; simplify_eq. rewrite (IH _ _ _ Hrun).
    by destruct (run sched2 sys1) as [[? ?]|].
Qed.

(** If the sink returns from each call, with an error or without, the
    writer gets to its return once the queue is closed; the calls and the
    drains stay where they are. *)
Lemma writer_returns oks :
  forall sys,
    Inv_control sys -> panicked sys = false ->
    messages_closed (vars sys) = true ->
    length oks = writer_steps_left sys ->
    exists sys' tr',
      run (answers oks) sys = Some (sys', tr') /\
      logWriter sys' = None /\ panicked sys' = false /\
      producers sys' = producers sys /\ drainers sys' = drainers sys.
Proof.
  induction oks as [|ok oks IH]; intros sys Hc Hpk Hcl Hk.
  - exists sys, []. split; [done|]. split; [|done].
    unfold writer_steps_left in Hk. simpl in Hk.
    destruct (logWriter sys) as [[]|]; try done; lia.
  - assert (Hstep : exists sys1 ev,
               sys_step (Writer (Returns ok)) sys = Some (sys1, ev) /\
               panicked sys1 = false /\
               messages_closed (vars sys1) = true /\
               length oks = writer_steps_left sys1 /\
               producers sys1 = producers sys /\
               drainers sys1 = drainers sys).
    { destruct Hc as [_ _ _ _ _ _ _ Hwg _ _].
      unfold sys_step, writer_steps_left in *. rewrite Hpk.
      destruct sys as [s ps w ds pk]. simpl in *.
      destruct w as [[|msg|msg|msg| |]|]; simpl in *; try lia.
      - unfold chan_recv.
        destruct (ch_items (messages s)) as [|msg rest] eqn:Hq.
        + rewrite Hcl. eexists _, _. split; [done|]. simpl. split; [done|].
          split; [done|]. simpl in Hk. split; [lia|done].
        + eexists _, _. split; [done|]. simpl. split; [done|].
          split; [done|]. simpl in Hk. split; [lia|done].
      - eexists _, _. split; [done|]. simpl. autorewrite with fields.
        split; [done|]. split; [done|]. split; [lia|done].
      - eexists _, _. split; [done|]. simpl. autorewrite with fields.
        split; [done|]. split; [done|]. split; [lia|done].
      - eexists _, _. split; [done|]. simpl. autorewrite with fields.
        split; [done|]. split; [done|]. split; [lia|done].
      - eexists _, _. split; [done|]. simpl. autorewrite with fields.
        split; [done|]. split; [done|]. split; [lia|done].
      - rewrite Hwg. simpl. eexists _, _. split; [done|]. simpl.
        split; [done|]. split; [done|]. split; [lia|done]. }
    destruct Hstep as (sys1 & ev & Hstep & Hpk1 & Hcl1 & Hk1 & Hps1 & Hds1).
    destruct (IH sys1) as (sys' & tr' & Hrun & Hw & Hp & Hps & Hds); try done.
    { eapply Inv_control_step; [|exact Hc]. by eapply sys_step_sound. }
    exists sys', (ev :: tr'). unfold answers in *. simpl. rewrite Hstep, Hrun.
    split; [done|]. split; [done|]. split; [done|]. split; congruence.
Qed.

(** What the writer is about to hand to the sink holds an entry and its
    terminator: the first byte that [write] takes the address of exists. *)
Lemma message_to_write_is_terminated n sock tr sys msg :
  reach_from (boot_with n sock) tr sys ->
  logWriter sys = Some (WWrite msg) ->
  exists e, buf (buffer (deref msg (vars sys))) = e +:+ NUL /\
            level (deref msg (vars sys)) = LOG_DEBUG.
Proof.
  intros Hreach Hw. destruct (reach_Inv n sock tr sys Hreach) as [_ _ _ Ht].
  destruct Ht as [Hfifo Hcont _ _].
  assert (Hin : In (msg, deref msg (vars sys)) (enqueued tr)).
  { rewrite Hfifo. apply in_or_app. right. unfold pending. rewrite Hw.
    simpl. by left. }
  unfold enqueued in Hin. apply in_flat_map in Hin as (ev & Hev & Hin).
  destruct ev; simpl in Hin; try done.
  destruct Hin as [Hin|[]]. simplify_eq.
  eexists. by eapply Hcont.
Qed.

(** What a call has queued is its entry and the terminator, at the level
    of Debug: the free message it took had an empty buffer. *)
Lemma queued_message_is_entry_and_terminator n sock tr sys msg e m :
  reach_from (boot_with n sock) tr sys ->
  In (EvEnqueue msg e m) tr ->
  buf (buffer m) = e +:+ NUL /\ level m = LOG_DEBUG.
Proof.
  intros Hreach Hin. destruct (reach_Inv n sock tr sys Hreach) as [_ _ _ Ht].
  by eapply (it_content tr sys Ht).
Qed.

(** ** After the flag *)

(** C4.  In a state of the process in which [shuttingDown] is set: a call of
    queueMsgDirect returns [ErrUnavailable] and leaves every variable as it
    is, so the pending queue too; a call that starts there is this one step;
    and in whatever state the process gets to from there the flag is still
    set, the pending queue is no longer than it was, and nothing was
    queued on the way. *)
Theorem after_the_flag_calls_are_unavailable
    (n : nat) (sock : option Conn) (tr : list event) (sys : System) :
  reach_from (boot_with n sock) tr sys ->
  shuttingDown (vars sys) = true ->
  (forall e, queueMsgDirect e (vars sys) = (vars sys, Ret (Some ErrUnavailable))) /\
  (forall e sys' ev,
      sys_step (NewCall e) sys = Some (sys', ev) ->
      ev = EvReturn e (Some ErrUnavailable) /\ sys' = sys) /\
  (forall tr' sys',
      reach_from sys tr' sys' ->
      shuttingDown (vars sys') = true /\
      (length (ch_items (messages (vars sys'))) <=
       length (ch_items (messages (vars sys))))%nat /\
      enqueued tr' = []).
Proof.
  intros Hreach Hsd. split; [|split].
  - intros e. by apply queueMsgDirect_unavailable.
  - intros e sys' ev. unfold sys_step, producer_call.
    destruct sys as [s ps w ds pk]. simpl in *.
    destruct pk; [done|]. destruct (mux_locked s); [done|].
    rewrite Hsd. simpl. intros; by simplify_eq.
  - intros tr' sys' Hreach'.
    eapply flag_up_reach; [|done|done]. by eapply reach_Inv.
Qed.

(** ** The count of the messages *)

(** C6.  In every state of a process of [n] messages: the messages in the
    free channel, in the pending queue and in the hands of the calls and of
    the writer are the [n] messages of init, each in one place, so the three
    counts add up to [n] (and to no more than [n]); a call that stands at
    the select on [messages] finds the queue open and with room, and returns
    nil from there; no call stands on the branch of the full queue, and no
    call has returned [ErrLogFullBuf]. *)
Theorem messages_are_counted_and_queue_never_full
    (n : nat) (sock : option Conn) (tr : list event) (sys : System) :
  reach_from (boot_with n sock) tr sys ->
  all_messages sys ≡ₚ seq 0 n /\
  NoDup (all_messages sys) /\
  (length (ch_items (freeMessages (vars sys)))
   + length (ch_items (messages (vars sys)))
   + length (in_flight sys) = n)%nat /\
  (length (ch_items (freeMessages (vars sys)))
   + length (ch_items (messages (vars sys)))
   + length (in_flight sys) <= n)%nat /\
  ch_cap (messages (vars sys)) = n /\
  (forall l1 msg e l2,
      producers sys = l1 ++ PEnqueue msg e :: l2 ->
      messages_closed (vars sys) = false /\
      (length (ch_items (messages (vars sys))) < ch_cap (messages (vars sys)))%nat /\
      snd (enqueue msg (vars sys)) = Ret None) /\
  (forall msg e, ~ In (PRelease msg e) (producers sys)) /\
  (forall e, ~ In (EvReturn e (Some ErrLogFullBuf)) tr).
Proof.
  intros Hreach. destruct (reach_Inv n sock tr sys Hreach) as [Hc Hp _ Ht].
  destruct Hp as [Hperm Hcf Hcm Hlen Hnr].
  destruct Hc as [_ _ _ Hfl _ _ Hcl _ _ _].
  destruct Ht as [_ _ _ Hnf].
  pose proof (perm_length_seq _ _ Hperm) as Hcount.
  unfold all_messages in Hcount. rewrite !length_app in Hcount.
  split; [done|]. split; [rewrite Hperm; apply NoDup_seq|].
  split; [lia|]. split; [lia|]. split; [done|].
  split; [|by split].
  intros l1 msg e l2 Hps.
  assert (Hopen : messages_closed (vars sys) = false).
  { destruct (messages_closed (vars sys)) eqn:Hclosed; [|done].
    specialize (Hfl (Hcl eq_refl)). rewrite Hps in Hfl.
    by destruct (middle_not_nil l1 l2 (PEnqueue msg e)). }
  assert (Hroom : (length (ch_items (messages (vars sys))) <
                   ch_cap (messages (vars sys)))%nat).
  { unfold in_flight in Hcount. rewrite Hps in Hcount.
    rewrite flat_map_app, !length_app in Hcount. simpl in Hcount. lia. }
  split; [done|]. split; [done|].
  by rewrite enqueue_room.
Qed.

(** ** A second call of drainTheQueue *)

(** C7, as the code has it.  In a state of the process in which a call of
    drainTheQueue has returned, the queue is closed, the flag is set and no
    call holds the read lock; a further call of drainTheQueue, run from
    there, takes the lock when it is free, sets the flag again and panics on
    [close(messages)] with the lock still taken: it neither returns nor
    reports an error, and it is the same at each try.  In the interleaved
    process the step of a drain that stands at [close(messages)] is this
    panic. *)
Theorem drainTheQueue_again_panics
    (n : nat) (sock : option Conn) (tr : list event) (sys : System) :
  reach_from (boot_with n sock) tr sys ->
  In EvDrainReturn tr ->
  messages_closed (vars sys) = true /\
  shuttingDown (vars sys) = true /\
  mux_readers (vars sys) = 0%nat /\
  drainTheQueue (vars sys) =
    (if mux_locked (vars sys) then None
     else Some (set_shuttingDown true (set_mux_locked true (vars sys)),
                GoPanic "close of closed channel")) /\
  (forall d1 d2,
      drainers sys = d1 ++ DClose :: d2 -> panicked sys = false ->
      sys_step (Drainer (length d1)) sys =
      Some (crash sys, EvPanic "close of closed channel")).
Proof.
  intros Hreach Hin. destruct (reach_Inv n sock tr sys Hreach) as [Hc _ _ Ht].
  destruct Hc as [Hr _ _ Hfl _ _ Hcl _ Hpl _].
  destruct Ht as [_ _ Hret _]. specialize (Hret Hin).
  rewrite Hret in Hpl. destruct (Hpl eq_refl) as [Hclosed _].
  pose proof (Hcl Hclosed) as Hsd. pose proof (Hfl Hsd) as Hps.
  rewrite Hps in Hr. simpl in Hr.
  split; [done|]. split; [done|]. split; [done|]. split.
  - unfold drainTheQueue. simpl. rewrite Hr.
    destruct (mux_locked (vars sys)); simpl; [done|].
    by rewrite Hclosed.
  - intros d1 d2 Hds Hpk. unfold sys_step. rewrite Hpk, Hds.
    rewrite list_lookup_middle by done. simpl. by rewrite Hclosed.
Qed.

(** * More of the pipeline

    What follows goes beyond the properties above: the counters, the sinks,
    the panics, the capacity kept in the pool and the end of a drain. *)

(** ** The counters and the log of syslog, function by function *)

Lemma render_keeps_logCount msg e s : logCount (render msg e s) = logCount s.
Proof. unfold render, render_nul, render_entry, render_level, update_msg; by destruct s. Qed.
Lemma render_keeps_dropCount msg e s : dropCount (render msg e s) = dropCount s.
Proof. unfold render, render_nul, render_entry, render_level, update_msg; by destruct s. Qed.
Lemma render_keeps_errCount msg e s : errCount (render msg e s) = errCount s.
Proof. unfold render, render_nul, render_entry, render_level, update_msg; by destruct s. Qed.
Lemma render_keeps_syslog msg e s : syslog (render msg e s) = syslog s.
Proof. unfold render, render_nul, render_entry, render_level, update_msg; by destruct s. Qed.

Lemma recycle_keeps_logCount msg s : logCount (recycle msg s) = logCount s.
Proof. unfold recycle, update_msg; by destruct (_ >? _), s. Qed.
Lemma recycle_keeps_dropCount msg s : dropCount (recycle msg s) = dropCount s.
Proof. unfold recycle, update_msg; by destruct (_ >? _), s. Qed.
Lemma recycle_keeps_errCount msg s : errCount (recycle msg s) = errCount s.
Proof. unfold recycle, update_msg; by destruct (_ >? _), s. Qed.
Lemma recycle_keeps_syslog msg s : syslog (recycle msg s) = syslog s.
Proof. unfold recycle, update_msg; by destruct (_ >? _), s. Qed.

Lemma sink_write_keeps_logCount ok msg s : logCount (sink_write ok msg s) = logCount s.
Proof. unfold sink_write, write, writeCustomSocket; by destruct (customSock s), ok. Qed.
Lemma sink_write_keeps_dropCount ok msg s : dropCount (sink_write ok msg s) = dropCount s.
Proof. unfold sink_write, write, writeCustomSocket; by destruct (customSock s), ok. Qed.

Lemma freeMsg_keeps_logCount msg s : logCount (fst (freeMsg msg s)) = logCount s.
Proof. unfold freeMsg; by destruct (chan_send msg (freeMessages s)). Qed.
Lemma freeMsg_keeps_dropCount msg s : dropCount (fst (freeMsg msg s)) = dropCount s.
Proof. unfold freeMsg; by destruct (chan_send msg (freeMessages s)). Qed.
Lemma freeMsg_keeps_syslog msg s : syslog (fst (freeMsg msg s)) = syslog s.
Proof. unfold freeMsg; by destruct (chan_send msg (freeMessages s)). Qed.

Lemma logWriter_exit_keeps_logCount  s : logCount (logWriter_exit s) = logCount s.
Proof. unfold logWriter_exit; by destruct (customSock s). Qed.
Lemma logWriter_exit_keeps_dropCount  s : dropCount (logWriter_exit s) = dropCount s.
Proof. unfold logWriter_exit; by destruct (customSock s). Qed.
Lemma logWriter_exit_keeps_errCount  s : errCount (logWriter_exit s) = errCount s.
Proof. unfold logWriter_exit; by destruct (customSock s). Qed.
Lemma logWriter_exit_keeps_syslog  s : syslog (logWriter_exit s) = syslog s.
Proof. unfold logWriter_exit; by destruct (customSock s). Qed.

Lemma SetLogName_keeps_logCount p ok s : logCount (fst (SetLogName p ok s)) = logCount s.
Proof. unfold SetLogName; by destruct ok. Qed.
Lemma SetLogName_keeps_dropCount p ok s : dropCount (fst (SetLogName p ok s)) = dropCount s.
Proof. unfold SetLogName; by destruct ok. Qed.
Lemma SetLogName_keeps_syslog p ok s : syslog (fst (SetLogName p ok s)) = syslog s.
Proof. unfold SetLogName; by destruct ok. Qed.

Create Rewrite HintDb counters.
#[local] Hint Rewrite
  render_keeps_logCount render_keeps_dropCount render_keeps_errCount
  render_keeps_syslog recycle_keeps_logCount recycle_keeps_dropCount
  recycle_keeps_errCount recycle_keeps_syslog sink_write_keeps_logCount
  sink_write_keeps_dropCount freeMsg_keeps_logCount freeMsg_keeps_dropCount
  freeMsg_keeps_syslog logWriter_exit_keeps_logCount
  logWriter_exit_keeps_dropCount logWriter_exit_keeps_errCount
  logWriter_exit_keeps_syslog SetLogName_keeps_logCount
  SetLogName_keeps_dropCount SetLogName_keeps_syslog : counters.

(** ** The counters against the trace *)

Lemma atomic_AddUint64_1_count c :
  atomic_AddUint64_1 (Z.of_nat c mod 2 ^ 64) = Z.of_nat (c + 1) mod 2 ^ 64.
Proof.
  unfold atomic_AddUint64_1. rewrite Zplus_mod_idemp_l. f_equal. lia.
Qed.

Lemma count_snoc f tr ev :
  count f (tr ++ [ev]) = (count f tr + (if f ev then 1 else 0))%nat.
Proof. apply filter_length_snoc. Qed.

Lemma length_enqueued_snoc tr ev :
  length (enqueued (tr ++ [ev])) =
  (length (enqueued tr) + length (enqueued_of ev))%nat.
Proof. by rewrite enqueued_snoc, length_app. Qed.

Lemma Inv_counters_step n tr sys ev sys' :
  step sys ev sys' -> Inv_pool n sys ->
  Inv_counters tr sys -> Inv_counters (tr ++ [ev]) sys'.
Proof.
  intros Hstep [Hperm Hcf Hcm Hlen Hnr] [Hlog Hdrop Hcalls Herr].
  pose proof (perm_length_seq _ _ Hperm) as Hcount.
  unfold all_messages, in_flight in *.
  destruct Hstep; simpl in *;
    try (exfalso; eapply Hnr; by apply in_middle);
    try (exfalso; rewrite ?flat_map_app, ?length_app in Hcount;
         simpl in Hcount; lia).
  all: constructor; simpl; autorewrite with fields counters;
    rewrite ?count_snoc, ?length_enqueued_snoc; simpl;
    rewrite ?Nat.add_0_r.
  all: try done.
  all: try (rewrite ?length_app in *; simpl in *; lia).
  all: try (unfold bump_logCount, bump_dropCount; simpl; rewrite ?Hlog, ?Hdrop;
            by apply atomic_AddUint64_1_count).
  all: intros e' err Hin; apply in_snoc in Hin; destruct Hin as [Hin|Hin];
    [ destruct (Herr _ _ Hin); by split | by simplify_eq ].
Qed.

(** ** The sinks against the trace *)

Lemma sunk_snoc tr ev : sunk (tr ++ [ev]) = sunk tr ++ sunk_of ev.
Proof. unfold sunk. rewrite flat_map_app. simpl. by rewrite app_nil_r. Qed.

Lemma sent_ok_snoc tr ev : sent_ok (tr ++ [ev]) = sent_ok tr ++ sent_of ev.
Proof. unfold sent_ok. rewrite flat_map_app. simpl. by rewrite app_nil_r. Qed.

Lemma Inv_sinks_step sock tr sys ev sys' :
  step sys ev sys' -> Inv_sinks sock tr sys -> Inv_sinks sock (tr ++ [ev]) sys'.
Proof.
  intros Hstep Hinv. unfold Inv_sinks in *.
  destruct sock as [k0|].
  - destruct Hinv as [(k & Hk & Hsent) Hsys].
    destruct Hstep; simpl in *; autorewrite with fields counters;
      rewrite sent_ok_snoc; simpl; rewrite ?app_nil_r;
      try (split; [by exists k | done]).
    + (* the write *)
      unfold sink_write, writeCustomSocket. rewrite Hk.
      destruct ok; simpl; rewrite ?app_nil_r.
      * split; [|done]. eexists. split; [done|]. simpl.
        by rewrite Hsent, map_app, app_assoc.
      * split; [by exists k | done].
    + (* the close of the socket *)
      unfold logWriter_exit. rewrite Hk. simpl.
      split; [|done]. eexists. split; [done|]. done.
  - destruct Hinv as [Hk Hsys].
    destruct Hstep; simpl in *; autorewrite with fields counters;
      rewrite sunk_snoc; simpl; rewrite ?app_nil_r;
      try (by split).
    + (* the write *)
      unfold sink_write, write. rewrite Hk.
      destruct ok; simpl; (split; [done|]);
        by rewrite Hsys, map_app.
    + (* after the loop *)
      unfold logWriter_exit. rewrite Hk. by split.
Qed.

(** ** The drains against the trace *)

Lemma past_close_elsewhere (d1 d2 : list drainer) (x y d : drainer) :
  In d (d1 ++ x :: d2) -> past_close d = true -> past_close x = false ->
  In d (d1 ++ y :: d2).
Proof.
  rewrite !in_app_iff. simpl. intros [H|[<-|H]] Hd Hx; auto. congruence.
Qed.

Lemma Inv_drains_step tr sys ev sys' :
  step sys ev sys' -> Inv_control sys ->
  Inv_drains tr sys -> Inv_drains (tr ++ [ev]) sys'.
Proof.
  intros Hstep [_ _ _ Hfl _ _ Hcl Hwg _ _] [Hcalls Hclosed Hpk Hpan].
  destruct Hstep; simpl in *;
    try (exfalso; specialize (Hfl (Hcl ltac:(assumption)));
         by eapply middle_not_nil; eassumption);
    try (exfalso; lia).
  all: constructor; simpl; autorewrite with fields;
    rewrite ?count_snoc; simpl; rewrite ?Nat.add_0_r;
    rewrite ?length_app in *; simpl in *.
  all: try done.
  all: try lia.
  all: try (intros why Hin; apply in_snoc in Hin; destruct Hin as [Hin|Hin];
            [ by destruct (Hpan _ Hin) | by simplify_eq ]).
  - (* a new call of drainTheQueue *)
    intros Hc. destruct (Hclosed Hc) as [(d & Hd & Hp)|Hr]; [left|by right].
    exists d. split; [|done]. apply in_or_app. by left.
  - (* Lock *)
    intros Hc. destruct (Hclosed Hc) as [(d & Hd & Hp)|Hr]; [left|by right].
    exists d. split; [|done]. by eapply past_close_elsewhere.
  - (* the flag *)
    intros Hc. destruct (Hclosed Hc) as [(d & Hd & Hp)|Hr]; [left|by right].
    exists d. split; [|done]. by eapply past_close_elsewhere.
  - (* close *)
    intros _. left. exists DUnlock. split; [apply in_middle | done].
  - (* close of the closed channel *)
    intros _. destruct (Hclosed ltac:(assumption)) as [(d & Hd & Hp)|Hr]; [|lia].
    apply in_app_or in Hd. destruct Hd as [Hd|[<-|Hd]]; [|done|].
    + destruct d1; [done|]. simpl in *. lia.
    + destruct d2; [done|]. simpl in *. lia.
  - (* Unlock *)
    intros _. left. exists DWait. split; [apply in_middle | done].
Qed.

(** ** The capacity kept in the pool *)

Lemma cap_recycle msg s :
  (msg < length (msgArr s))%nat ->
  Buffer_Cap (buffer (deref msg (recycle msg s))) <= MaxFreeMsgSize.
Proof.
  intros Hlt.
  destruct (Z.le_gt_cases (Buffer_Cap (buffer (deref msg s))) MaxFreeMsgSize).
  - by rewrite deref_recycle_small.
  - rewrite deref_recycle_large; [done|done|lia].
Qed.

Lemma Inv_capacity_step n sys ev sys' :
  step sys ev sys' -> Inv_pool n sys -> Inv_capacity sys -> Inv_capacity sys'.
Proof.
  intros Hstep [Hperm Hcf Hcm Hlen Hnr] [Hfree Hwr].
  pose proof (perm_length_seq _ _ Hperm) as Hcount.
  unfold all_messages, in_flight in *.
  destruct Hstep; simpl in *;
    try (exfalso; eapply Hnr; by apply in_middle);
    try (exfalso; rewrite ?flat_map_app, ?length_app in Hcount;
         simpl in Hcount; lia).
  all: try (constructor; simpl; autorewrite with fields;
            [ intros ? ?; same_store s; by apply Hfree
            | intros ? ?; same_store s; by apply Hwr ]).
  - (* a call takes the oldest free message *)
    rename H into Hf. constructor; simpl.
    + intros msg' Hin. same_store s. apply Hfree. rewrite Hf. by right.
    + intros msg' Hw. same_store s. by apply Hwr.
  - (* a call renders into the message it holds *)
    destruct (held_by_producer_once n _ _ l1 l2 _ (PRender msg e) msg eq_refl Hperm)
      as [Hlt Hne].
    constructor; simpl; autorewrite with fields.
    + intros msg' Hin. rewrite deref_render_other; [by apply Hfree|].
      intros ->. eapply Hne; [|reflexivity]. apply in_or_app. by left.
    + intros msg' Hw. subst w. rewrite deref_render_other; [by apply Hwr|].
      intros ->. eapply Hne; [|reflexivity].
      apply in_or_app. right. apply in_or_app. right. apply in_or_app. right.
      by left.
  - (* the writer resets or replaces the buffer *)
    destruct (held_by_writer_once n _ _ ps msg Hperm) as [Hlt Hne].
    constructor; simpl; autorewrite with fields.
    + intros msg' Hin. rewrite deref_recycle_other; [by apply Hfree|].
      intros ->. eapply Hne; [|reflexivity]. apply in_or_app. by left.
    + intros msg' Hw. simplify_eq. apply cap_recycle. lia.
  - (* the writer releases the message *)
    rewrite ?length_app in Hcount. simpl in Hcount.
    rewrite freeMsg_room by lia.
    constructor; simpl.
    + intros msg' Hin. same_store s. apply in_app_or in Hin.
      destruct Hin as [Hin|[<-|[]]]; [by apply Hfree | by apply Hwr].
    + done.
Qed.

(** ** The four of them in every state of the process *)

Lemma more_boot n sock :
  Inv_counters [] (boot_with n sock) /\ Inv_sinks sock [] (boot_with n sock) /\
  Inv_drains [] (boot_with n sock) /\ Inv_capacity (boot_with n sock).
Proof.
  pose proof (boot_with_vars n sock) as Hv.
  split; [|split; [|split]].
  - constructor; rewrite ?Hv; simpl; try done.
  - unfold Inv_sinks. rewrite Hv. destruct sock as [k0|]; simpl.
    + split; [|done]. exists k0. by rewrite app_nil_r.
    + done.
  - constructor; rewrite ?Hv; simpl; try done.
  - constructor.
    + intros msg _. rewrite (deref_replicate_zero msg n); [|by rewrite Hv].
      unfold MaxFreeMsgSize. simpl. lia.
    + done.
Qed.

Lemma reach_more n sock tr sys :
  reach_from (boot_with n sock) tr sys ->
  Inv_counters tr sys /\ Inv_sinks sock tr sys /\
  Inv_drains tr sys /\ Inv_capacity sys.
Proof.
  intros Hreach. induction Hreach as [|tr sys a sys' ev Hreach IH Hstep].
  - apply more_boot.
  - destruct IH as (Hcn & Hsk & Hdr & Hcp).
    destruct (reach_Inv n sock tr sys Hreach) as [Hc Hp _ _].
    apply sys_step_sound in Hstep.
    split; [by eapply Inv_counters_step|].
    split; [by eapply Inv_sinks_step|].
    split; [by eapply Inv_drains_step|].
    by eapply Inv_capacity_step.
Qed.

(** ** init *)

Lemma init_release_until_full ids :
  forall s,
    ch_items (freeMessages (init_release ids s)) =
      ch_items (freeMessages s)
      ++ take (ch_cap (freeMessages s) - length (ch_items (freeMessages s))) ids /\
    ch_cap (freeMessages (init_release ids s)) = ch_cap (freeMessages s) /\
    errCount (init_release ids s) =
      (if (ch_cap (freeMessages s) - length (ch_items (freeMessages s))
           <? length ids)%nat
       then atomic_AddUint64_1 (errCount s) else errCount s) /\
    msgArr (init_release ids s) = msgArr s /\
    messages (init_release ids s) = messages s.
Proof.
  induction ids as [|i ids IH]; intros s.
  - simpl. rewrite take_nil, app_nil_r. done.
  - simpl. unfold freeMsg, chan_send.
    destruct (Nat.ltb_spec (length (ch_items (freeMessages s)))
                (ch_cap (freeMessages s))) as [Hlt|Hge].
    + destruct (IH (set_freeMessages
                      {| ch_cap := ch_cap (freeMessages s);
                         ch_items := ch_items (freeMessages s) ++ [i] |} s))
        as (Hitems & Hcap & Herr & Harr & Hq).
      simpl in *. rewrite length_app in *. simpl in *.
      replace (ch_cap (freeMessages s) - length (ch_items (freeMessages s)))%nat
        with (S (ch_cap (freeMessages s)
                 - (length (ch_items (freeMessages s)) + 1)))%nat by lia.
      simpl. rewrite Hitems, <- app_assoc. simpl.
      split; [done|]. split; [done|]. split; [|done].
      rewrite Herr.
      destruct (Nat.ltb_spec
                  (ch_cap (freeMessages s)
                   - (length (ch_items (freeMessages s)) + 1)) (length ids));
        destruct (Nat.ltb_spec
                    (S (ch_cap (freeMessages s)
                        - (length (ch_items (freeMessages s)) + 1)))
                    (S (length ids))); (done || lia).
    + replace (ch_cap (freeMessages s) - length (ch_items (freeMessages s)))%nat
        with 0%nat by lia.
      simpl. by rewrite app_nil_r.
Qed.

(** X1.  init puts the messages of the array into the free channel in the
    order of their index, each once, and counts no error: after it the free
    channel holds [0 .. n-1], the pending queue is empty and open, the
    counters are zero, the flag is down, no socket is set, every buffer is
    empty with no storage, and the WaitGroup stands at one for the writer.
    Its loop, on any array and any free channel, releases as many messages
    as the channel has room for; on the first one that does not fit it
    counts one error and stops, so that the rest of the array is not
    released and no second error is counted. *)
Theorem init_fills_the_free_channel_in_order :
  (forall n,
      freeMessages (init_with n) = {| ch_cap := n; ch_items := seq 0 n |} /\
      messages (init_with n) = make_chan n /\
      messages_closed (init_with n) = false /\
      shuttingDown (init_with n) = false /\
      customSock (init_with n) = None /\
      logCount (init_with n) = 0 /\
      dropCount (init_with n) = 0 /\
      errCount (init_with n) = 0 /\
      wg (init_with n) = 1 /\
      (forall msg, deref msg (init_with n) = logMessage_zero)) /\
  (forall ids s,
      ch_items (freeMessages (init_release ids s)) =
        ch_items (freeMessages s)
        ++ take (ch_cap (freeMessages s) - length (ch_items (freeMessages s))) ids /\
      errCount (init_release ids s) =
        (if (ch_cap (freeMessages s) - length (ch_items (freeMessages s))
             <? length ids)%nat
         then atomic_AddUint64_1 (errCount s) else errCount s) /\
      msgArr (init_release ids s) = msgArr s /\
      messages (init_release ids s) = messages s).
Proof.
  split.
  - intros n. rewrite init_with_eq. simpl. repeat split.
    intros msg. by apply (deref_replicate_zero msg n).
  - intros ids s.
    destruct (init_release_until_full ids s) as (H1 & _ & H2 & H3 & H4).
    done.
Qed.


(** ** What the sinks have received, entry by entry *)

Lemma cstring_app_NUL e : cstring (e +:+ NUL) = cstring e.
Proof.
  induction e as [|c e IH]; [done|].
  change (cstring (String c (e +:+ NUL)) = cstring (String c e)).
  simpl. by rewrite IH.
Qed.

Lemma cstring_NUL_free e : NUL_free e = true -> cstring e = e.
Proof.
  induction e as [|c e IH]; [done|]. simpl.
  destruct (Ascii.eqb c Ascii.zero); simpl; [done|].
  intros H. by rewrite IH.
Qed.

Lemma cstring_cut a b : NUL_free a = true -> cstring (a +:+ NUL +:+ b) = a.
Proof.
  induction a as [|c a IH]; [done|].
  change (NUL_free (String c a) = true ->
          cstring (String c (a +:+ NUL +:+ b)) = String c a).
  simpl. destruct (Ascii.eqb c Ascii.zero); simpl; [done|].
  intros H. by rewrite IH.
Qed.

Lemma enqueued_hold_their_entries tr :
  (forall msg e m, In (EvEnqueue msg e m) tr ->
                   buf (buffer m) = e +:+ NUL /\ level m = LOG_DEBUG) ->
  Forall2 holds_entry (enqueued tr) (enqueued_entries tr).
Proof.
  induction tr as [|ev tr IH]; intros Hc; [constructor|].
  assert (Hrest : Forall2 holds_entry (enqueued tr) (enqueued_entries tr)).
  { apply IH. intros msg e m Hin. apply (Hc msg e m). by right. }
  destruct ev; try exact Hrest.
  unfold enqueued, enqueued_entries. simpl. constructor; [|exact Hrest].
  unfold holds_entry. simpl. eapply Hc. left. reflexivity.
Qed.

Lemma sunk_written tr : sunk tr = map snd (written tr).
Proof.
  induction tr as [|ev tr IH]; [done|].
  unfold sunk, written in *. simpl. rewrite map_app, <- IH. by destruct ev.
Qed.

Lemma sent_ok_results tr :
  sent_ok tr =
  map (fun x => snd (fst x))
      (List.filter snd (zip (written tr) (sink_results tr))).
Proof.
  induction tr as [|ev tr IH]; [done|].
  unfold sent_ok, written, sink_results in *.
  destruct ev; try exact IH.
  simpl. destruct ok; simpl; by rewrite IH.
Qed.

Lemma length_sink_results tr : length (sink_results tr) = length (written tr).
Proof.
  induction tr as [|ev tr IH]; [done|].
  unfold written, sink_results in *. simpl. rewrite !length_app, IH.
  by destruct ev.
Qed.

Lemma syslog_calls_of_entries (ws ps : list (nat * logMessage)) :
  forall (es : list string) (rs : list bool),
    Forall2 holds_entry (ws ++ ps) es -> length rs = length ws ->
    map syslog_call (map snd ws) =
    map (fun x => (15, cstring (fst x))) (zip es rs).
Proof.
  induction ws as [|w ws IH]; intros es rs Hall Hlen.
  - destruct rs; [|done]. by destruct es.
  - destruct rs as [|r rs]; [done|]. simpl in Hall.
    inversion Hall as [|? e ? es' [Hbuf Hlev] Hrest]; subst. simpl.
    f_equal; [|apply IH; [done | simpl in Hlen; lia]].
    unfold syslog_call, Buffer_Bytes. rewrite Hbuf, Hlev, cstring_app_NUL.
    done.
Qed.

Lemma socket_frames_of_entries (ws ps : list (nat * logMessage)) :
  forall (es : list string) (rs : list bool),
    Forall2 holds_entry (ws ++ ps) es -> length rs = length ws ->
    map socket_frame (map (fun x => snd (fst x)) (List.filter snd (zip ws rs))) =
    map (fun x => "<15>" +:+ fst x +:+ NUL) (List.filter snd (zip es rs)).
Proof.
  induction ws as [|w ws IH]; intros es rs Hall Hlen.
  - destruct rs; [|done]. by destruct es.
  - destruct rs as [|r rs]; [done|]. simpl in Hall.
    inversion Hall as [|? e ? es' [Hbuf Hlev] Hrest]; subst.
    assert (Hrec := IH es' rs Hrest ltac:(simpl in Hlen; lia)).
    simpl. destruct r; simpl; [|exact Hrec].
    f_equal; [|exact Hrec].
    unfold socket_frame, Buffer_Bytes. rewrite Hbuf, Hlev. done.
Qed.

(** X2.  With no custom socket, csyslog has been called once for each
    message that the writer has taken to [write], in the order in which the
    calls of queueMsgDirect queued them, and for nothing else: each call has
    the priority [LOG_USER|LOG_DEBUG] = 15 and, as its text, the entry of the
    call up to its first NUL byte, whether the call to csyslog has reported
    an error or not: the whole entry when it has no NUL byte, and what
    stands before the first one when it has. *)
Theorem syslog_gets_every_written_entry_in_order
    (n : nat) (tr : list event) (sys : System) :
  reach_from (boot_with n None) tr sys ->
  customSock (vars sys) = None /\
  syslog (vars sys) =
    map (fun x => (15, cstring (fst x))) (written_entries tr) /\
  length (written_entries tr) = length (written tr) /\
  (forall a b, NUL_free a = true ->
               cstring a = a /\ cstring (a +:+ NUL +:+ b) = a).
Proof.
  intros Hreach.
  destruct (reach_Inv n None tr sys Hreach) as [_ _ _ [Hfifo Hcont _ _]].
  destruct (reach_more n None tr sys Hreach) as (_ & [Hsock Hlog] & _ & _).
  pose proof (enqueued_hold_their_entries tr Hcont) as Hall.
  rewrite Hfifo in Hall.
  split; [done|]. split; [|split].
  - rewrite Hlog, sunk_written. unfold written_entries.
    eapply syslog_calls_of_entries; [exact Hall | apply length_sink_results].
  - unfold written_entries. rewrite length_zip.
    apply Forall2_length in Hall. rewrite length_app in Hall.
    rewrite length_sink_results. lia.
  - intros a b Ha. split; [by apply cstring_NUL_free | by apply cstring_cut].
Qed.

(** X3.  With a custom socket set before the pipeline runs, syslog is never
    called, and the writes on the socket that returned no error are, in the
    order of the queueing, one frame for each entry whose write the sink
    accepted: the bytes ["<15>"], the entry, and the terminator byte, with
    nothing between two frames and no frame twice. *)
Theorem socket_gets_one_frame_for_each_accepted_entry
    (n : nat) (k0 : Conn) (tr : list event) (sys : System) :
  reach_from (boot_with n (Some k0)) tr sys ->
  syslog (vars sys) = [] /\
  length (written_entries tr) = length (written tr) /\
  exists k,
    customSock (vars sys) = Some k /\
    sent k = sent k0
             ++ map (fun x => "<15>" +:+ fst x +:+ NUL)
                    (List.filter snd (written_entries tr)).
Proof.
  intros Hreach.
  destruct (reach_Inv n (Some k0) tr sys Hreach) as [_ _ _ [Hfifo Hcont _ _]].
  destruct (reach_more n (Some k0) tr sys Hreach)
    as (_ & [(k & Hsock & Hsent) Hlog] & _ & _).
  pose proof (enqueued_hold_their_entries tr Hcont) as Hall.
  rewrite Hfifo in Hall.
  split; [done|]. split.
  - unfold written_entries. rewrite length_zip.
    apply Forall2_length in Hall. rewrite length_app in Hall.
    rewrite length_sink_results. lia.
  - exists k. split; [done|]. rewrite Hsent. f_equal.
    rewrite sent_ok_results. unfold written_entries.
    eapply socket_frames_of_entries; [exact Hall | apply length_sink_results].
Qed.


(** ** Every queued message is written once *)

(** C3.  In every state of a process of [n] messages ([n] is [NumMessages]
    for the package), with [tr] what was seen up to it.  The messages that
    calls have queued are, in the order of their queueing and each once,
    the messages that the writer has handed to the sink followed by the
    message it holds unwritten and the content of the queue, with the bytes
    they had when queued.  The sink holds what the writer has handed to it
    and nothing else: with no socket, csyslog was called once for each of
    these messages, in that order, with [LOG_USER|level] and the bytes of
    the message up to the first NUL; with a socket, the writes that the
    socket accepted are, in that order, the frames of the messages whose
    write the sink answered without an error, and syslog was not called.
    The writer waits in two places only, at the range over the open empty
    queue and in a call of the sink that does not return; once the queue is
    closed, if the sink returns from each call (with an error or without),
    the writer gets in [writer_steps_left] steps to its return with every
    queued message handed to the sink.  Once a call of drainTheQueue has
    returned, the writer goroutine has returned and made the WaitGroup zero,
    the queue is closed and empty, every queued message has been handed to
    the sink once (so csyslog has been called for each of them, or the
    socket has the frame of each one it accepted), and the socket, if one
    is set, is closed. *)
Theorem drain_returns_after_every_message_is_written
    (n : nat) (sock : option Conn) (tr : list event) (sys : System) :
  reach_from (boot_with n sock) tr sys ->
  enqueued tr = written tr ++ pending sys /\
  (sunk tr = map snd (written tr) /\
   length (sink_results tr) = length (written tr) /\
   sent_ok tr =
     map (fun x => snd (fst x))
         (List.filter snd (zip (written tr) (sink_results tr))) /\
   match sock with
   | None =>
       customSock (vars sys) = None /\
       syslog (vars sys) = map syslog_call (map snd (written tr))
   | Some k0 =>
       syslog (vars sys) = [] /\
       exists k, customSock (vars sys) = Some k /\
                 sent k = sent k0 ++ map socket_frame (sent_ok tr)
   end) /\
  (forall ans w, logWriter sys = Some w -> panicked sys = false ->
     sys_step (Writer ans) sys = None ->
     (w = WRange /\ ch_items (messages (vars sys)) = [] /\
      messages_closed (vars sys) = false) \/
     (exists msg, w = WWrite msg /\ ans = Blocks)) /\
  (panicked sys = false -> messages_closed (vars sys) = true ->
   forall oks, length oks = writer_steps_left sys ->
     exists sys' tr',
       run (answers oks) sys = Some (sys', tr') /\
       logWriter sys' = None /\
       written (tr ++ tr') = enqueued tr /\
       match sock with
       | None =>
           syslog (vars sys') = map syslog_call (map snd (enqueued tr))
       | Some k0 =>
           exists k, customSock (vars sys') = Some k /\
                     sent k = sent k0 ++ map socket_frame (sent_ok (tr ++ tr'))
       end) /\
  (In EvDrainReturn tr ->
     logWriter sys = None /\
     wg (vars sys) = 0 /\
     messages_closed (vars sys) = true /\
     ch_items (messages (vars sys)) = [] /\
     written tr = enqueued tr /\
     match sock with
     | None => syslog (vars sys) = map syslog_call (map snd (enqueued tr))
     | Some k0 =>
         exists k, customSock (vars sys) = Some k /\ conn_closed k = true /\
                   sent k = sent k0 ++ map socket_frame (sent_ok tr)
     end).
Proof.
  intros Hreach. pose proof (reach_Inv n sock tr sys Hreach) as Hinv.
  destruct (reach_more n sock tr sys Hreach) as (_ & Hsink & _ & _).
  destruct Hinv as [Hc Hp Hb Ht].
  split; [by destruct Ht|].
  split.
  { split; [apply sunk_written|]. split; [apply length_sink_results|].
    split; [apply sent_ok_results|].
    unfold Inv_sinks in Hsink. destruct sock as [k0|].
    - destruct Hsink as [Hk Hlog]. by split.
    - destruct Hsink as [Hk Hlog]. split; [done|]. by rewrite <- sunk_written. }
  split; [intros ans w; apply writer_waits_only_on_the_queue_and_on_the_sink|].
  split.
  - intros Hpk Hcl oks Hk.
    destruct (writer_returns oks sys Hc Hpk Hcl Hk)
      as (sys' & tr' & Hrun & Hw & _).
    exists sys', tr'. split; [done|]. split; [done|].
    pose proof (run_reach _ _ _ _ Hrun) as Hreach'.
    assert (Hsd : shuttingDown (vars sys) = true) by (by apply (ic_closed sys Hc)).
    destruct (flag_up_reach n tr sys tr' sys' (Build_Inv n tr sys Hc Hp Hb Ht)
                Hsd Hreach') as (_ & _ & Hnone).
    destruct (reach_from_Inv n tr sys tr' sys' (Build_Inv n tr sys Hc Hp Hb Ht)
                Hreach') as [Hc' _ _ Ht'].
    destruct Ht' as [Hfifo' _ _ _].
    destruct (ic_past_loop sys' Hc') as [_ Hempty]; [by rewrite Hw|].
    unfold pending in Hfifo'. rewrite Hw, Hempty in Hfifo'. simpl in Hfifo'.
    rewrite app_nil_r in Hfifo'.
    assert (Hall : written (tr ++ tr') = enqueued tr).
    { rewrite <- Hfifo'. unfold enqueued in *. rewrite flat_map_app, Hnone.
      by rewrite app_nil_r. }
    split; [exact Hall|].
    pose proof (reach_from_app _ _ _ _ _ Hreach Hreach') as Hreach2.
    destruct (reach_more n sock _ sys' Hreach2) as (_ & Hsink' & _ & _).
    unfold Inv_sinks in Hsink'. destruct sock as [k0|].
    + by destruct Hsink' as [Hsock _].
    + destruct Hsink' as [_ Hlog]. by rewrite Hlog, sunk_written, Hall.
  - destruct Hc as [_ _ _ _ _ _ _ Hwg Hpl Hpc].
    destruct Ht as [Hfifo _ Hret _].
    intros Hin. specialize (Hret Hin).
    rewrite Hret in Hwg, Hpl, Hpc. simpl in *.
    destruct (Hpl eq_refl) as [Hclosed Hempty].
    assert (Hall : written tr = enqueued tr).
    { rewrite Hfifo. unfold pending. rewrite Hret, Hempty. simpl.
      by rewrite app_nil_r. }
    repeat (split; [done|]).
    unfold Inv_sinks in Hsink. destruct sock as [k0|].
    + destruct Hsink as [(k & Hk & Hsent) _]. exists k.
      split; [done|]. split; [by apply Hpc | done].
    + destruct Hsink as [_ Hlog]. by rewrite Hlog, sunk_written, Hall.
Qed.

(** ** The counters, the errors and the panics over a whole run *)

(** X4.  [logCount] is the number of calls of queueMsgDirect that found the
    flag down and [dropCount] the number of those that found the pool empty
    (both modulo 2^64): a call turned away with [ErrUnavailable] is not
    counted.  Every counted call has queued its message, has dropped it, or
    is still running, and never two of these. *)
Theorem logCount_counts_the_calls_let_in
    (n : nat) (sock : option Conn) (tr : list event) (sys : System) :
  reach_from (boot_with n sock) tr sys ->
  logCount (vars sys) = Z.of_nat (count is_call tr) mod 2 ^ 64 /\
  dropCount (vars sys) = Z.of_nat (count is_drop tr) mod 2 ^ 64 /\
  count is_call tr =
    (length (enqueued tr) + count is_drop tr + length (producers sys))%nat /\
  (count is_drop tr <= count is_call tr)%nat.
Proof.
  intros Hreach.
  destruct (reach_more n sock tr sys Hreach) as ([Hlog Hdrop Hcalls _] & _).
  repeat split; try done. lia.
Qed.

Lemma flag_step tr sys ev sys' :
  step sys ev sys' -> Inv_drains tr sys ->
  (shuttingDown (vars sys) = true -> (0 < count is_drain_call tr)%nat) ->
  shuttingDown (vars sys') = true -> (0 < count is_drain_call (tr ++ [ev]))%nat.
Proof.
  intros Hstep [Hcalls _ _ _] Hflag. rewrite count_snoc.
  destruct Hstep; simpl in *; autorewrite with fields;
    try (intros Hsd; specialize (Hflag Hsd); lia);
    try lia.
  intros _. rewrite length_app in Hcalls. simpl in Hcalls. lia.
Qed.

Lemma flag_reach n sock tr sys :
  reach_from (boot_with n sock) tr sys ->
  shuttingDown (vars sys) = true -> (0 < count is_drain_call tr)%nat.
Proof.
  intros Hreach. induction Hreach as [|tr sys a sys' ev Hreach IH Hstep].
  - by rewrite boot_with_vars.
  - destruct (reach_more n sock tr sys Hreach) as (_ & _ & Hdr & _).
    eapply flag_step; [by eapply sys_step_sound | done | done].
Qed.

(** X5.  In a running pipeline a call of queueMsgDirect returns an error
    only after drainTheQueue has been called and has set the flag, and the
    error is [ErrUnavailable]: neither [ErrLogFullBuf] nor
    [ErrFreeMessageOverflow] nor [ErrFreeMessageUnderflow] is ever returned,
    and as long as drainTheQueue has not been called every call returns
    nil. *)
Theorem queueMsgDirect_fails_only_after_drainTheQueue
    (n : nat) (sock : option Conn) (tr : list event) (sys : System)
    (e : string) (err : error) :
  reach_from (boot_with n sock) tr sys ->
  In (EvReturn e (Some err)) tr ->
  err = ErrUnavailable /\
  shuttingDown (vars sys) = true /\
  (0 < count is_drain_call tr)%nat.
Proof.
  intros Hreach Hin.
  destruct (reach_more n sock tr sys Hreach) as ([_ _ _ Herr] & _).
  destruct (Herr e err Hin) as [-> Hsd].
  split; [done|]. split; [done|]. by eapply flag_reach.
Qed.

(** X6.  The pipeline panics in one case only: drainTheQueue called a
    second time.  Whatever the interleaving of the calls, of the writer and
    of a single drainTheQueue, no goroutine sends on the closed queue, the
    WaitGroup never goes below zero, and the queue is not closed twice; a
    panic that is seen is [close of closed channel], and at least two calls
    of drainTheQueue were made before it. *)
Theorem only_a_second_drainTheQueue_panics
    (n : nat) (sock : option Conn) (tr : list event) (sys : System) :
  reach_from (boot_with n sock) tr sys ->
  (forall why, In (EvPanic why) tr ->
               why = "close of closed channel" /\
               (2 <= count is_drain_call tr)%nat) /\
  (panicked sys = true -> (2 <= count is_drain_call tr)%nat) /\
  ((count is_drain_call tr <= 1)%nat ->
   panicked sys = false /\ forall why, ~ In (EvPanic why) tr) /\
  0 <= wg (vars sys) <= 1.
Proof.
  intros Hreach.
  destruct (reach_more n sock tr sys Hreach) as (_ & _ & [_ _ Hpk Hpanics] & _).
  destruct (reach_Inv n sock tr sys Hreach) as [Hc _ _ _].
  split; [|split; [done|split]].
  - intros why Hin. destruct (Hpanics why Hin) as [-> Hp]. split; [done|].
    by apply Hpk.
  - intros Hle. split.
    + destruct (panicked sys) eqn:Hp; [|done]. specialize (Hpk eq_refl). lia.
    + intros why Hin. destruct (Hpanics why Hin) as [_ Hp].
      specialize (Hpk Hp). lia.
  - rewrite (ic_wg sys Hc). destruct (logWriter sys); lia.
Qed.

(** ** The pool *)

(** X7.  A message that is in the free channel is one of the [n] messages
    of init, its buffer is empty, and the storage that the buffer keeps is
    at most [MaxFreeMsgSize] bytes: the writer has reset it when it was no
    larger and has replaced it by an empty message when it was. *)
Theorem free_messages_are_empty_and_small
    (n : nat) (sock : option Conn) (tr : list event) (sys : System) (msg : nat) :
  reach_from (boot_with n sock) tr sys ->
  In msg (ch_items (freeMessages (vars sys))) ->
  (msg < n)%nat /\
  Buffer_Bytes (buffer (deref msg (vars sys))) = "" /\
  Buffer_Cap (buffer (deref msg (vars sys))) <= MaxFreeMsgSize.
Proof.
  intros Hreach Hin.
  destruct (reach_Inv n sock tr sys Hreach) as [_ [Hperm _ _ _ _] [Hfree _ _] _].
  destruct (reach_more n sock tr sys Hreach) as (_ & _ & _ & [Hcap _]).
  split; [|split; [by apply Hfree | by apply Hcap]].
  assert (Hall : In msg (seq 0 n)).
  { eapply Permutation_in; [exact Hperm|].
    unfold all_messages. apply in_or_app. by left. }
  apply in_seq in Hall. lia.
Qed.

(** X8.  Once a call of drainTheQueue has returned, nothing is left in the
    pipeline: no call of queueMsgDirect is in progress, the writer has
    returned, nothing is pending, and the [n] messages of init are all back
    in the free channel, each once and each with an empty buffer. *)
Theorem after_drainTheQueue_every_message_is_free
    (n : nat) (sock : option Conn) (tr : list event) (sys : System) :
  reach_from (boot_with n sock) tr sys ->
  In EvDrainReturn tr ->
  producers sys = [] /\
  logWriter sys = None /\
  pending sys = [] /\
  ch_items (freeMessages (vars sys)) ≡ₚ seq 0 n /\
  length (ch_items (freeMessages (vars sys))) = n /\
  (forall msg, (msg < n)%nat ->
               Buffer_Bytes (buffer (deref msg (vars sys))) = "").
Proof.
  intros Hreach Hin.
  destruct (reach_Inv n sock tr sys Hreach)
    as [Hc [Hperm _ _ _ _] [Hfree _ _] [_ _ Hret _]].
  specialize (Hret Hin).
  destruct Hc as [_ _ _ Hfl _ _ Hcl _ Hpl _].
  rewrite Hret in Hpl. destruct (Hpl eq_refl) as [Hclosed Hempty].
  pose proof (Hfl (Hcl Hclosed)) as Hps.
  unfold all_messages, in_flight in Hperm.
  rewrite Hps, Hret, Hempty in Hperm. simpl in Hperm.
  rewrite app_nil_r in Hperm.
  split; [done|]. split; [done|]. split.
  { unfold pending. by rewrite Hret, Hempty. }
  split; [done|]. split; [by apply perm_length_seq|].
  intros msg Hlt. apply Hfree. eapply Permutation_in.
  - symmetry. exact Hperm.
  - apply in_seq. lia.
Qed.


(** X9.  In a running pipeline [errCount] goes up, by one (modulo 2^64), in
    two places only: the write of a message that the sink (csyslog or the
    socket) answers with an error, and a call of SetLogName whose openlog
    fails.  The three other places of the file that add to it are never
    executed there: the pending queue always has room for the message of a
    call, the free channel always has room for the message that the writer
    gives back, and the two tests of [err] after the rendering see nil. *)
Theorem errCount_counts_the_failed_writes
    (n : nat) (sock : option Conn) (tr : list event) (sys : System)
    (a : actor) (sys' : System) (ev : event) :
  reach_from (boot_with n sock) tr sys ->
  sys_step a sys = Some (sys', ev) ->
  errCount (vars sys') =
  if counts_an_error a sys
  then atomic_AddUint64_1 (errCount (vars sys))
  else errCount (vars sys).
Proof.
  intros Hreach.
  destruct (reach_Inv n sock tr sys Hreach) as [_ Hp _ _].
  destruct Hp as [Hperm Hcf Hcm Hlen Hnr].
  pose proof (perm_length_seq _ _ Hperm) as Hcount.
  unfold all_messages, in_flight in Hcount. rewrite !length_app in Hcount.
  unfold sys_step, counts_an_error. destruct (panicked sys); [done|].
  destruct a as [e|i|ans| |i|p ok].
  - unfold producer_call. destruct (mux_locked (vars sys)); [done|].
    destruct (shuttingDown (vars sys)); simpl; intros; by simplify_eq.
  - destruct (producers sys !! i) as [p|] eqn:Hp; [|done].
    apply lookup_split in Hp as (l1 & l2 & Hps & _ & _).
    destruct p as [e|msg e|msg e|msg e]; simpl.
    + unfold chan_recv. destruct (ch_items (freeMessages (vars sys)));
        intros; by simplify_eq.
    + intros; simplify_eq. simpl. by rewrite ?render_keeps_errCount.
    + destruct (messages_closed (vars sys)); [intros; by simplify_eq|].
      unfold chan_send.
      destruct (Nat.ltb_spec (length (ch_items (messages (vars sys))))
                  (ch_cap (messages (vars sys)))) as [Hlt|Hge].
      * intros; by simplify_eq.
      * exfalso. rewrite Hps, flat_map_app, length_app in Hcount.
        simpl in Hcount. lia.
    + exfalso. apply (Hnr msg e). rewrite Hps. apply in_middle.
  - destruct (logWriter sys) as [w|] eqn:Hw; [|done].
    destruct w as [|msg|msg|msg| |]; simpl.
    + unfold chan_recv. destruct (ch_items (messages (vars sys))).
      * destruct (messages_closed (vars sys)); intros; simplify_eq; simpl;
          by destruct ans as [[]|].
      * intros; simplify_eq; simpl; by destruct ans as [[]|].
    + destruct ans as [ok|]; [|done]. intros; simplify_eq. simpl.
      unfold sink_write, write, writeCustomSocket.
      by destruct (customSock (vars sys)), ok.
    + intros; simplify_eq. simpl. rewrite ?recycle_keeps_errCount.
      by destruct ans as [[]|].
    + simpl in Hcount. rewrite freeMsg_room by lia.
      intros; simplify_eq. simpl. by destruct ans as [[]|].
    + intros; simplify_eq. simpl. rewrite ?logWriter_exit_keeps_errCount.
      by destruct ans as [[]|].
    + destruct (wg (vars sys) - 1 <? 0); intros; simplify_eq; simpl;
        by destruct ans as [[]|].
  - intros; by simplify_eq.
  - destruct (drainers sys !! i) as [d|]; [|done].
    destruct d; simpl.
    + destruct (mux_locked (vars sys) || negb (mux_readers (vars sys) =? 0)%nat);
        intros; by simplify_eq.
    + intros; by simplify_eq.
    + destruct (messages_closed (vars sys)); intros; by simplify_eq.
    + intros; by simplify_eq.
    + destruct (wg (vars sys) =? 0); intros; by simplify_eq.
  - intros; simplify_eq. simpl. unfold SetLogName. by destruct ok.
Qed.


(** ** The end of a drain *)

Lemma pending_not_nil sys :
  pending sys <> [] <->
  writer_unwritten (logWriter sys) ++ ch_items (messages (vars sys)) <> [].
Proof.
  unfold pending.
  destruct (writer_unwritten (logWriter sys) ++ ch_items (messages (vars sys)));
    simpl; split; intros H; congruence.
Qed.

(** While the sink does not return, what is left to write stays so: no
    step hands a message to the sink and no drainTheQueue returns. *)
Lemma stalled_step a sys sys' ev :
  sys_step a sys = Some (sys', ev) -> sink_silent a = true ->
  Inv_control sys -> pending sys <> [] ->
  pending sys' <> [] /\ ev <> EvDrainReturn /\ written_of ev = [].
Proof.
  intros Hstep Hsilent Hc. rewrite !pending_not_nil. revert Hstep.
  pose proof (ic_wg sys Hc) as Hwg. pose proof (ic_past_loop sys Hc) as Hpl.
  unfold sys_step. destruct (panicked sys); [done|].
  destruct a as [e|i|ans| |i|p ok].
  - unfold producer_call. destruct (mux_locked (vars sys)); [done|].
    destruct (shuttingDown (vars sys)); simpl; intros; by simplify_eq.
  - destruct (producers sys !! i) as [p|]; [|done].
    destruct p as [e|msg e|msg e|msg e]; simpl.
    + unfold chan_recv. destruct (ch_items (freeMessages (vars sys)));
        intros; by simplify_eq.
    + intros; simplify_eq. simpl. by autorewrite with fields.
    + destruct (messages_closed (vars sys)); [intros; by simplify_eq|].
      unfold chan_send.
      destruct (length (ch_items (messages (vars sys)))
                <? ch_cap (messages (vars sys)))%nat;
        intros; simplify_eq; simpl; [|done].
      split; [|done]. intros Hnil. apply app_eq_nil in Hnil as [_ Hnil].
      by apply app_eq_nil in Hnil as [_ Hnil].
    + intros; simplify_eq. simpl. unfold deferred_release.
      by autorewrite with fields.
  - destruct ans as [ok|]; [done|].
    destruct (logWriter sys) as [w|] eqn:Hw; [|done].
    destruct w as [|msg|msg|msg| |]; simpl.
    + unfold chan_recv.
      destruct (ch_items (messages (vars sys))) as [|msg rest] eqn:Hq.
      * destruct (messages_closed (vars sys)); intros; by simplify_eq.
      * intros; by simplify_eq.
    + done.
    + intros; simplify_eq. simpl. by autorewrite with fields.
    + intros; simplify_eq. simpl. by autorewrite with fields.
    + destruct (Hpl eq_refl) as [_ Hempty]. intros Hstep Hne.
      by rewrite Hempty in Hne.
    + destruct (Hpl eq_refl) as [_ Hempty]. intros Hstep Hne.
      by rewrite Hempty in Hne.
  - intros; by simplify_eq.
  - destruct (drainers sys !! i) as [d|]; [|done].
    destruct d; simpl.
    + destruct (mux_locked (vars sys) || negb (mux_readers (vars sys) =? 0)%nat);
        intros; by simplify_eq.
    + intros; by simplify_eq.
    + destruct (messages_closed (vars sys)); intros; by simplify_eq.
    + intros; by simplify_eq.
    + destruct (logWriter sys) as [w|] eqn:Hw.
      * rewrite Hwg. done.
      * destruct (Hpl eq_refl) as [_ Hempty]. intros Hstep Hne.
        by rewrite Hempty in Hne.
  - intros; simplify_eq. simpl. by autorewrite with fields.
Qed.

Lemma stalled_run sched :
  forall sys sys' tr',
    forallb sink_silent sched = true ->
    Inv_control sys -> pending sys <> [] ->
    run sched sys = Some (sys', tr') ->
    pending sys' <> [] /\ ~ In EvDrainReturn tr' /\ written tr' = [].
Proof.
  induction sched as [|a sched IH]; intros sys sys' tr' Hall Hc Hne; simpl.
  - intros; simplify_eq. split; [done|]. split; [|done]. by intros [].
  - simpl in Hall. apply andb_prop in Hall as [Ha Hall].
    destruct (sys_step a sys) as [[sys1 ev]|] eqn:Hstep; [|done].
    destruct (run sched sys1) as [[sys2 evs]|] eqn:Hrun; [|done].
    intros; simplify_eq.
    destruct (stalled_step a sys sys1 ev Hstep Ha Hc Hne) as (Hne1 & Hev & Hw).
    assert (Hc1 : Inv_control sys1).
    { eapply Inv_control_step; [|exact Hc]. by eapply sys_step_sound. }
    destruct (IH sys1 sys' evs Hall Hc1 Hne1 Hrun) as (Hne2 & Hno & Hwr).
    split; [done|]. split.
    + intros [Heq|Hin]; [by apply Hev | by apply Hno].
    + unfold written in *. simpl. by rewrite Hw, Hwr.
Qed.

(** X10.  A call of drainTheQueue that has got to [wg.Wait()] returns once
    the writer has returned, and that depends on the sink.  From any state
    of the process in which one stands there: if the sink returns from each
    call that the writer still makes, with an error or without, then the
    steps that the writer still needs ([writer_steps_left], four for each
    pending message and at most six more) take it to its return and the
    drain returns at its next step; every queued message has then been
    handed to
    the sink, which holds them (csyslog called for each, or the frame of
    each accepted one written to the socket, which is closed), and no call
    of queueMsgDirect is left running.  If a message is still to be written
    and the sink does not return, then whatever the other goroutines do, no
    message is handed to the sink, the message stays to be written and no
    call of drainTheQueue returns: a stalled sink stalls the shutdown, and
    nothing in the file bounds the wait. *)
Theorem drainTheQueue_returns_after_the_turns_of_the_writer
    (n : nat) (sock : option Conn) (tr : list event) (sys : System)
    (d1 d2 : list drainer) :
  reach_from (boot_with n sock) tr sys ->
  panicked sys = false ->
  drainers sys = d1 ++ DWait :: d2 ->
  (forall oks,
      length oks = writer_steps_left sys ->
      exists sys' tr',
        run (answers oks ++ [Drainer (length d1)]) sys
        = Some (sys', tr' ++ [EvDrainReturn]) /\
        drainers sys' = d1 ++ d2 /\
        logWriter sys' = None /\
        producers sys' = [] /\
        panicked sys' = false /\
        written (tr ++ tr') = enqueued (tr ++ tr') /\
        match sock with
        | None =>
            syslog (vars sys') =
            map syslog_call (map snd (enqueued (tr ++ tr')))
        | Some k0 =>
            exists k, customSock (vars sys') = Some k /\
                      conn_closed k = true /\
                      sent k = sent k0 ++ map socket_frame (sent_ok (tr ++ tr'))
        end) /\
  (forall sched sys' tr',
      pending sys <> [] ->
      forallb sink_silent sched = true ->
      run sched sys = Some (sys', tr') ->
      ~ In EvDrainReturn tr' /\ written tr' = [] /\ pending sys' <> [] /\
      logWriter sys' <> None).
Proof.
  intros Hreach Hpk Hds.
  pose proof (reach_Inv n sock tr sys Hreach) as Hinv.
  pose proof (inv_control n tr sys Hinv) as Hc.
  split.
  - intros oks Hk.
    assert (Hcl : messages_closed (vars sys) = true).
    { apply (ic_drainer_closed sys Hc DWait); [|done].
      rewrite Hds. apply in_middle. }
    destruct (writer_returns oks sys Hc Hpk Hcl Hk)
      as (sys1 & tr1 & Hrun & Hw & Hpk1 & Hps1 & Hds1).
    pose proof (run_reach _ _ _ _ Hrun) as Hreach1.
    pose proof (reach_from_app _ _ _ _ _ Hreach Hreach1) as Hreach2.
    destruct (reach_Inv n sock _ sys1 Hreach2) as [Hc1 _ _ Ht1].
    destruct (reach_more n sock _ sys1 Hreach2) as (_ & Hsink & _ & _).
    assert (Hwg : wg (vars sys1) = 0) by (by rewrite (ic_wg sys1 Hc1), Hw).
    destruct (ic_past_loop sys1 Hc1) as [_ Hempty]; [by rewrite Hw|].
    assert (Hall : written (tr ++ tr1) = enqueued (tr ++ tr1)).
    { rewrite (it_fifo _ _ Ht1). unfold pending. rewrite Hw, Hempty. simpl.
      by rewrite app_nil_r. }
    exists (mkSystem (vars sys1) (producers sys1) (logWriter sys1)
              (d1 ++ d2) false), tr1.
    split; [|simpl; split; [done|split; [done|split; [|split; [done|split;
                                                               [done|]]]]]].
    + rewrite (run_app _ _ _ _ _ Hrun). simpl. unfold sys_step.
      rewrite Hpk1, Hds1, Hds, list_lookup_middle by done. simpl.
      rewrite Hwg. simpl. by rewrite delete_middle.
    + apply (ic_flag sys1 Hc1). apply (ic_closed sys1 Hc1).
      by apply (ic_past_loop sys1 Hc1); rewrite Hw.
    + unfold Inv_sinks in Hsink. destruct sock as [k0|].
      * destruct Hsink as [(k & Hk' & Hsent) _]. exists k.
        split; [done|]. split; [|done].
        apply (ic_past_close sys1 Hc1); [by rewrite Hw | done].
      * destruct Hsink as [_ Hlog]. by rewrite Hlog, sunk_written, Hall.
  - intros sched sys' tr' Hne Hall Hrun.
    destruct (stalled_run sched sys sys' tr' Hall Hc Hne Hrun)
      as (Hne' & Hno & Hwr).
    split; [done|]. split; [done|]. split; [done|].
    intros Hw.
    pose proof (run_reach _ _ _ _ Hrun) as Hreach1.
    destruct (reach_from_Inv n tr sys tr' sys' Hinv Hreach1) as [Hc' _ _ _].
    destruct (ic_past_loop sys' Hc') as [_ Hempty]; [by rewrite Hw|].
    apply Hne'. unfold pending. by rewrite Hw, Hempty.
Qed.

(** ** No deadlock *)

Lemma filter_none {A} (f : A -> bool) (l : list A) :
  (forall x, In x l -> f x = false) -> List.filter f l = [].
Proof.
  induction l as [|x l IH]; intros H; [done|]. simpl.
  rewrite (H x) by (by left). apply IH. intros y Hy. apply H. by right.
Qed.

Lemma in_lookup {A} (l : list A) (x : A) :
  In x l -> exists i, l !! i = Some x /\ (i < length l)%nat.
Proof.
  intros Hin. apply list_elem_of_In, list_elem_of_lookup_1 in Hin as [i Hi].
  exists i. split; [done|]. by eapply lookup_lt_Some.
Qed.

Lemma drainer_is_goroutine sys i :
  (i < length (drainers sys))%nat -> In (Drainer i) (goroutines sys).
Proof.
  intros Hlt. unfold goroutines. apply in_or_app. right. apply in_or_app. right.
  apply in_map, in_seq. lia.
Qed.

(** X11.  The pipeline waits for nothing but the sink.  In every state of a
    process that has not panicked and in which a call of queueMsgDirect or
    of drainTheQueue is in progress, either one of the goroutines can take
    its next step without the sink returning from a call (a call in
    progress never waits; a drain that holds the write lock never waits; a
    drain at [Lock] waits only for those; a drain at [wg.Wait()] waits only
    for the writer), or the writer stands in a call of the sink, no call of
    queueMsgDirect is in progress and every drain is at [wg.Wait()].  In
    that state nothing moves as long as the sink does not return, and the
    writer moves as soon as it does. *)
Theorem only_the_sink_stops_the_pipeline
    (n : nat) (sock : option Conn) (tr : list event) (sys : System) :
  reach_from (boot_with n sock) tr sys ->
  panicked sys = false ->
  producers sys <> [] \/ drainers sys <> [] ->
  ((exists a sys' ev,
       In a (goroutines sys) /\ sys_step a sys = Some (sys', ev)) \/
   (exists msg,
       logWriter sys = Some (WWrite msg) /\ producers sys = [] /\
       forall d, In d (drainers sys) -> d = DWait)) /\
  (forall msg,
      logWriter sys = Some (WWrite msg) -> producers sys = [] ->
      (forall d, In d (drainers sys) -> d = DWait) ->
      (forall a, In a (goroutines sys) -> sys_step a sys = None) /\
      (forall ok, exists sys' ev,
            sys_step (Writer (Returns ok)) sys = Some (sys', ev))).
Proof.
  intros Hreach Hpk Hbusy.
  destruct (reach_Inv n sock tr sys Hreach) as [Hc _ _ _].
  split.
  - destruct (producers sys) as [|p ps] eqn:Hps.
    + destruct Hbusy as [|Hds]; [done|].
      pose proof (ic_readers sys Hc) as Hr. rewrite Hps in Hr. simpl in Hr.
      destruct (List.find holds_write_lock (drainers sys)) as [d|] eqn:Hfind.
      { (* a drain holds the write lock *)
        left. apply find_some in Hfind as [Hin Hd].
        apply in_lookup in Hin as (i & Hi & Hlt).
        exists (Drainer i). unfold sys_step. rewrite Hpk, Hi.
        destruct d; try done; simpl.
        - eexists _, _. split; [by apply drainer_is_goroutine | done].
        - destruct (messages_closed (vars sys));
            eexists _, _; (split; [by apply drainer_is_goroutine | done]).
        - eexists _, _. split; [by apply drainer_is_goroutine | done]. }
      assert (Hfree : mux_locked (vars sys) = false).
      { pose proof (ic_lock sys Hc) as Hl.
        rewrite filter_none in Hl by (intros x Hx; by eapply find_none in Hfind).
        by destruct (mux_locked (vars sys)). }
      destruct (List.find at_Lock (drainers sys)) as [d|] eqn:Hlock.
      { (* a drain stands at Lock, and the lock is free *)
        left. apply find_some in Hlock as [Hin Hd].
        apply in_lookup in Hin as (i & Hi & Hlt).
        exists (Drainer i). unfold sys_step. rewrite Hpk, Hi.
        destruct d; try done; simpl. rewrite Hfree, Hr. simpl.
        eexists _, _. split; [by apply drainer_is_goroutine | done]. }
      (* every drain stands at wg.Wait() *)
      assert (Hwait : forall d, In d (drainers sys) -> d = DWait).
      { intros d Hin.
        pose proof (find_none _ _ Hfind d Hin) as H1.
        pose proof (find_none _ _ Hlock d Hin) as H2.
        by destruct d. }
      destruct (drainers sys) as [|d ds] eqn:Hdrainers; [done|].
      assert (Hd : d = DWait) by (apply Hwait; by left).
      subst d.
      assert (Hcl : messages_closed (vars sys) = true).
      { apply (ic_drainer_closed sys Hc DWait); [|done].
        rewrite Hdrainers. by left. }
      destruct (logWriter sys) as [w|] eqn:Hw.
      * destruct (sys_step (Writer Blocks) sys) as [[sys' ev]|] eqn:Hstep.
        { left. exists (Writer Blocks), sys', ev. split; [|done].
          unfold goroutines. rewrite Hw. apply in_or_app. right. by left. }
        destruct (writer_waits_only_on_the_queue_and_on_the_sink
                    Blocks sys w Hw Hpk Hstep)
          as [(_ & _ & Hopen)|(msg & -> & _)]; [congruence|].
        right. exists msg. done.
      * left. exists (Drainer 0). unfold sys_step. rewrite Hpk, Hdrainers.
        simpl. pose proof (ic_wg sys Hc) as Hwg. rewrite Hw in Hwg.
        rewrite Hwg. simpl. eexists _, _. split; [|done].
        apply drainer_is_goroutine. rewrite Hdrainers. simpl. lia.
    + left. exists (Producer 0). unfold sys_step. rewrite Hpk, Hps. simpl.
      destruct (producer_step p (vars sys)) as [[s' nx] ev].
      assert (Hin : In (Producer 0) (goroutines sys)).
      { unfold goroutines. rewrite Hps. by left. }
      destruct nx as [p'|[err|why]]; eexists _, _; (split; [exact Hin | done]).
  - intros msg Hw Hps Hwait. split.
    + intros a Hin. unfold goroutines in Hin. rewrite Hps, Hw in Hin.
      simpl in Hin. destruct Hin as [<-|Hin].
      * unfold sys_step. by rewrite Hpk, Hw.
      * apply in_map_iff in Hin as (i & <- & Hi). apply in_seq in Hi.
        unfold sys_step. rewrite Hpk.
        destruct (drainers sys !! i) as [d|] eqn:Hd; [|done].
        rewrite (Hwait d) by (apply list_elem_of_In; by eapply list_elem_of_lookup_2).
        simpl. rewrite (ic_wg sys Hc), Hw. done.
    + intros ok. unfold sys_step. rewrite Hpk, Hw. simpl. by eexists _, _.
Qed.

(** ** SetCustomSocket *)

(** X12.  SetCustomSocket assigns what [net.Dial] returns to [customSock]
    before it looks at the error, and touches nothing else.  A dial that
    fails therefore sets [customSock] to nil, also when a connection was set
    before: the call reports the error, the turn of the writer that follows
    hands its message to syslog and not to the socket, and the writer closes
    nothing at its end.  A dial that succeeds replaces the connection, and
    the next write that the sink accepts goes to the new one.  Of two calls
    the last one decides. *)
Theorem SetCustomSocket_sets_the_socket_even_when_the_dial_fails
    (ok : bool) (msg : nat) (s : State) (k : Conn) (dial1 dial2 : option Conn) :
  snd (SetCustomSocket None s) = false /\
  customSock (fst (SetCustomSocket None s)) = None /\
  syslog (logWriter_turn ok msg (fst (SetCustomSocket None s))) =
    syslog s ++ [syslog_call (deref msg s)] /\
  customSock (logWriter_turn ok msg (fst (SetCustomSocket None s))) = None /\
  logWriter_exit (fst (SetCustomSocket None s)) = fst (SetCustomSocket None s) /\
  snd (SetCustomSocket (Some k) s) = true /\
  syslog (logWriter_turn ok msg (fst (SetCustomSocket (Some k) s))) = syslog s /\
  customSock (logWriter_turn true msg (fst (SetCustomSocket (Some k) s))) =
    Some {| sent := sent k ++ [socket_frame (deref msg s)];
            conn_closed := conn_closed k |} /\
  customSock (logWriter_turn false msg (fst (SetCustomSocket (Some k) s))) =
    Some k /\
  fst (SetCustomSocket dial2 (fst (SetCustomSocket dial1 s))) =
    fst (SetCustomSocket dial2 s).
Proof.
  unfold logWriter_turn.
  rewrite !freeMsg_keeps_syslog, !recycle_keeps_syslog,
    !freeMsg_keeps_customSock, !recycle_keeps_customSock.
  unfold SetCustomSocket, sink_write, write, writeCustomSocket, logWriter_exit,
    syslog_call.
  simpl. repeat split; try done.
  - by destruct ok.
  - by destruct ok.
  - by destruct ok.
Qed.


(** ** The lock and the flag *)

(** X13.  How the read-write lock protects the queue.  In every state of
    the process [shuttingDownMux] has as many readers as calls of
    queueMsgDirect are in progress, at most one call of drainTheQueue stands
    between its [Lock] and its [Unlock], and the lock is taken exactly
    then; while it is taken, and from the moment the flag is set, no call
    of queueMsgDirect is in progress; and the queue is closed only with the
    flag set.  So no call is at its send on [messages] when drainTheQueue
    closes the channel. *)
Theorem the_queue_is_closed_with_no_call_in_progress
    (n : nat) (sock : option Conn) (tr : list event) (sys : System) :
  reach_from (boot_with n sock) tr sys ->
  mux_readers (vars sys) = length (producers sys) /\
  (length (List.filter holds_write_lock (drainers sys)) <= 1)%nat /\
  (mux_locked (vars sys) = true <->
   exists d, In d (drainers sys) /\ holds_write_lock d = true) /\
  (mux_locked (vars sys) = true -> producers sys = []) /\
  (shuttingDown (vars sys) = true -> producers sys = []) /\
  (messages_closed (vars sys) = true -> shuttingDown (vars sys) = true) /\
  (forall d, In d (drainers sys) -> past_close d = true ->
             messages_closed (vars sys) = true).
Proof.
  intros Hreach.
  destruct (reach_Inv n sock tr sys Hreach) as [Hc _ _ _].
  destruct Hc as [Hr Hl Hlk Hfl _ Hdc Hcl _ _ _].
  split; [done|]. split; [rewrite Hl; destruct (mux_locked (vars sys)); lia|].
  split; [|done].
  split.
  - intros Hm. rewrite Hm in Hl.
    destruct (List.filter holds_write_lock (drainers sys)) as [|d ds] eqn:Hf;
      [done|].
    exists d. apply (filter_In holds_write_lock). rewrite Hf. by left.
  - intros (d & Hin & Hd).
    destruct (mux_locked (vars sys)); [done|].
    assert (Hin' : In d (List.filter holds_write_lock (drainers sys)))
      by (by apply filter_In).
    destruct (List.filter holds_write_lock (drainers sys)); [done|].
    simpl in Hl. lia.
Qed.


End Pipeline.

(** * The pipeline on concrete inputs

    From here on the model runs with the capacity policy [growCap_go119]. *)

(** ** The level of a queued message *)

(** C1.  The level stored in a message does not depend on the level of the
    call: queueMsg stores [levelSysLog[Levels.Debug]] (7) whatever [lvl] is,
    so the remote frame of every message starts with "<15>", and for the five
    levels that the table does not map to [LOG_DEBUG] the stored level is not
    the one of the table.  At level Info with an empty prefix and the body
    "ready", on a socket, the writer sends "<15>[Info]   ready" and the
    terminator, while the table gives [LOG_USER|LOG_INFO] = 14. *)
Theorem queueMsg_level_is_always_debug :
  (forall growCap (lvl : Level) (prefix body : string) (s : State) msg rest,
      shuttingDown s = false ->
      ch_items (freeMessages s) = msg :: rest ->
      (msg < length (msgArr s))%nat ->
      let m := deref msg (fst (queueMsg growCap lvl prefix body s)) in
      level m = levelSysLog Levels.Debug /\
      Sprintf_prio (Z.lor LOG_USER (level m)) = "<15>" /\
      (lvl <> Levels.Debug -> lvl <> Levels.Off -> level m <> levelSysLog lvl)) /\
  Sprintf_prio (Z.lor LOG_USER (levelSysLog Levels.Info)) = "<14>" /\
  (exists sys tr,
      run growCap_go119
          [NewCall (Sprintf_s_s_s (levelMapFmt Levels.Info) "" "ready");
           Producer 0; Producer 0; Producer 0;
           Writer (Returns true); Writer (Returns true);
           Writer (Returns true); Writer (Returns true)]
          (boot_with 1 (Some fresh_conn)) = Some (sys, tr) /\
      customSock (vars sys) =
        Some {| sent := ["<15>[Info]   ready" +:+ NUL]; conn_closed := false |}).
Proof.
  split; [|split].
  - intros. by eapply queueMsg_level_debug.
  - reflexivity.
  - eexists _, _. split; [vm_compute; reflexivity|]. reflexivity.
Qed.

(** ** The bytes of a queued message *)

(** C2, the claim as stated fails: from the state that init leaves, the
    call for Error, "svc1" and "disk full" queues message 0, and the bytes of
    that message are not "[Error] svc1 disk full" and the terminator: they are
    "[Error]  svc1 disk full" and the terminator, with two blanks after the
    bracket. *)
Lemma queueMsg_Error_svc1_has_two_blanks :
  snd (queueMsg growCap_go119 Levels.Error "svc1" "disk full" init) = Ret None /\
  hd_error (ch_items (messages
    (fst (queueMsg growCap_go119 Levels.Error "svc1" "disk full" init))))
  = Some 0%nat /\
  buf (buffer (deref 0
    (fst (queueMsg growCap_go119 Levels.Error "svc1" "disk full" init))))
  <> "[Error] svc1 disk full" +:+ NUL /\
  buf (buffer (deref 0
    (fst (queueMsg growCap_go119 Levels.Error "svc1" "disk full" init))))
  = "[Error]  svc1 disk full" +:+ NUL.
Proof.
  unfold init. rewrite init_with_eq. lazy.
  split; [reflexivity|]. split; [reflexivity|]. split; [discriminate|reflexivity].
Qed.

Lemma queueMsg_renders_witness :
  buf (buffer (deref 0
    (fst (queueMsg growCap_go119 Levels.Error "svc1" "disk full" (init_with 1)))))
  = "[Error]  svc1 disk full" +:+ NUL.
Proof.
  refine (proj2 (proj2 (proj2 (proj2
    (queueMsg_renders_tag_blank_prefix_blank_body growCap_go119
       Levels.Error "svc1" "disk full" (init_with 1) 0%nat [] _ _ _ _ _ _))))
    eq_refl eq_refl eq_refl);
    first [ reflexivity | vm_compute; lia ].
Defined.

(** ** The writer recycles by capacity *)

Lemma logWriter_recycles_witness :
  deref 0 (logWriter_turn true 0 (state_with_capacity 64)) =
    {| buffer := {| buf := ""; bcap := 64 |}; level := LOG_DEBUG |} /\
  deref 0 (logWriter_turn true 0 (state_with_capacity 9000)) = logMessage_zero.
Proof.
  split.
  - refine (proj1 (proj1 (proj2
      (logWriter_recycles_by_capacity growCap_go119 true 0
         (state_with_capacity 64) _)) _));
      vm_compute; first [lia | discriminate].
  - refine (proj1 (proj1 (proj2 (proj2
      (logWriter_recycles_by_capacity growCap_go119 true 0
         (state_with_capacity 9000) _))) _));
      vm_compute; first [lia | reflexivity].
Defined.

(** ** An error after the acquisition gives the message back *)

Lemma queueMsgDirect_error_witness :
  exists msg rest,
    ch_items (freeMessages state_queue_full) = msg :: rest /\
    ErrLogFullBuf = ErrLogFullBuf /\
    ch_items (freeMessages
      (fst (queueMsgDirect growCap_go119 "x" state_queue_full))) = rest ++ [msg] /\
    ch_items (freeMessages
      (fst (queueMsgDirect growCap_go119 "x" state_queue_full)))
    ≡ₚ ch_items (freeMessages state_queue_full) /\
    ch_items (messages
      (fst (queueMsgDirect growCap_go119 "x" state_queue_full)))
    = ch_items (messages state_queue_full).
Proof.
  apply (queueMsgDirect_error_releases growCap_go119 "x" state_queue_full
           (fst (queueMsgDirect growCap_go119 "x" state_queue_full)) ErrLogFullBuf).
  - vm_compute. lia.
  - reflexivity.
  - vm_compute. reflexivity.
Defined.

(** ** Every queued message is written once *)

Lemma drain_returns_witness :
  exists sys tr,
    run growCap_go119 two_calls_then_drain (boot_with 2 (Some fresh_conn))
    = Some (sys, tr) /\
    In EvDrainReturn tr /\
    length (enqueued tr) = 2%nat /\
    written tr = enqueued tr /\
    logWriter sys = None /\
    customSock (vars sys) =
      Some {| sent := ["<15>a" +:+ NUL]; conn_closed := true |}.
Proof.
  destruct (run growCap_go119 two_calls_then_drain (boot_with 2 (Some fresh_conn)))
    as [[sys tr]|] eqn:Hrun; [|vm_compute in Hrun; discriminate].
  exists sys, tr. split; [reflexivity|].
  pose proof (run_reach growCap_go119 _ _ _ _ Hrun) as Hreach.
  vm_compute in Hrun. injection Hrun as Hsys Htr.
  assert (Hin : In EvDrainReturn tr).
  { rewrite <- Htr. simpl. tauto. }
  destruct (drain_returns_after_every_message_is_written growCap_go119
              2 (Some fresh_conn) tr sys Hreach) as (_ & _ & _ & _ & Hdone).
  destruct (Hdone Hin) as (Hw & _ & _ & _ & Hall & k & Hk & Hclosed & Hsent).
  split; [exact Hin|]. split; [by rewrite <- Htr|].
  split; [exact Hall|]. split; [exact Hw|].
  rewrite Hk. destruct k as [snt cl]. simpl in Hclosed, Hsent.
  rewrite Hclosed, Hsent, <- Htr. reflexivity.
Defined.

(** ** After the flag *)

Lemma after_the_flag_witness :
  exists sys tr,
    run growCap_go119 call_then_shutdown (boot_with 2 None) = Some (sys, tr) /\
    shuttingDown (vars sys) = true /\
    queueMsgDirect growCap_go119 "late" (vars sys)
    = (vars sys, Ret (Some ErrUnavailable)) /\
    sys_step growCap_go119 (NewCall "late") sys
    = Some (sys, EvReturn "late" (Some ErrUnavailable)).
Proof.
  destruct (run growCap_go119 call_then_shutdown (boot_with 2 None))
    as [[sys tr]|] eqn:Hrun; [|vm_compute in Hrun; discriminate].
  exists sys, tr. split; [reflexivity|].
  pose proof (run_reach growCap_go119 _ _ _ _ Hrun) as Hreach.
  vm_compute in Hrun. injection Hrun as Hsys Htr.
  assert (Hsd : shuttingDown (vars sys) = true) by (by rewrite <- Hsys).
  destruct (after_the_flag_calls_are_unavailable growCap_go119
              2 None tr sys Hreach Hsd) as (Hcall & _ & _).
  split; [exact Hsd|]. split; [apply Hcall|]. by rewrite <- Hsys.
Defined.

(** ** The count of the messages *)

Lemma messages_are_counted_witness :
  exists sys tr,
    run growCap_go119 three_calls (boot_with 2 None) = Some (sys, tr) /\
    producers sys = [PEnqueue 0 "a"; PRender 1 "b"] /\
    all_messages sys ≡ₚ seq 0 2 /\
    snd (enqueue 0 (vars sys)) = Ret None.
Proof.
  destruct (run growCap_go119 three_calls (boot_with 2 None))
    as [[sys tr]|] eqn:Hrun; [|vm_compute in Hrun; discriminate].
  exists sys, tr. split; [reflexivity|].
  pose proof (run_reach growCap_go119 _ _ _ _ Hrun) as Hreach.
  vm_compute in Hrun. injection Hrun as Hsys Htr.
  assert (Hps : producers sys = [PEnqueue 0 "a"; PRender 1 "b"])
    by (by rewrite <- Hsys).
  destruct (messages_are_counted_and_queue_never_full growCap_go119
              2 None tr sys Hreach) as (Hperm & _ & _ & _ & _ & Hsend & _).
  split; [exact Hps|]. split; [exact Hperm|].
  by destruct (Hsend [] 0%nat "a" [PRender 1 "b"] Hps) as (_ & _ & Hret).
Defined.

(** ** A second call of drainTheQueue *)

Lemma drainTheQueue_again_witness :
  exists sys tr,
    run growCap_go119 drain_alone (boot_with 2 None) = Some (sys, tr) /\
    In EvDrainReturn tr /\
    drainTheQueue (vars sys) =
      Some (set_shuttingDown true (set_mux_locked true (vars sys)),
            GoPanic "close of closed channel").
Proof.
  destruct (run growCap_go119 drain_alone (boot_with 2 None))
    as [[sys tr]|] eqn:Hrun; [|vm_compute in Hrun; discriminate].
  exists sys, tr. split; [reflexivity|].
  pose proof (run_reach growCap_go119 _ _ _ _ Hrun) as Hreach.
  vm_compute in Hrun. injection Hrun as Hsys Htr.
  assert (Hin : In EvDrainReturn tr).
  { rewrite <- Htr. simpl. tauto. }
  destruct (drainTheQueue_again_panics growCap_go119 2 None tr sys Hreach Hin)
    as (_ & _ & _ & Hpanic & _).
  split; [exact Hin|]. rewrite Hpanic. by rewrite <- Hsys.
Defined.

(** C7, the claim as stated fails: on the pipeline as init leaves it, with
    no socket, a first drain runs from its call to its return and nothing
    is left running; drainTheQueue called again from that state does not
    return: it panics with "close of closed channel", holding the write lock.
    In the interleaved process the second drain ends in the panicked
    state. *)
Lemma second_drainTheQueue_is_a_panic :
  exists sys tr,
    run growCap_go119 drain_alone (boot None) = Some (sys, tr) /\
    In EvDrainReturn tr /\
    drainers sys = [] /\ producers sys = [] /\ logWriter sys = None /\
    panicked sys = false /\
    (exists s',
        drainTheQueue (vars sys) = Some (s', GoPanic "close of closed channel") /\
        mux_locked s' = true) /\
    (exists sys' tr',
        run growCap_go119 drain_again sys = Some (sys', tr') /\
        last tr' = Some (EvPanic "close of closed channel") /\
        panicked sys' = true).
Proof.
  unfold boot. generalize NumMessages. intros n.
  unfold boot_with. rewrite init_with_eq.
  eexists _, _. split; [vm_compute; reflexivity|].
  split; [simpl; tauto|].
  do 4 (split; [reflexivity|]).
  split.
  - eexists. split; [vm_compute; reflexivity | reflexivity].
  - eexists _, _. split; [vm_compute; reflexivity|]. split; reflexivity.
Qed.


(** * More of the pipeline, on concrete inputs *)

Ltac run_it sys tr Hrun Hreach Hsys Htr :=
  match goal with
  | |- context [run growCap_go119 ?sched ?sys0 = Some _] =>
      destruct (run growCap_go119 sched sys0) as [[sys tr]|] eqn:Hrun;
      [|vm_compute in Hrun; discriminate];
      exists sys, tr; split; [reflexivity|];
      pose proof (run_reach growCap_go119 _ _ _ _ Hrun) as Hreach;
      vm_compute in Hrun; injection Hrun as Hsys Htr
  end.

Lemma syslog_gets_witness :
  exists sys tr,
    run growCap_go119 two_calls_then_drain (boot_with 2 None) = Some (sys, tr) /\
    written_entries tr = [("a", true); ("b", false)] /\
    syslog (vars sys) = [(15, "a"); (15, "b")].
Proof.
  run_it sys tr Hrun Hreach Hsys Htr.
  destruct (syslog_gets_every_written_entry_in_order growCap_go119
              2 tr sys Hreach) as (_ & Hlog & _ & _).
  assert (Hwr : written_entries tr = [("a", true); ("b", false)])
    by (by rewrite <- Htr).
  split; [exact Hwr|]. rewrite Hlog, Hwr. reflexivity.
Defined.

Lemma socket_gets_witness :
  exists sys tr,
    run growCap_go119 two_calls_then_drain (boot_with 2 (Some fresh_conn))
    = Some (sys, tr) /\
    written_entries tr = [("a", true); ("b", false)] /\
    exists k, customSock (vars sys) = Some k /\ sent k = ["<15>a" +:+ NUL].
Proof.
  run_it sys tr Hrun Hreach Hsys Htr.
  destruct (socket_gets_one_frame_for_each_accepted_entry growCap_go119
              2 fresh_conn tr sys Hreach) as (_ & _ & k & Hk & Hsent).
  assert (Hwr : written_entries tr = [("a", true); ("b", false)])
    by (by rewrite <- Htr).
  split; [exact Hwr|]. exists k. split; [exact Hk|].
  rewrite Hsent, Hwr. reflexivity.
Defined.

Lemma logCount_counts_witness :
  exists sys tr,
    run growCap_go119 three_calls (boot_with 2 None) = Some (sys, tr) /\
    count is_call tr = 3%nat /\ count is_drop tr = 1%nat /\
    logCount (vars sys) = 3 /\ dropCount (vars sys) = 1 /\
    length (producers sys) = 2%nat.
Proof.
  run_it sys tr Hrun Hreach Hsys Htr.
  destruct (logCount_counts_the_calls_let_in growCap_go119
              2 None tr sys Hreach) as (Hlog & Hdrop & Hcalls & _).
  assert (Hc : count is_call tr = 3%nat) by (by rewrite <- Htr).
  assert (Hd : count is_drop tr = 1%nat) by (by rewrite <- Htr).
  assert (He : length (enqueued tr) = 0%nat) by (by rewrite <- Htr).
  split; [exact Hc|]. split; [exact Hd|].
  split; [by rewrite Hlog, Hc|]. split; [by rewrite Hdrop, Hd|].
  rewrite Hc, Hd, He in Hcalls. lia.
Defined.

Lemma queueMsgDirect_fails_witness :
  exists sys tr,
    run growCap_go119 (call_then_shutdown ++ [NewCall "b"]) (boot_with 2 None)
    = Some (sys, tr) /\
    In (EvReturn "b" (Some ErrUnavailable)) tr /\
    shuttingDown (vars sys) = true /\
    (0 < count is_drain_call tr)%nat.
Proof.
  run_it sys tr Hrun Hreach Hsys Htr.
  assert (Hin : In (EvReturn "b" (Some ErrUnavailable)) tr).
  { rewrite <- Htr. simpl. tauto. }
  destruct (queueMsgDirect_fails_only_after_drainTheQueue growCap_go119
              2 None tr sys "b" ErrUnavailable Hreach Hin) as (_ & Hsd & Hdr).
  split; [exact Hin|]. split; [exact Hsd | exact Hdr].
Defined.

Lemma only_a_second_drainTheQueue_witness :
  exists sys tr,
    run growCap_go119 two_calls_then_drain (boot_with 2 None) = Some (sys, tr) /\
    count is_drain_call tr = 1%nat /\
    panicked sys = false /\
    forall why, ~ In (EvPanic why) tr.
Proof.
  run_it sys tr Hrun Hreach Hsys Htr.
  destruct (only_a_second_drainTheQueue_panics growCap_go119
              2 None tr sys Hreach) as (_ & _ & Hone & _).
  assert (Hc : count is_drain_call tr = 1%nat) by (by rewrite <- Htr).
  split; [exact Hc|]. apply Hone. lia.
Defined.

Lemma free_messages_witness :
  exists sys tr,
    run growCap_go119 two_calls_then_drain (boot_with 2 None) = Some (sys, tr) /\
    In 1%nat (ch_items (freeMessages (vars sys))) /\
    Buffer_Bytes (buffer (deref 1 (vars sys))) = "" /\
    Buffer_Cap (buffer (deref 1 (vars sys))) <= MaxFreeMsgSize.
Proof.
  run_it sys tr Hrun Hreach Hsys Htr.
  assert (Hin : In 1%nat (ch_items (freeMessages (vars sys)))).
  { rewrite <- Hsys. simpl. tauto. }
  destruct (free_messages_are_empty_and_small growCap_go119
              2 None tr sys 1%nat Hreach Hin) as (_ & Hbuf & Hcap).
  split; [exact Hin|]. split; [exact Hbuf | exact Hcap].
Defined.

Lemma after_drainTheQueue_witness :
  exists sys tr,
    run growCap_go119 two_calls_then_drain (boot_with 2 None) = Some (sys, tr) /\
    In EvDrainReturn tr /\
    length (ch_items (freeMessages (vars sys))) = 2%nat /\
    producers sys = [] /\ logWriter sys = None.
Proof.
  run_it sys tr Hrun Hreach Hsys Htr.
  assert (Hin : In EvDrainReturn tr).
  { rewrite <- Htr. simpl. tauto. }
  destruct (after_drainTheQueue_every_message_is_free growCap_go119
              2 None tr sys Hreach Hin) as (Hps & Hw & _ & _ & Hlen & _).
  split; [exact Hin|]. split; [exact Hlen|]. split; [exact Hps | exact Hw].
Defined.

Lemma errCount_counts_witness :
  exists sys tr,
    run growCap_go119
      [NewCall "a"; Producer 0; Producer 0; Producer 0; Writer (Returns true)]
      (boot_with 2 None) = Some (sys, tr) /\
    exists sys' ev,
      sys_step growCap_go119 (Writer (Returns false)) sys = Some (sys', ev) /\
      errCount (vars sys) = 0 /\ errCount (vars sys') = 1.
Proof.
  run_it sys tr Hrun Hreach Hsys Htr.
  destruct (sys_step growCap_go119 (Writer (Returns false)) sys)
    as [[sys' ev]|] eqn:Hstep;
    [|rewrite <- Hsys in Hstep; vm_compute in Hstep; discriminate].
  exists sys', ev. split; [reflexivity|].
  pose proof (errCount_counts_the_failed_writes growCap_go119
                2 None tr sys (Writer (Returns false)) sys' ev Hreach Hstep) as Herr.
  assert (H0 : errCount (vars sys) = 0) by (by rewrite <- Hsys).
  split; [exact H0|]. rewrite Herr, H0, <- Hsys. reflexivity.
Defined.

Lemma drainTheQueue_returns_witness :
  exists sys tr,
    run growCap_go119 call_then_shutdown (boot_with 2 None) = Some (sys, tr) /\
    drainers sys = [DWait] /\
    writer_steps_left sys = 7%nat /\
    (exists sys' tr',
        run growCap_go119
          (answers [true; false; true; true; true; true; true] ++ [Drainer 0])
          sys = Some (sys', tr' ++ [EvDrainReturn]) /\
        drainers sys' = [] /\ logWriter sys' = None /\
        syslog (vars sys') = map syslog_call (map snd (enqueued (tr ++ tr')))) /\
    (forall sys' tr',
        run growCap_go119 [Writer Blocks; NewCall "late"; NewDrain] sys
        = Some (sys', tr') ->
        ~ In EvDrainReturn tr' /\ logWriter sys' <> None).
Proof.
  run_it sys tr Hrun Hreach Hsys Htr.
  assert (Hds : drainers sys = [] ++ DWait :: []) by (by rewrite <- Hsys).
  assert (Hpk : panicked sys = false) by (by rewrite <- Hsys).
  assert (Hk : writer_steps_left sys = 7%nat) by (by rewrite <- Hsys).
  assert (Hne : pending sys <> []).
  { intros Hnil. rewrite <- Hsys in Hnil. vm_compute in Hnil. discriminate. }
  destruct (drainTheQueue_returns_after_the_turns_of_the_writer growCap_go119
              2 None tr sys [] [] Hreach Hpk Hds) as [Hgo Hstall].
  split; [exact Hds|]. split; [exact Hk|]. split.
  - destruct (Hgo [true; false; true; true; true; true; true] (eq_sym Hk))
      as (sys' & tr' & Hrun' & Hds' & Hw' & _ & _ & _ & Hlog).
    exists sys', tr'. split; [exact Hrun'|]. split; [exact Hds'|].
    split; [exact Hw' | exact Hlog].
  - intros sys' tr' Hrun'.
    destruct (Hstall [Writer Blocks; NewCall "late"; NewDrain] sys' tr' Hne
                eq_refl Hrun') as (Hno & _ & _ & Hw).
    split; [exact Hno | exact Hw].
Defined.

Lemma only_the_sink_witness :
  exists sys tr,
    run growCap_go119 (call_then_shutdown ++ [Writer Blocks]) (boot_with 2 None)
    = Some (sys, tr) /\
    logWriter sys = Some (WWrite 0) /\
    drainers sys = [DWait] /\
    (forall a, In a (goroutines sys) -> sys_step growCap_go119 a sys = None) /\
    (exists sys' ev,
        sys_step growCap_go119 (Writer (Returns true)) sys = Some (sys', ev)).
Proof.
  run_it sys tr Hrun Hreach Hsys Htr.
  assert (Hpk : panicked sys = false) by (by rewrite <- Hsys).
  assert (Hw : logWriter sys = Some (WWrite 0)) by (by rewrite <- Hsys).
  assert (Hps : producers sys = []) by (by rewrite <- Hsys).
  assert (Hds : drainers sys = [DWait]) by (by rewrite <- Hsys).
  assert (Hbusy : producers sys <> [] \/ drainers sys <> []).
  { right. by rewrite Hds. }
  assert (Hwait : forall d, In d (drainers sys) -> d = DWait).
  { intros d. rewrite Hds. simpl. intros [<-|[]]. reflexivity. }
  destruct (only_the_sink_stops_the_pipeline growCap_go119
              2 None tr sys Hreach Hpk Hbusy) as [_ Hstalled].
  destruct (Hstalled 0%nat Hw Hps Hwait) as [Hnone Hgo].
  split; [exact Hw|]. split; [exact Hds|]. split; [exact Hnone | apply Hgo].
Defined.

Lemma the_queue_is_closed_witness :
  exists sys tr,
    run growCap_go119
      [NewCall "a"; NewDrain; Producer 0; Producer 0; Producer 0;
       Drainer 0; Drainer 0; Drainer 0]
      (boot_with 2 None) = Some (sys, tr) /\
    drainers sys = [DUnlock] /\
    mux_locked (vars sys) = true /\
    messages_closed (vars sys) = true /\
    producers sys = [].
Proof.
  run_it sys tr Hrun Hreach Hsys Htr.
  destruct (the_queue_is_closed_with_no_call_in_progress growCap_go119
              2 None tr sys Hreach) as (_ & _ & Hlock & Hnone & _ & _ & Hcl).
  assert (Hds : drainers sys = [DUnlock]) by (by rewrite <- Hsys).
  assert (Hl : mux_locked (vars sys) = true).
  { apply Hlock. exists DUnlock. rewrite Hds. split; [by left | reflexivity]. }
  split; [exact Hds|]. split; [exact Hl|].
  split; [apply (Hcl DUnlock); [rewrite Hds; by left | reflexivity]|].
  by apply Hnone.
Defined.
